(** * dia.Graph: the adjacency index, batches, cell lifecycle and traversal

    A shallow embedding of [packages/joint-core/src/dia/Graph.mjs].

    The graph object is a record holding the cell collection, the four
    index structures ([_out], [_in], [_nodes], [_edges]), the batch
    counters and the log of batch notifications.  Every method of the
    source that the properties below talk about is a function on that
    record; methods that can throw return a [result] next to the state they
    leave behind.

    The source keeps [_out], [_in], [_nodes], [_edges], [_batches] and the
    tables local to its queries ([edges], [res], [visited], [cellMap]) in
    plain objects, so a key that is the name of a member of
    [Object.prototype] ([proto_names] below) reads that member instead of
    [undefined].  The batch counters are modelled with that behaviour.  The
    index and the queries are modelled on ids and end ids that are no such
    names ([plain_key]); a write under [__proto__] changes
    [Object.prototype] itself, which is outside this record. *)

From Stdlib Require Import ZArith Lia.
From stdpp Require Import base option strings list gmap sets.

Local Open Scope string_scope.
Local Open Scope list_scope.

#[local] Set Warnings "-clear-no-such-hyp".

(* ================================================================== *)
(** ** Data model *)
(* ================================================================== *)

(** An endpoint descriptor of a link: [{ id, port }] or a point
    [{ x, y }]; the empty descriptor [{}] has no field at all. *)
Record Endpoint := mkEndpoint {
  ep_id : option string;
  ep_port : option string;
  ep_xy : option (Z * Z)
}.

#[global] Instance Endpoint_eq_dec : EqDecision Endpoint.
Proof. solve_decision. Defined.

(** Attribute values. *)
Inductive val :=
| VNum (n : Z)
| VStr (s : string)
| VBool (b : bool)
| VEnd (e : Endpoint).

#[global] Instance val_eq_dec : EqDecision val.
Proof. solve_decision. Defined.

(** The constructor a cell was built with: [isLink()] / [isElement()]. *)
Inductive CellClass := Element | Link.

#[global] Instance CellClass_eq_dec : EqDecision CellClass.
Proof. solve_decision. Defined.

(** A cell: [cell.id], its class and [cell.attributes] (every attribute
    but [id], which the code reads through [cell.id]). *)
Record Cell := mkCell {
  cell_id : string;
  cell_class : CellClass;
  attributes : gmap string val
}.

#[global] Instance Cell_eq_dec : EqDecision Cell.
Proof. solve_decision. Defined.

(** What [addCell], [_syncCell] and [_replaceCell] receive: a cell model
    (it carries [CELL_MARKER]) or a plain attributes object.  For an
    attributes object, [cell_class] is the class of the constructor that the
    collection's cell namespace resolves for its [type]. *)
Inductive CellInit :=
| Model (c : Cell)
| Json (c : Cell).

Definition init_cell (ci : CellInit) : Cell :=
  match ci with Model c => c | Json c => c end.

Definition has_marker (ci : CellInit) : bool :=
  match ci with Model _ => true | Json _ => false end.

Definition isLink (c : Cell) : bool :=
  match cell_class c with Link => true | Element => false end.

Definition isElement (c : Cell) : bool :=
  match cell_class c with Element => true | Link => false end.

(** [{}], the default [source] and [target] of a link. *)
Definition no_endpoint : Endpoint := mkEndpoint None None None.

(** [{ x: 0, y: 0 }] *)
Definition origin_point : Endpoint := mkEndpoint None None (Some (0, 0)%Z).

Definition endpoint_attr (key : string) (c : Cell) : Endpoint :=
  match attributes c !! key with
  | Some (VEnd e) => e
  | _ => no_endpoint
  end.

(** [cell.attributes.source] and [cell.attributes.target] *)
Definition source (c : Cell) : Endpoint := endpoint_attr "source" c.
Definition target (c : Cell) : Endpoint := endpoint_attr "target" c.

(** The test [if (endpoint.id)]: the id is there and is not the empty
    string. *)
Definition truthy_id (e : Endpoint) : option string :=
  match ep_id e with
  | Some s => if decide (s = "") then None else Some s
  | None => None
  end.

(** [cell.attributes.type], and [util.isString] of it *)
Definition type_attr (c : Cell) : option val := attributes c !! "type".

Definition isString (v : option val) : bool :=
  match v with Some (VStr _) => true | _ => false end.

(** *** Objects used as sets

    The buckets of [_out] and [_in] are objects [{ [edgeId]: true }].
    [util.forIn] walks their keys in insertion order, so a bucket is the
    list of its keys, without repetition. *)
Definition jset_add (k : string) (s : list string) : list string :=
  if decide (k ∈ s) then s else s ++ [k].

Definition jset_del (k : string) (s : list string) : list string :=
  filter (λ x, x ≠ k) s.

(** *** The keys of a plain object

    The names of the members of [Object.prototype].  A plain object
    [{}] without an own property of such a name reads the inherited member:
    a function, and for [__proto__] the prototype itself. *)
Definition proto_names : list string :=
  [ "__proto__"; "constructor"; "hasOwnProperty"; "isPrototypeOf";
    "propertyIsEnumerable"; "toLocaleString"; "toString"; "valueOf";
    "__defineGetter__"; "__defineSetter__"; "__lookupGetter__";
    "__lookupSetter__" ].

Definition proto_name (k : string) : bool := bool_decide (k ∈ proto_names).

(** a key under which a plain object behaves as a map *)
Definition plain_key (k : string) : Prop := proto_name k = false.

(** *** Notifications *)
Inductive Notification :=
| BatchStart (name : string)
| BatchStop (name : string).

#[global] Instance Notification_eq_dec : EqDecision Notification.
Proof. solve_decision. Defined.

(** What an own property of [_batches] holds when it is not a number:
    a string ([f + 1] for an inherited function [f]) or [NaN] (such a
    string, or [f], less one).  Only the names of [proto_names] get
    there. *)
Inductive Odd := OddString | OddNaN.

(** *** The graph

    [_batches] holds the own properties of [this._batches] that are
    numbers, [_odd_batches] those that are not. *)
Record Graph := mkGraph {
  cellCollection : list Cell;
  _out : gmap string (list string);
  _in : gmap string (list string);
  _nodes : gset string;
  _edges : gset string;
  _batches : gmap string Z;
  _odd_batches : gmap string Odd;
  triggered : list Notification
}.

(** [initialize]: an empty collection, an empty index, no batch. *)
Definition initialize : Graph := mkGraph [] ∅ ∅ ∅ ∅ ∅ ∅ [].

Definition set_cells (f : list Cell → list Cell) (g : Graph) : Graph :=
  mkGraph (f (cellCollection g)) (_out g) (_in g) (_nodes g) (_edges g)
          (_batches g) (_odd_batches g) (triggered g).
Definition set_out (f : gmap string (list string) → gmap string (list string))
    (g : Graph) : Graph :=
  mkGraph (cellCollection g) (f (_out g)) (_in g) (_nodes g) (_edges g)
          (_batches g) (_odd_batches g) (triggered g).
Definition set_in (f : gmap string (list string) → gmap string (list string))
    (g : Graph) : Graph :=
  mkGraph (cellCollection g) (_out g) (f (_in g)) (_nodes g) (_edges g)
          (_batches g) (_odd_batches g) (triggered g).
Definition set_nodes (f : gset string → gset string) (g : Graph) : Graph :=
  mkGraph (cellCollection g) (_out g) (_in g) (f (_nodes g)) (_edges g)
          (_batches g) (_odd_batches g) (triggered g).
Definition set_edges (f : gset string → gset string) (g : Graph) : Graph :=
  mkGraph (cellCollection g) (_out g) (_in g) (_nodes g) (f (_edges g))
          (_batches g) (_odd_batches g) (triggered g).

Definition trigger (n : Notification) (g : Graph) : Graph :=
  mkGraph (cellCollection g) (_out g) (_in g) (_nodes g) (_edges g)
          (_batches g) (_odd_batches g) (triggered g ++ [n]).

(** [getCell(id)]: [cellCollection.get(id)] *)
Definition getCell (g : Graph) (id : string) : option Cell :=
  find (λ c, bool_decide (cell_id c = id)) (cellCollection g).

(* ================================================================== *)
(** ** The adjacency index *)
(* ================================================================== *)

(** [_out], [_in], [_nodes] and [_edges] are plain objects.  They are
    maps and sets here, which is what a plain object is under a
    [plain_key]: [m[k]] reads [undefined] until [k] is written, as [m !! k]
    reads [None].  Under the name of a member of [Object.prototype] the
    source reads that member instead ([_out['constructor']] is a function,
    and the bucket entry is written into it); such keys are outside this
    model, and the properties of the index are stated for cells that are
    [plain_cell]s. *)

(** [(m[k] || (m[k] = {}))[id] = true], for a [plain_key] [k] *)
Definition bucket_add (k id : string) (m : gmap string (list string))
    : gmap string (list string) :=
  <[k := jset_add id (default [] (m !! k))]> m.

(** [delete m[k][id]], done only when the bucket [m[k]] is there *)
Definition bucket_del (k id : string) (m : gmap string (list string))
    : gmap string (list string) :=
  match m !! k with
  | Some b => <[k := jset_del id b]> m
  | None => m
  end.

Definition _restructureOnAdd (cell : Cell) (g : Graph) : Graph :=
  if isLink cell then
    let g1 := set_edges (λ e, {[cell_id cell]} ∪ e) g in
    let g2 := match truthy_id (source cell) with
              | Some s => set_out (bucket_add s (cell_id cell)) g1
              | None => g1
              end in
    match truthy_id (target cell) with
    | Some t => set_in (bucket_add t (cell_id cell)) g2
    | None => g2
    end
  else set_nodes (λ n, {[cell_id cell]} ∪ n) g.

Definition _restructureOnRemove (cell : Cell) (g : Graph) : Graph :=
  if isLink cell then
    let g1 := set_edges (λ e, e ∖ {[cell_id cell]}) g in
    let g2 := match truthy_id (source cell) with
              | Some s => set_out (bucket_del s (cell_id cell)) g1
              | None => g1
              end in
    match truthy_id (target cell) with
    | Some t => set_in (bucket_del t (cell_id cell)) g2
    | None => g2
    end
  else set_nodes (λ n, n ∖ {[cell_id cell]}) g.

(** [_restructureOnReset]: the four structures are emptied and
    [_restructureOnAdd] is run on every model of the collection, in order.
    ([foldl f a l] applies [f] from the left, as [forEach] does.) *)
Definition clear_index (g : Graph) : Graph :=
  mkGraph (cellCollection g) ∅ ∅ ∅ ∅ (_batches g) (_odd_batches g)
          (triggered g).

Definition _restructureOnReset (g : Graph) : Graph :=
  foldl (λ acc cell, _restructureOnAdd cell acc) (clear_index g)
        (cellCollection g).

(** [_restructureOnChangeSource(link)]; [prevSource] is
    [link.previous('source')] and [link] already has its new source. *)
Definition _restructureOnChangeSource (link : Cell) (prevSource : Endpoint)
    (g : Graph) : Graph :=
  let g1 := match truthy_id prevSource with
            | Some p => set_out (bucket_del p (cell_id link)) g
            | None => g
            end in
  match truthy_id (source link) with
  | Some s => set_out (bucket_add s (cell_id link)) g1
  | None => g1
  end.

Definition _restructureOnChangeTarget (link : Cell) (prevTarget : Endpoint)
    (g : Graph) : Graph :=
  let g1 := match truthy_id prevTarget with
            | Some p => set_in (bucket_del p (cell_id link)) g
            | None => g
            end in
  match truthy_id (target link) with
  | Some t => set_in (bucket_add t (cell_id link)) g1
  | None => g1
  end.

(** [getOutboundEdges(node)], [getInboundEdges(node)]: the bucket, or
    [{}] when there is none. *)
Definition getOutboundEdges (g : Graph) (node : string) : list string :=
  default [] (_out g !! node).

Definition getInboundEdges (g : Graph) (node : string) : list string :=
  default [] (_in g !! node).

(* ================================================================== *)
(** ** Batches *)
(* ================================================================== *)

(** What [this._batches[name]] reads. *)
Inductive BatchValue :=
| BUndefined            (* no property of that name *)
| BInherited            (* the member of [Object.prototype] *)
| BNumber (n : Z)
| BNaN
| BString.              (* a string that is not the text of a number *)

Definition batch_value (g : Graph) (name : string) : BatchValue :=
  if proto_name name then
    if bool_decide (name = "__proto__") then BInherited
    else
      match _odd_batches g !! name with
      | Some OddString => BString
      | Some OddNaN => BNaN
      | None =>
          match _batches g !! name with
          | Some n => BNumber n
          | None => BInherited
          end
      end
  else
    match _batches g !! name with
    | Some n => BNumber n
    | None => BUndefined
    end.

(** all the own properties of [this._batches] *)
Definition batches_of (g : Graph) : gmap string Z * gmap string Odd :=
  (_batches g, _odd_batches g).

(** [this._batches[name] = v], on the own properties.  An assignment of a
    number or a string to [__proto__] does nothing. *)
Definition batches_write (name : string) (v : BatchValue)
    (b : gmap string Z * gmap string Odd) : gmap string Z * gmap string Odd :=
  if bool_decide (name = "__proto__") then b
  else
    match v with
    | BNumber n => (<[name := n]> b.1, delete name b.2)
    | BNaN => (delete name b.1, <[name := OddNaN]> b.2)
    | BString => (delete name b.1, <[name := OddString]> b.2)
    | BUndefined | BInherited => b
    end.

Definition batch_write (name : string) (v : BatchValue) (g : Graph) : Graph :=
  let b := batches_write name v (batches_of g) in
  mkGraph (cellCollection g) (_out g) (_in g) (_nodes g) (_edges g)
          b.1 b.2 (triggered g).

(** [(v || 0) + 1]: [undefined], [0] and [NaN] give way to [0]; a
    function, an object or a string plus one is a string. *)
Definition plus_one (v : BatchValue) : BatchValue :=
  match v with
  | BUndefined | BNaN => BNumber 1
  | BNumber n => BNumber (n + 1)
  | BInherited | BString => BString
  end.

(** [(v || 0) - 1]: a function, an object or such a string less one is
    [NaN]. *)
Definition minus_one (v : BatchValue) : BatchValue :=
  match v with
  | BUndefined | BNaN => BNumber (-1)
  | BNumber n => BNumber (n - 1)
  | BInherited | BString => BNaN
  end.

(** the counter of a name: the number that [this._batches[name] || 0]
    is, and [0] when it is no number *)
Definition batch_count (g : Graph) (name : string) : Z :=
  match batch_value g name with
  | BNumber n => n
  | _ => 0%Z
  end.

Definition startBatch (name : string) (g : Graph) : Graph :=
  trigger (BatchStart name)
    (batch_write name (plus_one (batch_value g name)) g).

Definition stopBatch (name : string) (g : Graph) : Graph :=
  trigger (BatchStop name)
    (batch_write name (minus_one (batch_value g name)) g).

(** The three ways [hasActiveBatch] is called: without an argument, with
    an array of names, with one name. *)
Inductive BatchArg :=
| NoName
| NameArray (names : list string)
| OneName (name : string).

(** [batches[batch] > 0]: false for [undefined], for [NaN], and for a
    function, an object or a string, which compare as [NaN]. *)
Definition batch_positive (g : Graph) (batch : string) : bool :=
  match batch_value g batch with
  | BNumber n => bool_decide (0 < n)%Z
  | _ => false
  end.

(** [Object.keys(batches)]: the own properties *)
Definition batch_names (g : Graph) : list string :=
  (map_to_list (_batches g)).*1 ++ (map_to_list (_odd_batches g)).*1.

Definition hasActiveBatch (arg : BatchArg) (g : Graph) : bool :=
  let names := match arg with
               | NoName => batch_names g
               | NameArray l => l
               | OneName n => [n]
               end in
  existsb (batch_positive g) names.

(* ================================================================== *)
(** ** Exceptions *)
(* ================================================================== *)

(** What a method can end with instead of a value: a [TypeError], or
    [OutOfFuel] when the step bound of a recursive definition below is
    used up (the source would overflow its stack or loop for ever). *)
Inductive error :=
| TypeError (msg : string)
| OutOfFuel.

Inductive result (A : Type) :=
| Ok (a : A)
| Throw (e : error).
Arguments Ok {A} a.
Arguments Throw {A} e.

#[global] Instance result_ret : MRet result := λ A, Ok.
#[global] Instance result_bind : MBind result := λ A B f m,
  match m with
  | Ok a => f a
  | Throw e => Throw e
  end.

(** [forEach] / [forIn] / [reduce] with a body that may throw *)
Fixpoint foldM {A B : Type} (f : B → A → result B) (b : B) (l : list A)
    : result B :=
  match l with
  | [] => Ok b
  | a :: l' =>
      match f b a with
      | Ok b' => foldM f b' l'
      | Throw e => Throw e
      end
  end.

(** A method that changes the graph: the graph it leaves, and how it
    ended.  What was changed before a [throw] stays changed. *)
Definition Method (A : Type) : Type := Graph → Graph * result A.

Definition mpure {A} (a : A) : Method A := λ g, (g, Ok a).
Definition mthrow {A} (e : error) : Method A := λ g, (g, Throw e).
Definition mbindM {A B} (m : Method A) (f : A → Method B) : Method B :=
  λ g, match m g with
       | (g', Ok a) => f a g'
       | (g', Throw e) => (g', Throw e)
       end.
(** a step that cannot throw *)
Definition mdo (f : Graph → Graph) : Method unit := λ g, (f g, Ok tt).

Notation "m1 ;;; m2" := (mbindM m1 (λ _, m2))
  (at level 100, m2 at level 200, right associativity).

Fixpoint forEachM {A : Type} (f : A → Method unit) (l : list A) : Method unit :=
  match l with
  | [] => mpure tt
  | a :: l' => f a ;;; forEachM f l'
  end.

(* ================================================================== *)
(** ** The cell collection and the cell model (collaborators) *)
(* ================================================================== *)

(** Modelled from the spec: the observable cell collection ([GraphCells],
    an mvc collection) is not part of [Graph.mjs].  It is the ordered,
    id-keyed store of section 6: [add] inserts a model unless one with the
    same id is already stored and then notifies ['add']; [reset] replaces
    the models (one per id, the first one given) and notifies ['reset'];
    [remove] with [silent] takes a model out without notifying.  The
    listeners that [initialize] registers for these notifications are run
    at the place of the notification. *)
Fixpoint unique_by_id (seen : gset string) (l : list Cell) : list Cell :=
  match l with
  | [] => []
  | c :: l' =>
      if decide (cell_id c ∈ seen) then unique_by_id seen l'
      else c :: unique_by_id ({[cell_id c]} ∪ seen) l'
  end.

Definition collection_add (cell : Cell) (g : Graph) : Graph :=
  match getCell g (cell_id cell) with
  | Some _ => g
  | None => _restructureOnAdd cell (set_cells (λ l, l ++ [cell]) g)
  end.

Definition collection_reset (cells : list Cell) (g : Graph) : Graph :=
  _restructureOnReset (set_cells (λ _, unique_by_id ∅ cells) g).

Definition collection_remove_silent (cell : Cell) (g : Graph) : Graph :=
  set_cells (filter (λ c, cell_id c ≠ cell_id cell)) g.

(** Modelled from the spec: [Model.prototype.set] of the cell models is
    not part of [Graph.mjs].  It writes the given attributes over the
    stored ones, keeps the others, and notifies ['change:source'] and
    ['change:target'] when that attribute got another value; the listener
    reads the old value through [link.previous]. *)
Definition attr_changed (key : string) (patch : gmap string val) (old : Cell)
    : bool :=
  match patch !! key with
  | Some v => bool_decide (attributes old !! key ≠ Some v)
  | None => false
  end.

Definition cell_set (id : string) (patch : gmap string val) (g : Graph) : Graph :=
  match getCell g id with
  | None => g
  | Some old =>
      let new := mkCell id (cell_class old) (patch ∪ attributes old) in
      let g1 := set_cells
                  (map (λ c, if bool_decide (cell_id c = id) then new else c)) g in
      let g2 := if attr_changed "source" patch old
                then _restructureOnChangeSource new (source old) g1 else g1 in
      if attr_changed "target" patch old
      then _restructureOnChangeTarget new (target old) g2 else g2
  end.

(** Modelled from the spec: [Link.prototype.getSourceCell] and
    [getTargetCell] are not part of [Graph.mjs].  An endpoint resolves to
    the cell of the collection that its id names. *)
Definition resolve (g : Graph) (e : Endpoint) : option Cell :=
  match truthy_id e with
  | Some id => getCell g id
  | None => None
  end.

Definition getSourceCell (g : Graph) (link : Cell) : option Cell :=
  resolve g (source link).
Definition getTargetCell (g : Graph) (link : Cell) : option Cell :=
  resolve g (target link).

(** Modelled from the spec: embedding ([Cell.prototype.isEmbeddedIn],
    [getEmbeddedCells]) is not part of [Graph.mjs].  A cell may name a
    [parent]; it is embedded in each cell up that chain, and the embedded
    cells of a cell, taken deep, are the cells of the collection embedded
    in it. *)
Definition parent_of (c : Cell) : option string :=
  match attributes c !! "parent" with
  | Some (VStr p) => Some p
  | _ => None
  end.

Fixpoint embedded_within (fuel : nat) (g : Graph) (c : Cell) (ancestor : string)
    : bool :=
  match fuel with
  | 0 => false
  | S fuel' =>
      match parent_of c with
      | None => false
      | Some p =>
          bool_decide (p = ancestor)
          || match getCell g p with
             | Some pc => embedded_within fuel' g pc ancestor
             | None => false
             end
      end
  end.

Definition isEmbeddedIn (g : Graph) (c model : Cell) : bool :=
  embedded_within (length (cellCollection g)) g c (cell_id model).

Definition getEmbeddedCells_deep (g : Graph) (model : Cell) : list Cell :=
  filter (λ c, isEmbeddedIn g c model = true) (cellCollection g).

(** [cell.get('parent')] as the condition of a [while]: an id that is
    not the empty string *)
Definition truthy_parent (c : Cell) : option string :=
  match parent_of c with
  | Some p => if decide (p = "") then None else Some p
  | None => None
  end.

(** Modelled from the spec: [Cell.prototype.getParentCell],
    [getEmbeddedCells] and [unembed] are not part of [Graph.mjs].  The
    parent cell of a cell is the cell of the collection that its [parent]
    names; the cells embedded in a cell are the cells of the collection
    that have it as their parent cell, in collection order; a cell that is
    unembedded has no [parent] any more, and that is done inside an
    ["unembed"] batch.  (The list [embeds] that the parent keeps of its
    embedded cells is not represented.) *)
Definition getParentCell (g : Graph) (c : Cell) : option Cell :=
  match truthy_parent c with
  | Some p => getCell g p
  | None => None
  end.

Definition getEmbeddedCells (g : Graph) (model : Cell) : list Cell :=
  filter (λ c, truthy_parent c = Some (cell_id model)) (cellCollection g).

Definition without_parent (c : Cell) : Cell :=
  mkCell (cell_id c) (cell_class c) (delete "parent" (attributes c)).

Definition unembed (id : string) (g : Graph) : Graph :=
  stopBatch "unembed"
    (set_cells (fmap (λ c, if bool_decide (cell_id c = id)
                           then without_parent c else c))
       (startBatch "unembed" g)).

(** Modelled from the spec: [Link.prototype.hasLoop(opt)] is not part of
    [Graph.mjs].  A link of the graph whose two ends carry an id has a loop
    when the ids are the same; with [deep], it also has one when the cell
    at one end is embedded in the cell at the other.  Looking at the cells
    of the ends throws when an end names no cell of the collection. *)
Definition hasLoop (g : Graph) (deep : bool) (link : Cell) : result bool :=
  match truthy_id (source link), truthy_id (target link) with
  | Some s, Some t =>
      if bool_decide (s = t) then Ok true
      else if deep then
        match getCell g s, getCell g t with
        | Some sourceElement, Some targetElement =>
            Ok (isEmbeddedIn g sourceElement targetElement
                || isEmbeddedIn g targetElement sourceElement)
        | _, _ => Throw (TypeError "the element is null")
        end
      else Ok false
  | _, _ => Ok false
  end.

(** Modelled from the spec: the layer controller is not part of
    [Graph.mjs].  A cell lies in the layer named by its [layer] attribute,
    or in the default layer; [maxZIndex] is the largest [z] in the layer
    and [0] in an empty one.  [getCells] lists the collection. *)
Definition layerAttribute : string := "layer".
Definition defaultCellLayerId : string := "cells".

Definition layer_of (c : Cell) : string :=
  match attributes c !! layerAttribute with
  | Some (VStr l) => if decide (l = "") then defaultCellLayerId else l
  | _ => defaultCellLayerId
  end.

Definition z_of (c : Cell) : Z :=
  match attributes c !! "z" with
  | Some (VNum z) => z
  | _ => 0%Z
  end.

Definition maxZIndex (g : Graph) (layerId : string) : Z :=
  match filter (λ c, layer_of c = layerId) (cellCollection g) with
  | [] => 0%Z
  | c :: l => foldl (λ m c', Z.max m (z_of c')) (z_of c) l
  end.

Definition getCells (g : Graph) : list Cell := cellCollection g.

(* ================================================================== *)
(** ** Connected links and neighbors *)
(* ================================================================== *)

(** The options read by the queries.  [inbound] and [outbound] may be left
    [undefined]. *)
Record QueryOpt := mkQueryOpt {
  inbound : option bool;
  outbound : option bool;
  indirect : bool;
  deep : bool;
  includeEnclosed : bool
}.

(** no option given *)
Definition no_opt : QueryOpt := mkQueryOpt None None false false false.

(** [if (inbound === undefined && outbound === undefined) inbound =
    outbound = true], then the two flags as conditions *)
Definition directions (opt : QueryOpt) : bool * bool :=
  match inbound opt, outbound opt with
  | None, None => (true, true)
  | i, o => (default false i, default false o)
  end.

Inductive Direction := Inbound | Outbound.

(** The array [links] (a cell the collection does not have is
    [undefined], here [None]) and the hash [edges], a plain object keyed by
    the ids of links: a set, as it is under [plain_key]s. *)
Definition Links : Type := list (option Cell) * gset string.

Section getConnectedLinks.
Context (g : Graph) (opt : QueryOpt).

Definition bucket_of (d : Direction) (id : string) : list string :=
  match d with
  | Outbound => getOutboundEdges g id
  | Inbound => getInboundEdges g id
  end.

(** [addOutbounds] and [addInbounds], which call each other when
    [indirect] is set. *)
Fixpoint addBounds (fuel : nat) (d : Direction) (model : Cell) (st : Links)
    : result Links :=
  match fuel with
  | 0 => Throw OutOfFuel
  | S fuel' =>
      st1 ← foldM (λ (st : Links) (edge : string),
               if decide (edge ∈ st.2) then Ok st
               else
                 let link := getCell g edge in
                 let st' := (st.1 ++ [link], {[edge]} ∪ st.2) in
                 if indirect opt then
                   match link with
                   | None => Throw (TypeError "link is undefined")
                   | Some l =>
                       st2 ← (if (directions opt).1
                              then addBounds fuel' Inbound l st' else Ok st');
                       if (directions opt).2
                       then addBounds fuel' Outbound l st2 else Ok st2
                   end
                 else Ok st')
             st (bucket_of d (cell_id model));
      if indirect opt && isLink model then
        match match d with
              | Outbound => getTargetCell g model
              | Inbound => getSourceCell g model
              end with
        | Some c =>
            if isLink c then
              if decide (cell_id c ∈ st1.2) then Ok st1
              else addBounds fuel' d c (st1.1 ++ [Some c], st1.2)
            else Ok st1
        | None => Ok st1
        end
      else Ok st1
  end.

(** the part under [if (opt.deep)], for one embedded cell and one
    direction *)
Definition add_deep (embeddedElements : gset string) (d : Direction)
    (cell : Cell) (st : Links) : result Links :=
  foldM (λ (st : Links) (edge : string),
      if decide (edge ∈ st.2) then Ok st
      else
        match getCell g edge with
        | None => Throw (TypeError "edgeCell is undefined")
        | Some edgeCell =>
            if negb (includeEnclosed opt)
               && match truthy_id (source edgeCell) with
                  | Some s => bool_decide (s ∈ embeddedElements)
                  | None => false
                  end
               && match truthy_id (target edgeCell) with
                  | Some t => bool_decide (t ∈ embeddedElements)
                  | None => false
                  end
            then Ok st
            else Ok (st.1 ++ [Some edgeCell], {[edge]} ∪ st.2)
        end)
    st (bucket_of d (cell_id cell)).

(** enough steps for every run of [addBounds] that ends *)
Definition links_fuel : nat :=
  S (S (length (cellCollection g)) * S (length (cellCollection g))).

Definition getConnectedLinks (model : Cell) : result (list (option Cell)) :=
  let '(inb, outb) := directions opt in
  st1 ← (if outb then addBounds links_fuel Outbound model ([], ∅)
         else Ok ([], ∅));
  st2 ← (if inb then addBounds links_fuel Inbound model st1 else Ok st1);
  st3 ← (if deep opt then
           let embeddedCells := getEmbeddedCells_deep g model in
           let embeddedElements : gset string :=
             list_to_set (cell_id <$> filter (λ c, isElement c = true)
                                             embeddedCells) in
           foldM (λ st cell,
               if isLink cell then Ok st
               else
                 st' ← (if outb
                        then add_deep embeddedElements Outbound cell st
                        else Ok st);
                 if inb then add_deep embeddedElements Inbound cell st'
                 else Ok st')
             st2 embeddedCells
         else Ok st2);
  Ok st3.1.
End getConnectedLinks.

(** the object [res] of [getNeighbors]: cells by id, in the order they
    were stored ([res[id]] for a [plain_key] [id]) *)
Definition has_key (id : string) (res : list (string * Cell)) : bool :=
  bool_decide (id ∈ res.*1).

Section getNeighbors.
Context (g : Graph) (model : Cell) (opt : QueryOpt).

(** one of the two blocks of the reducer: [gate] is [inbound] or
    [outbound], [e] the source or the target of the link *)
Definition add_neighbor (gate loop : bool) (e : Endpoint)
    (res : list (string * Cell)) : result (list (string * Cell)) :=
  match ep_id e with
  | Some id =>
      if gate && negb (has_key id res) then
        match getCell g id with
        | None => Throw (TypeError "element is undefined")
        | Some el =>
            if isElement el then
              if loop
                 || (bool_decide (cell_id el ≠ cell_id model)
                     && (negb (deep opt) || negb (isEmbeddedIn g el model)))
              then Ok (res ++ [(id, el)])
              else Ok res
            else Ok res
        end
      else Ok res
  | None => Ok res
  end.

(** the blocks under [if (model.isLink())] *)
Definition add_own_end (gate : bool) (c : option Cell)
    (res : list (string * Cell)) : list (string * Cell) :=
  match c with
  | Some el =>
      if gate && isElement el && negb (has_key (cell_id el) res)
      then res ++ [(cell_id el, el)]
      else res
  | None => res
  end.

Definition getNeighbors : result (list Cell) :=
  let '(inb, outb) := directions opt in
  links ← getConnectedLinks g opt model;
  res ← foldM (λ res (link : option Cell),
            match link with
            | None => Throw (TypeError "link is undefined")
            | Some l =>
                loop ← hasLoop g (deep opt) l;
                res1 ← add_neighbor inb loop (source l) res;
                add_neighbor outb loop (target l) res1
            end)
          [] links;
  let res' :=
    if isLink model then
      add_own_end outb (getTargetCell g model)
        (add_own_end inb (getSourceCell g model) res)
    else res in
  Ok res'.*2.
End getNeighbors.

(* ================================================================== *)
(** ** Removal *)
(* ================================================================== *)

(** The options that travel with a mutation down to the listeners. *)
Record Opt := mkOpt {
  opt_clear : bool;
  opt_disconnectLinks : bool
}.

Definition no_option : Opt := mkOpt false false.

Section removal.
(** [cell.remove(opt)], for the calls made from inside a removal *)
Context (remove : string → Opt → Method unit).

(** The body of the [forEach] in [disconnectLinks].  The test
    [link.attributes.source.id === model.id] reads the link as it is when
    its turn comes. *)
Definition disconnect_link (model l : Cell) (g : Graph) : Graph :=
  let live := default l (getCell g (cell_id l)) in
  let key := if bool_decide (ep_id (source live) = Some (cell_id model))
             then "source" else "target" in
  cell_set (cell_id l) {[ key := VEnd origin_point ]} g.

(** [disconnectLinks(model, opt)] *)
Definition disconnectLinks (model : Cell) (opt : Opt) : Method unit := λ g,
  match getConnectedLinks g no_opt model with
  | Throw e => (g, Throw e)
  | Ok links =>
      forEachM (λ link : option Cell,
          match link with
          | None => mthrow (TypeError "link is undefined")
          | Some l => mdo (disconnect_link model l)
          end)
        links g
  end.

(** [removeLinks(model, opt)] *)
Definition removeLinks (model : Cell) (opt : Opt) : Method unit := λ g,
  match getConnectedLinks g no_opt model with
  | Throw e => (g, Throw e)
  | Ok links =>
      forEachM (λ link : option Cell,
          match link with
          | None => mthrow (TypeError "link is undefined")
          | Some l => remove (cell_id l) opt
          end)
        links g
  end.

Definition _removeCell (cell : Cell) (options : Opt) : Method unit :=
  (if opt_clear options then mpure tt
   else if opt_disconnectLinks options then disconnectLinks cell options
   else removeLinks cell options) ;;;
  mdo (collection_remove_silent cell).

(** The ['remove'] notification of a cell reaching the graph: the two
    listeners of [initialize], in the order they were registered. *)
Definition on_remove (cell : Cell) (options : Opt) : Method unit :=
  mdo (_restructureOnRemove cell) ;;; _removeCell cell options.
End removal.

(** Modelled from the spec: [Cell.prototype.remove] is not part of
    [Graph.mjs].  A cell that is no longer in the collection does
    nothing.  A cell that is in the collection opens a ["remove"] batch,
    is unembedded from its parent cell when it has one, removes the cells
    embedded in it with the options it was given, announces its own
    removal (['remove'], with the same options; the listeners hear it as
    long as the cell is in the collection) and closes the batch. *)
Fixpoint cell_remove_fuel (fuel : nat) (id : string) (opt : Opt)
    : Method unit :=
  match fuel with
  | 0 => mthrow OutOfFuel
  | S fuel' => λ g,
      match getCell g id with
      | None => (g, Ok tt)
      | Some cell =>
          (mdo (startBatch "remove") ;;;
           mdo (λ g, match getParentCell g cell with
                     | Some _ => unembed id g
                     | None => g
                     end) ;;;
           (λ g, forEachM (λ embed, cell_remove_fuel fuel' (cell_id embed) opt)
                          (getEmbeddedCells g cell) g) ;;;
           (λ g, match getCell g id with
                 | Some live => on_remove (cell_remove_fuel fuel') live opt g
                 | None => (g, Ok tt)
                 end) ;;;
           mdo (stopBatch "remove")) g
      end
  end.

(** enough steps for every removal on a graph whose index matches *)
Definition remove_fuel (g : Graph) : nat :=
  S (4 * length (cellCollection g)).

Definition cell_remove (id : string) (opt : Opt) : Method unit := λ g,
  cell_remove_fuel (remove_fuel g) id opt g.

(** [clear(opt)].  [sortBy] is stable: the links in collection order,
    then the other cells in collection order. *)
Definition clear (opt : Opt) : Method unit := λ g,
  let opt' := mkOpt true (opt_disconnectLinks opt) in
  let collection := cellCollection g in
  if bool_decide (length collection = 0) then (g, Ok tt)
  else
    let cells := filter (λ c, isLink c = true) collection
                 ++ filter (λ c, isLink c = false) collection in
    (mdo (startBatch "clear") ;;;
     forEachM (λ c, cell_remove (cell_id c) opt') cells ;;;
     mdo (stopBatch "clear")) g.

(** [removeCells(cells, opt)] *)
Definition removeCells (cells : list Cell) (opt : Opt) : Method unit :=
  match cells with
  | [] => mpure tt
  | _ =>
      mdo (startBatch "remove") ;;;
      forEachM (λ c, cell_remove (cell_id c) opt) cells ;;;
      mdo (stopBatch "remove")
  end.

(* ================================================================== *)
(** ** Adding, resetting, replacing, synchronizing *)
(* ================================================================== *)

Definition _prepareCell (cell : CellInit) (ensureZIndex : bool) (g : Graph)
    : result CellInit :=
  let attrs := init_cell cell in
  if negb (isString (type_attr attrs)) then
    Throw (TypeError "dia.Graph: cell type must be a string.")
  else if ensureZIndex then
    match attributes attrs !! "z" with
    | Some _ => Ok cell
    | None =>
        let z := (maxZIndex g (layer_of attrs) + 1)%Z in
        let with_z := mkCell (cell_id attrs) (cell_class attrs)
                             (<["z" := VNum z]> (attributes attrs)) in
        Ok (match cell with Model _ => Model with_z | Json _ => Json with_z end)
    end
  else Ok cell.

(** The argument of [addCell]: a cell, or an array (of cells and
    arrays). *)
#[warnings="-register-all"]
Inductive CellArg :=
| ArgCell (cell : CellInit)
| ArgArray (cells : list CellArg).

Fixpoint flattenDeep (a : CellArg) : list CellInit :=
  match a with
  | ArgCell cell => [cell]
  | ArgArray cells => flat_map flattenDeep cells
  end.

(** [addCell(cell, opt)] for a [cell] that is not an array *)
Definition addCell_single (cell : CellInit) : Method unit := λ g,
  match _prepareCell cell true g with
  | Throw e => (g, Throw e)
  | Ok prepared => (collection_add (init_cell prepared) g, Ok tt)
  end.

(** [addCells(cells, opt)]; after [flattenDeep] every [addCell] it calls
    gets a cell. *)
Definition addCells (cells : list CellArg) : Method unit :=
  match cells with
  | [] => mpure tt
  | _ =>
      mdo (startBatch "add") ;;;
      forEachM addCell_single (flat_map flattenDeep cells) ;;;
      mdo (stopBatch "add")
  end.

Definition addCell (cell : CellArg) : Method unit :=
  match cell with
  | ArgArray cells => addCells cells
  | ArgCell c => addCell_single c
  end.

Definition resetCells (cells : list CellInit) : Method unit :=
  mdo (startBatch "reset") ;;;
  (λ g, match foldM (λ acc cell, c ← _prepareCell cell false g; Ok (acc ++ [c]))
                    [] cells with
        | Throw e => (g, Throw e)
        | Ok preparedCells =>
            (collection_reset (init_cell <$> preparedCells) g, Ok tt)
        end) ;;;
  mdo (stopBatch "reset").

(** [Object.assign({}, currentCell.attributes, newCellInitAttributes)]:
    the union of the two maps in which the new attributes win. *)
Definition replacementCellAttributes (currentCell : Cell) (newCellInit : CellInit)
    : gmap string val :=
  attributes (init_cell newCellInit) ∪ attributes currentCell.

Definition _replaceCell (currentCell : Cell) (newCellInit : CellInit) (opt : Opt)
    : Method unit :=
  mdo (startBatch "replace-cell") ;;;
  on_remove cell_remove currentCell (mkOpt true (opt_disconnectLinks opt)) ;;;
  (let merged := replacementCellAttributes currentCell newCellInit in
   let replacement :=
     match newCellInit with
     | Model c => Model (mkCell (cell_id c) (cell_class c) merged)
     | Json c =>
         Json (mkCell (cell_id c)
                 (match type_attr c with
                  | Some _ => cell_class c
                  | None => cell_class currentCell
                  end)
                 merged)
     end in
   addCell (ArgCell replacement)) ;;;
  mdo (stopBatch "replace-cell").

(** [a !== b] on attribute values; two endpoint objects are never the
    same object. *)
Definition strict_neq (a b : option val) : bool :=
  match a, b with
  | Some (VEnd _), _ | _, Some (VEnd _) => true
  | _, _ => bool_decide (a ≠ b)
  end.

Definition _syncCell (cellInit : CellInit) (opt : Opt) : Method unit := λ g,
  let cellAttributes := init_cell cellInit in
  match getCell g (cell_id cellAttributes) with
  | Some currentCell =>
      if bool_decide (is_Some (type_attr cellAttributes))
         && strict_neq (type_attr currentCell) (type_attr cellAttributes)
      then _replaceCell currentCell cellInit opt g
      else (cell_set (cell_id currentCell) (attributes cellAttributes) g, Ok tt)
  | None => addCell (ArgCell cellInit) g
  end.

(** The options of [syncCells]: [remove], and the rest ([setOpt]).  The
    re-sorting of the layers that changed, which the layer controller does
    at the end, does not touch the collection or the index and is left
    out. *)
Record SyncOpt := mkSyncOpt {
  sync_remove : bool;
  sync_rest : Opt
}.

Definition syncCells (cellInits : list CellInit) (opt : SyncOpt) : Method unit :=
  λ g,
  let setOpt := sync_rest opt in
  let currentCells := getCells g in
  let newCellsMap : gset string :=
    list_to_set (cell_id ∘ init_cell <$> cellInits) in
  (mdo (startBatch "sync-cells") ;;;
   forEachM (λ cellInit, _syncCell cellInit setOpt) cellInits ;;;
   (if sync_remove opt then
      forEachM (λ cell : Cell,
          if decide (cell_id cell ∈ newCellsMap) then mpure tt
          else cell_remove (cell_id cell) setOpt)
        currentCells
    else mpure tt) ;;;
   mdo (stopBatch "sync-cells")) g.

(* ================================================================== *)
(** ** Breadth-first and depth-first search *)
(* ================================================================== *)

Section search.
(** The callback.  It may keep a state of its own (of type [St]); it is
    given the cell and its distance, and [false] stands for the value
    [false] returned, [true] for any other value.  It does not change
    the graph. *)
Context {St : Type} (iteratee : St → Cell → nat → St * bool).
Context (g : Graph) (opt : QueryOpt).

(** The calls made to the callback, in order: cell, distance, and
    whether the value returned was other than [false]. *)
Definition Calls : Type := list (Cell * nat * bool).

(** The variables of the loop.  [visited] and [distance] are plain
    objects keyed by the ids of cells: a set and a map, as they are under
    [plain_key]s. *)
Record Search := mkSearch {
  queue : list Cell;
  visited : gset string;
  distance : gmap string nat;
  acc : St;
  calls : Calls
}.

(** the [for] loop over the neighbors: [distance[neighbor.id] =
    distance[next.id] + 1], read again at every turn *)
Definition set_distances (next : Cell) (neighbors : list Cell)
    (distance : gmap string nat) : gmap string nat :=
  foldl (λ dm neighbor,
           <[cell_id neighbor := S (default 0 (dm !! cell_id next))]> dm)
        distance neighbors.

(** One loop for both searches.  [push rest neighbors] is the queue
    after the neighbors went in.  The first cell of [queue] is the one the
    source takes next: for [bfs] the array is kept as it is ([shift] takes
    its first element, [push] appends); for [dfs] the array is kept end
    first ([pop] takes its last element, and the [splice]s at [lastIndex]
    leave the neighbors at the end, the first neighbor last). *)
Fixpoint search_loop (push : list Cell → list Cell → list Cell)
    (fuel : nat) (s : Search) : result (St * Calls) :=
  match fuel with
  | 0 => Throw OutOfFuel
  | S fuel' =>
      match queue s with
      | [] => Ok (acc s, calls s)
      | next :: rest =>
          if decide (cell_id next ∈ visited s) then
            search_loop push fuel'
              (mkSearch rest (visited s) (distance s) (acc s) (calls s))
          else
            let visited' := {[cell_id next]} ∪ visited s in
            let d := default 0 (distance s !! cell_id next) in
            let '(acc', continue) := iteratee (acc s) next d in
            let calls' := calls s ++ [(next, d, continue)] in
            if continue then
              match getNeighbors g next opt with
              | Throw e => Throw e
              | Ok neighbors =>
                  search_loop push fuel'
                    (mkSearch (push rest neighbors) visited'
                              (set_distances next neighbors (distance s))
                              acc' calls')
              end
            else
              search_loop push fuel'
                (mkSearch rest visited' (distance s) acc' calls')
      end
  end.

(** the number of neighbors a cell has to offer *)
Definition fan_out (c : Cell) : nat :=
  match getNeighbors g c opt with
  | Ok neighbors => length neighbors
  | Throw _ => 0
  end.

(** a bound on the turns of the loop: every cell of the graph, and the
    start, is expanded at most once and each queued cell takes one turn *)
Definition search_fuel (element : Cell) : nat :=
  S (S (foldr (λ c n, S (fan_out c) + n) 0 (element :: cellCollection g))).

Definition search_start (element : Cell) (a : St) : Search :=
  mkSearch [element] ∅ {[cell_id element := 0]} a [].

Definition bfs (element : Cell) (a : St) : result (St * Calls) :=
  search_loop (λ rest neighbors, rest ++ neighbors)
              (search_fuel element) (search_start element a).

Definition dfs (element : Cell) (a : St) : result (St * Calls) :=
  search_loop (λ rest neighbors, neighbors ++ rest)
              (search_fuel element) (search_start element a).
End search.

(* ================================================================== *)
(** ** Notions used to state the properties *)
(* ================================================================== *)

(** the four index structures *)
Definition index_of (g : Graph) :=
  (_out g, _in g, _nodes g, _edges g).

(** [collection_add] for a cell whose id is new *)
Definition add_new (c : Cell) (g : Graph) : Graph :=
  _restructureOnAdd c (set_cells (λ l, l ++ [c]) g).

(** *** The index against the collection

    [index_matches P g]: the index of [g] lists the cells of the
    collection, the cells whose id is in [P] left aside, and nothing
    else.  [P] holds the cells whose removal is under way: they are out
    of the index already and still in the collection. *)
Record index_matches (P : gset string) (g : Graph) : Prop := {
  im_ids : NoDup (cell_id <$> cellCollection g);
  im_out : ∀ s l,
    l ∈ getOutboundEdges g s
    ↔ (l ∉ P) ∧ (∃ c, getCell g l = Some c ∧ isLink c = true
                    ∧ truthy_id (source c) = Some s);
  im_in : ∀ t l,
    l ∈ getInboundEdges g t
    ↔ (l ∉ P) ∧ (∃ c, getCell g l = Some c ∧ isLink c = true
                    ∧ truthy_id (target c) = Some t);
  im_nodes : ∀ id,
    id ∈ _nodes g
    ↔ (id ∉ P) ∧ (∃ c, getCell g id = Some c ∧ isLink c = false);
  im_edges : ∀ id,
    id ∈ _edges g
    ↔ (id ∉ P) ∧ (∃ c, getCell g id = Some c ∧ isLink c = true);
  im_out_nodup : ∀ s, NoDup (getOutboundEdges g s);
  im_in_nodup : ∀ t, NoDup (getInboundEdges g t)
}.

Definition index_ok (g : Graph) : Prop := index_matches ∅ g.

(** *** Cells that bring plain keys

    the ids that a cell brings: its own, the ids at its two ends and the
    id of its parent *)
Definition plain_end (e : Endpoint) : bool :=
  match ep_id e with
  | Some id => negb (proto_name id)
  | None => true
  end.

Definition plain_cell (c : Cell) : bool :=
  negb (proto_name (cell_id c)) && plain_end (source c)
  && plain_end (target c)
  && match parent_of c with
     | Some p => negb (proto_name p)
     | None => true
     end.

(** *** Operations on the cell collection *)
Inductive Op :=
| OpAdd (cell : Cell)                    (* [collection.add(cell)] *)
| OpRemove (id : string) (opt : Opt)     (* [cell.remove(opt)] *)
| OpReset (cells : list Cell)            (* [collection.reset(cells)] *)
| OpSource (id : string) (e : Endpoint)  (* [link.set('source', e)] *)
| OpTarget (id : string) (e : Endpoint). (* [link.set('target', e)] *)

Definition run_op (op : Op) : Method unit :=
  match op with
  | OpAdd cell => mdo (collection_add cell)
  | OpRemove id opt => cell_remove id opt
  | OpReset cells => mdo (collection_reset cells)
  | OpSource id e => mdo (cell_set id {[ "source" := VEnd e ]})
  | OpTarget id e => mdo (cell_set id {[ "target" := VEnd e ]})
  end.

(** The operations that the index is followed through.  An endpoint is
    changed on a link that is in the graph.  The ids that an operation
    brings in, of a cell and of the ends of a link, are no names of members
    of [Object.prototype]: such an id is no key of the plain objects
    [_out], [_in], [_nodes] and [_edges], nor of the table in which the
    collection looks up a cell by its id. *)
Definition applies (op : Op) (g : Graph) : Prop :=
  match op with
  | OpAdd cell => plain_cell cell = true
  | OpRemove _ _ => True
  | OpReset cells => forallb plain_cell cells = true
  | OpSource id e | OpTarget id e =>
      plain_end e = true
      ∧ ∃ link, getCell g id = Some link ∧ isLink link = true
  end.

(** The graphs that sequences of operations lead to from the graph that
    [initialize] builds. *)
Inductive reachable : Graph → Prop :=
| reachable_initialize : reachable initialize
| reachable_op g op g' :
    reachable g → applies op g → run_op op g = (g', Ok tt) → reachable g'.

(** every cell of the collection is a [plain_cell] *)
Definition plain_graph (g : Graph) : bool :=
  forallb plain_cell (cellCollection g).

(** every id that the index holds, as a key of [_out] or [_in], inside a
    bucket, in [_nodes] or in [_edges] *)
Definition index_mentions (g : Graph) (id : string) : Prop :=
  id ∈ dom (_out g) ∨ id ∈ dom (_in g)
  ∨ (∃ k, id ∈ getOutboundEdges g k) ∨ (∃ k, id ∈ getInboundEdges g k)
  ∨ id ∈ _nodes g ∨ id ∈ _edges g.

(** the cell that [cell_set] stores *)
Definition patched (old : Cell) (patch : gmap string val) : Cell :=
  mkCell (cell_id old) (cell_class old) (patch ∪ attributes old).

(** the ids of the links that [getConnectedLinks] lists when neither
    [indirect] nor [deep] is asked for: the outbound bucket, then what the
    inbound bucket adds to it *)
Definition direct_edges (g : Graph) (opt : QueryOpt) (id : string)
    : list string :=
  let outs := if (directions opt).2 then getOutboundEdges g id else [] in
  outs ++ (if (directions opt).1
           then filter (λ e, e ∉ outs) (getInboundEdges g id) else []).

(** the number of cells of the collection that no removal under way
    has taken out of the index yet *)
Definition live_count (P : gset string) (g : Graph) : nat :=
  length (filter (λ i, i ∉ P) (cell_id <$> cellCollection g)).

(** the links attached to a cell: what [getConnectedLinks] returns when it
    is called without options on a graph whose index matches *)
Definition attached_links (g : Graph) (id : string) : list Cell :=
  omap (getCell g) (direct_edges g no_opt id).

(** *** Notions for the removal of a cell with the cells embedded in it *)

(** the ids of the cells that have a parent cell *)
Definition with_parent_ids (g : Graph) : gset string :=
  list_to_set
    (cell_id <$> filter (λ c, is_Some (getParentCell g c)) (cellCollection g)).

(** What is left to do when the removal of the cell [id] starts: every
    cell that is still in the index has a removal and a turn as an embedded
    cell ahead of it at most, every parent cell can be taken away once
    more, and a cell that has a parent cell loses it first. *)
Definition remove_weight (P : gset string) (g : Graph) (id : string) : nat :=
  2 * (live_count P g + size (with_parent_ids g))
  - (if decide (id ∈ with_parent_ids g) then 1 else 0).

(** the cells whose removal is under way have no parent cell *)
Definition pending_top (P : gset string) (g : Graph) : Prop :=
  ∀ c, c ∈ cellCollection g → cell_id c ∈ P → getParentCell g c = None.

(** [g'] comes after [g] in a removal: cells were taken out, some lost
    their parent, and, with [keep_ends], no end of a link was changed *)
Definition follows (keep_ends : bool) (g' g : Graph) : Prop :=
  sublist (cell_id <$> cellCollection g') (cell_id <$> cellCollection g)
  ∧ ∀ c', c' ∈ cellCollection g' →
      ∃ c, c ∈ cellCollection g ∧ cell_id c = cell_id c'
           ∧ cell_class c = cell_class c'
           ∧ (truthy_parent c' = None ∨ truthy_parent c' = truthy_parent c)
           ∧ (keep_ends = true
              → source c' = source c ∧ target c' = target c).

(** no link outside [P] has lost the cell at one of its ends on the way
    from [g] to [g'] *)
Definition ends_stay (P : gset string) (g g' : Graph) : Prop :=
  ∀ l x, l ∈ cellCollection g' → isLink l = true → cell_id l ∉ P →
         truthy_id (source l) = Some x ∨ truthy_id (target l) = Some x →
         x ∈ cell_id <$> cellCollection g →
         x ∈ cell_id <$> cellCollection g'.

(** *** Cells used in the examples *)

(** an element *)
Definition element_cell (id : string) : Cell :=
  mkCell id Element {[ "type" := VStr "standard.Rectangle" ]}.

(** a link from the cell [s] to the cell [t] *)
Definition link_cell (id s t : string) : Cell :=
  mkCell id Link
    (<[ "type" := VStr "standard.Link" ]>
       (<[ "source" := VEnd (mkEndpoint (Some s) None None) ]>
          {[ "target" := VEnd (mkEndpoint (Some t) None None) ]})).

(** the graph a method leaves *)
Definition after (m : Method unit) (g : Graph) : Graph := (m g).1.

(** "The index never references a cell id that is not in the cell
    collection." *)
Definition index_names_present (g : Graph) : Prop :=
  ∀ id, index_mentions g id → is_Some (getCell g id).

(** a link whose ends name a cell that was never added *)
Definition graph_with_dangling_link : Graph :=
  after (run_op (OpAdd (link_cell "l" "ghost" "ghost"))) initialize.

(** an element with a loop, removed with [disconnectLinks] *)
Definition graph_after_disconnect : Graph :=
  after (run_op (OpRemove "a" (mkOpt false true)))
    (after (run_op (OpAdd (link_cell "l" "a" "a")))
       (after (run_op (OpAdd (element_cell "a"))) initialize)).

(** what the reducer of [getNeighbors] keeps true of [res] *)
Definition res_ok (g : Graph) (res : list (string * Cell)) : Prop :=
  NoDup res.*1 ∧ ∀ k c, (k, c) ∈ res → getCell g k = Some c.

(** two elements, a loop on the first and a link from the first to the
    second *)
Definition graph_with_loop : Graph :=
  after (run_op (OpAdd (link_cell "m" "a" "b")))
    (after (run_op (OpAdd (link_cell "l" "a" "a")))
       (after (run_op (OpAdd (element_cell "b")))
          (after (run_op (OpAdd (element_cell "a"))) initialize))).

(** an element and a link from it to a cell that was never added *)
Definition graph_with_open_link : Graph :=
  after (run_op (OpAdd (link_cell "l" "a" "ghost")))
    (after (run_op (OpAdd (element_cell "a"))) initialize).

(** an element, a loop on it, and a link from it to a cell that was never
    added *)
Definition graph_with_loop_and_open_link : Graph :=
  after (run_op (OpAdd (link_cell "m" "a" "ghost")))
    (after (run_op (OpAdd (link_cell "l" "a" "a")))
       (after (run_op (OpAdd (element_cell "a"))) initialize)).

(** three elements in a row: a link from [a] to [b] and a link from [b]
    to [d] *)
Definition graph_in_a_row : Graph :=
  after (run_op (OpAdd (link_cell "n" "b" "d")))
    (after (run_op (OpAdd (link_cell "m" "a" "b")))
       (after (run_op (OpAdd (element_cell "d")))
          (after (run_op (OpAdd (element_cell "b")))
             (after (run_op (OpAdd (element_cell "a"))) initialize)))).

(** a link from the cell [s] to the cell [t], embedded in the cell
    [parent] *)
Definition embedded_link_cell (id s t parent : string) : Cell :=
  mkCell id Link
    (<[ "parent" := VStr parent ]> (attributes (link_cell id s t))).

(** an element and a loop on it that is embedded in it *)
Definition graph_with_embedded_loop : Graph :=
  after (run_op (OpAdd (embedded_link_cell "l" "a" "a" "a")))
    (after (run_op (OpAdd (element_cell "a"))) initialize).

(** the cell [A = {type: T1, x: 1, y: 2}] and the replacement
    [{id: A, type: T2, y: 9}] *)
Definition cell_A : Cell :=
  mkCell "A" Element
    (<[ "type" := VStr "T1" ]> (<[ "x" := VNum 1 ]> {[ "y" := VNum 2 ]})).

Definition replacement_A : CellInit :=
  Json (mkCell "A" Element
          (<[ "type" := VStr "T2" ]> {[ "y" := VNum 9 ]})).

(** a cell [{type: T, v: v}] *)
Definition valued_cell (id : string) (v : Z) : Cell :=
  mkCell id Element (<[ "type" := VStr "T" ]> {[ "v" := VNum v ]}).

(** the graph that holds [A] and [B] *)
Definition graph_A_B : Graph :=
  after (resetCells [Json (valued_cell "A" 0); Json (valued_cell "B" 2)])
        initialize.

(** the graph that holds [A] and [B], with [A] embedded in [B] *)
Definition graph_A_in_B : Graph :=
  after (resetCells
           [Json (mkCell "A" Element
                    (<[ "parent" := VStr "B" ]> (attributes (valued_cell "A" 0))));
            Json (valued_cell "B" 2)])
        initialize.

(** *** Notions for the searches *)

(** the ids of the cells the callback was called on *)
Definition called_ids (calls : Calls) : list string :=
  (λ call : Cell * nat * bool, cell_id call.1.1) <$> calls.

(** The cells a search gets to: the start, and the neighbors of a cell it
    got to on which the callback returned something else than [false]. *)
Inductive reached (g : Graph) (opt : QueryOpt) (element : Cell) (calls : Calls)
    : Cell → Prop :=
| reached_start : reached g opt element calls element
| reached_neighbor c d neighbors n :
    reached g opt element calls c →
    (c, d, true) ∈ calls →
    getNeighbors g c opt = Ok neighbors →
    n ∈ neighbors →
    reached g opt element calls n.

(** what is left to do in a search: the cells in the queue, and for each
    cell of [cells] that was not visited one turn and its neighbors *)
Definition search_weight (g : Graph) (opt : QueryOpt) (cells : list Cell)
    (visited : gset string) : nat :=
  foldr (λ c n, if decide (cell_id c ∈ visited) then n
                else S (fan_out g opt c) + n) 0 cells.

(** The callback run over the calls of a list, in order, from the state
    [a]: the state it ends with, as long as every flag of the list is what
    the callback returned at that call. *)
Fixpoint run_calls {St : Type} (iteratee : St → Cell → nat → St * bool)
    (a : St) (calls : Calls) : option St :=
  match calls with
  | [] => Some a
  | (c, d, b) :: rest =>
      let '(a', continue) := iteratee a c d in
      if bool_decide (continue = b) then run_calls iteratee a' rest else None
  end.

(** What a search has done when it ends: the callback was called once per
    id; every cell it was called on is one the search gets to; and every
    cell the search gets to had the callback called on its id. *)
Definition search_visits (g : Graph) (opt : QueryOpt) (element : Cell)
    (calls : Calls) : Prop :=
  NoDup (called_ids calls)
  ∧ (∀ c d b, (c, d, b) ∈ calls → reached g opt element calls c)
  ∧ (∀ c, reached g opt element calls c → cell_id c ∈ called_ids calls).


(* ================================================================== *)
(** ** More methods of the graph *)
(* ================================================================== *)

(** [getElements()] and [getLinks()] *)
Definition getElements (g : Graph) : list Cell :=
  filter (λ c, isElement c = true) (getCells g).

Definition getLinks (g : Graph) : list Cell :=
  filter (λ c, isLink c = true) (getCells g).

(** [util.isEmpty] of a bucket *)
Definition isEmpty (bucket : list string) : bool :=
  match bucket with [] => true | _ => false end.

(** [isSource(element)]: [!this._in[element.id] ||
    util.isEmpty(this._in[element.id])] *)
Definition isSource (g : Graph) (element : Cell) : bool :=
  match _in g !! cell_id element with
  | None => true
  | Some bucket => isEmpty bucket
  end.

(** [isSink(element)] *)
Definition isSink (g : Graph) (element : Cell) : bool :=
  match _out g !! cell_id element with
  | None => true
  | Some bucket => isEmpty bucket
  end.

(** [isNeighbor(elementA, elementB, opt)].  The [return false] of the
    callback does not end the [forEach]: every link is looked at. *)
Definition isNeighbor (g : Graph) (elementA elementB : Cell) (opt : QueryOpt)
    : result bool :=
  let '(inb, outb) := directions opt in
  links ← getConnectedLinks g opt elementA;
  foldM (λ (found : bool) (link : option Cell),
           match link with
           | None => Throw (TypeError "link is undefined")
           | Some l =>
               Ok (found
                   || (inb && bool_decide (ep_id (source l)
                                           = Some (cell_id elementB)))
                   || (outb && bool_decide (ep_id (target l)
                                            = Some (cell_id elementB))))
           end)
        false links.

(** [search(element, iteratee, opt)]; [breadthFirst] is [opt.breadthFirst] *)
Definition search {St : Type} (iteratee : St → Cell → nat → St * bool)
    (g : Graph) (opt : QueryOpt) (breadthFirst : bool) (element : Cell) (a : St)
    : result (St * Calls) :=
  if breadthFirst then bfs iteratee g opt element a
  else dfs iteratee g opt element a.

(** [util.assign({}, opt, { outbound: true })] and the same with
    [inbound] *)
Definition with_outbound (opt : QueryOpt) : QueryOpt :=
  mkQueryOpt (inbound opt) (Some true) (indirect opt) (deep opt)
             (includeEnclosed opt).

Definition with_inbound (opt : QueryOpt) : QueryOpt :=
  mkQueryOpt (Some true) (outbound opt) (indirect opt) (deep opt)
             (includeEnclosed opt).

(** The callback of [getSuccessors] and [getPredecessors]: [if (el !==
    element) res.push(el)].  It returns nothing, so the search goes on.
    A cell is the start itself when it has its id. *)
Definition push_other (element : Cell) (res : list Cell) (el : Cell) (d : nat)
    : list Cell * bool :=
  (if bool_decide (cell_id el ≠ cell_id element) then res ++ [el] else res,
   true).

Definition getSuccessors (g : Graph) (element : Cell) (opt : QueryOpt)
    (breadthFirst : bool) : result (list Cell) :=
  r ← search (push_other element) g (with_outbound opt) breadthFirst element [];
  Ok r.1.

Definition getPredecessors (g : Graph) (element : Cell) (opt : QueryOpt)
    (breadthFirst : bool) : result (list Cell) :=
  r ← search (push_other element) g (with_inbound opt) breadthFirst element [];
  Ok r.1.

(** The callback of [isSuccessor] and [isPredecessor]: [if (element ===
    elementB && element !== elementA) { found = true; return false; }] *)
Definition find_other (elementA elementB : Cell) (found : bool) (el : Cell)
    (d : nat) : bool * bool :=
  if bool_decide (cell_id el = cell_id elementB)
     && bool_decide (cell_id el ≠ cell_id elementA)
  then (true, false)
  else (found, true).

(** [isSuccessor(elementA, elementB)]: the options are [{ outbound: true
    }], so the search is depth-first *)
Definition isSuccessor (g : Graph) (elementA elementB : Cell) : result bool :=
  r ← search (find_other elementA elementB) g
         (mkQueryOpt None (Some true) false false false) false elementA false;
  Ok r.1.

Definition isPredecessor (g : Graph) (elementA elementB : Cell) : result bool :=
  r ← search (find_other elementA elementB) g
         (mkQueryOpt (Some true) None false false false) false elementA false;
  Ok r.1.

(** [Graph.validations.linkPinning]: [source.id && target.id], as a
    condition *)
Definition linkPinning (link : Cell) : bool :=
  bool_decide (is_Some (truthy_id (source link)))
  && bool_decide (is_Some (truthy_id (target link))).

(** [!_end.port || _end.port === end.port] *)
Definition port_allows (p q : option string) : bool :=
  match p with
  | None => true
  | Some s => bool_decide (s = "") || bool_decide (q = Some s)
  end.

(** [Graph.validations.multiLinks] *)
Definition multiLinks (g : Graph) (link : Cell) : result bool :=
  match truthy_id (source link), truthy_id (target link) with
  | Some _, Some _ =>
      match getSourceCell g link with
      | Some sourceModel =>
          connectedLinks ← getConnectedLinks g
            (mkQueryOpt None (Some true) false false false) sourceModel;
          sameLinks ← foldM (λ (same : list Cell) (l : option Cell),
              match l with
              | None => Throw (TypeError "link is undefined")
              | Some _link =>
                  if bool_decide (ep_id (source _link) = ep_id (source link))
                     && port_allows (ep_port (source _link))
                                    (ep_port (source link))
                     && bool_decide (ep_id (target _link)
                                     = ep_id (target link))
                     && port_allows (ep_port (target _link))
                                    (ep_port (target link))
                  then Ok (same ++ [_link]) else Ok same
              end) [] connectedLinks;
          Ok (negb (bool_decide (1 < length sameLinks)%nat))
      | None => Ok true
      end
  | _, _ => Ok true
  end.

(** [getSubgraph(cells, opt)].  Its four variables: the array
    [subgraph], the ids that are keys of [cellMap], and the arrays
    [elements] and [links]. *)
Record Sub := mkSub {
  sub_cells : list Cell;
  sub_map : gset string;
  sub_elements : list Cell;
  sub_links : list Cell
}.

(** the block under [if (!cellMap[cell.id])], for a given cell and for
    an embedded cell *)
Definition sub_take (cell : Cell) (st : Sub) : Sub :=
  if decide (cell_id cell ∈ sub_map st) then st
  else mkSub (sub_cells st ++ [cell]) ({[cell_id cell]} ∪ sub_map st)
             (if isLink cell then sub_elements st
              else sub_elements st ++ [cell])
             (if isLink cell then sub_links st ++ [cell] else sub_links st).

(** the blocks of the second loop: an end of a link whose id is not a
    key of [cellMap] yet *)
Definition sub_end (g : Graph) (e : Endpoint) (st : Sub) : result Sub :=
  match truthy_id e with
  | Some id =>
      if decide (id ∈ sub_map st) then Ok st
      else
        match getCell g id with
        | None => Throw (TypeError "the cell of the end is undefined")
        | Some el =>
            Ok (mkSub (sub_cells st ++ [el]) ({[cell_id el]} ∪ sub_map st)
                      (sub_elements st ++ [el]) (sub_links st))
        end
  | None => Ok st
  end.

(** [source.id && cellMap[source.id]] *)
Definition sub_has_end (e : Endpoint) (st : Sub) : bool :=
  match truthy_id e with
  | Some id => bool_decide (id ∈ sub_map st)
  | None => false
  end.

(** the body of the inner [forEach] of the third loop *)
Definition sub_link (link : option Cell) (st : Sub) : result Sub :=
  match link with
  | None => Throw (TypeError "link is undefined")
  | Some l =>
      if negb (bool_decide (cell_id l ∈ sub_map st))
         && sub_has_end (source l) st && sub_has_end (target l) st
      then Ok (mkSub (sub_cells st ++ [l]) ({[cell_id l]} ∪ sub_map st)
                     (sub_elements st) (sub_links st))
      else Ok st
  end.

Definition getSubgraph (g : Graph) (cells : list Cell) (opt : QueryOpt)
    : result (list Cell) :=
  let st1 :=
    foldl (λ st cell,
             let st' := sub_take cell st in
             if deep opt
             then foldl (λ st embed, sub_take embed st) st'
                        (getEmbeddedCells_deep g cell)
             else st')
          (mkSub [] ∅ [] []) cells in
  st2 ← foldM (λ st link,
                 st' ← sub_end g (source link) st;
                 sub_end g (target link) st')
              st1 (sub_links st1);
  st3 ← foldM (λ st element,
                 links ← getConnectedLinks g opt element;
                 foldM (λ st link, sub_link link st) st links)
              st2 (sub_elements st2);
  Ok (sub_cells st3).

(** The [while (parentId)] loop of [getCommonAncestor].  It ends when a
    cell without parent is met; a parent that is not in the collection
    makes [this.getCell(parentId).get] throw; parents that go round in a
    circle use the steps up (the source would not end). *)
Fixpoint ancestors_loop (fuel : nat) (g : Graph) (parentId : option string)
    : result (list string) :=
  match fuel with
  | 0 => Throw OutOfFuel
  | S fuel' =>
      match parentId with
      | None => Ok []
      | Some p =>
          match getCell g p with
          | None => Throw (TypeError "the parent is undefined")
          | Some pc =>
              rest ← ancestors_loop fuel' g (truthy_parent pc);
              Ok (p :: rest)
          end
      end
  end.

Definition ancestors (g : Graph) (cell : Cell) : result (list string) :=
  ancestors_loop (S (length (cellCollection g))) g (truthy_parent cell).

(** [sort((a, b) => a.length - b.length)]; the sort of an array is
    stable *)
Fixpoint insert_by_length (a : list string) (l : list (list string))
    : list (list string) :=
  match l with
  | [] => [a]
  | b :: l' =>
      if decide (length a ≤ length b)%nat then a :: b :: l'
      else b :: insert_by_length a l'
  end.

Definition sort_by_length (l : list (list string)) : list (list string) :=
  foldr insert_by_length [] l.

(** [getCommonAncestor(...cells)] *)
Definition getCommonAncestor (g : Graph) (cells : list Cell)
    : result (option Cell) :=
  cellsAncestors ← foldM (λ acc cell, a ← ancestors g cell; Ok (acc ++ [a]))
                         [] cells;
  match sort_by_length cellsAncestors with
  | [] => Ok None
  | shortest :: others =>
      match find (λ ancestor,
                    forallb (λ cellAncestors : list string,
                               bool_decide (ancestor ∈ cellAncestors))
                            others)
                 shortest with
      | Some commonAncestor => Ok (getCell g commonAncestor)
      | None => Ok None
      end
  end.

(** Modelled from the spec: [Cell.prototype.prop] is not part of
    [Graph.mjs].  [link.prop(['source', 'id'], id)] sets the [source] to a
    copy of itself that carries the given id. *)
Definition with_end_id (e : Endpoint) (id : string) : Endpoint :=
  mkEndpoint (Some id) (ep_port e) (ep_xy e).

(** [link.getSourceCell() === sourceCell]: the cell found is the cell of
    that id *)
Definition is_cell (found : option Cell) (c : Cell) : bool :=
  match found with
  | Some c' => bool_decide (cell_id c' = cell_id c)
  | None => false
  end.

(** the body of the [forEach] in [transferCellConnectedLinks]; the link
    is read as it is when its turn comes *)
Definition transfer_link (sourceCell targetCell l : Cell) (g : Graph) : Graph :=
  let g1 :=
    match getCell g (cell_id l) with
    | Some live =>
        if is_cell (getSourceCell g live) sourceCell then
          cell_set (cell_id l)
            {[ "source" := VEnd (with_end_id (source live) (cell_id targetCell)) ]}
            g
        else g
    | None => g
    end in
  match getCell g1 (cell_id l) with
  | Some live =>
      if is_cell (getTargetCell g1 live) sourceCell then
        cell_set (cell_id l)
          {[ "target" := VEnd (with_end_id (target live) (cell_id targetCell)) ]}
          g1
      else g1
  | None => g1
  end.

(** [transferCellConnectedLinks(sourceCell, targetCell, opt)] *)
Definition transferCellConnectedLinks (sourceCell targetCell : Cell)
    (opt : QueryOpt) : Method unit :=
  mdo (startBatch "transfer-connected-links") ;;;
  (λ g, match getConnectedLinks g opt sourceCell with
        | Throw e => (g, Throw e)
        | Ok connectedLinks =>
            forEachM (λ link : option Cell,
                match link with
                | None => mthrow (TypeError "link is undefined")
                | Some l => mdo (transfer_link sourceCell targetCell l)
                end)
              connectedLinks g
        end) ;;;
  mdo (stopBatch "transfer-connected-links").

(** a link after its ends on the cell [s] were moved to the cell [t] *)
Definition transferred (s t : string) (c : Cell) : Cell :=
  let c1 := if bool_decide (truthy_id (source c) = Some s)
            then patched c {[ "source" := VEnd (with_end_id (source c) t) ]}
            else c in
  if bool_decide (truthy_id (target c1) = Some s)
  then patched c1 {[ "target" := VEnd (with_end_id (target c1) t) ]}
  else c1.

(** The cells that a chain of neighbors leads to from [element]: the cell
    itself, and the neighbors of a cell that such a chain leads to. *)
Inductive neighbor_chain (g : Graph) (opt : QueryOpt) (element : Cell)
    : Cell → Prop :=
| chain_start : neighbor_chain g opt element element
| chain_step c neighbors n :
    neighbor_chain g opt element c →
    getNeighbors g c opt = Ok neighbors →
    n ∈ neighbors →
    neighbor_chain g opt element n.

(** *** Notions for the [deep] option *)

(** the ids of the embedded elements, as [getConnectedLinks] collects
    them in its first round *)
Definition embedded_element_ids (g : Graph) (model : Cell) : gset string :=
  list_to_set (cell_id <$> filter (λ c, isElement c = true)
                                  (getEmbeddedCells_deep g model)).

(** the test under which the [deep] part skips a link: [includeEnclosed]
    is not set and both ends are embedded elements *)
Definition enclosed (opt : QueryOpt) (embeddedElements : gset string)
    (l : Cell) : bool :=
  negb (includeEnclosed opt)
  && match truthy_id (source l) with
     | Some s => bool_decide (s ∈ embeddedElements)
     | None => false
     end
  && match truthy_id (target l) with
     | Some t => bool_decide (t ∈ embeddedElements)
     | None => false
     end.

(** the end of a link that a direction looks at *)
Definition end_of (d : Direction) (l : Cell) : option string :=
  match d with
  | Outbound => truthy_id (source l)
  | Inbound => truthy_id (target l)
  end.

(** an element embedded in the cell [parent] *)
Definition embedded_cell (id parent : string) : Cell :=
  mkCell id Element
    (<[ "type" := VStr "standard.Rectangle" ]> {[ "parent" := VStr parent ]}).

(** an element [p], two elements [j] and [k] embedded in it, a link from
    [j] to [k] and a link from [k] to an element [q] outside *)
Definition graph_with_embedded : Graph :=
  after (run_op (OpAdd (link_cell "out" "k" "q")))
    (after (run_op (OpAdd (link_cell "in" "j" "k")))
       (after (run_op (OpAdd (element_cell "q")))
          (after (run_op (OpAdd (embedded_cell "k" "p")))
             (after (run_op (OpAdd (embedded_cell "j" "p")))
                (after (run_op (OpAdd (element_cell "p"))) initialize))))).

(** an element [p], an element [c] embedded in it, and a link from [p]
    to [c] *)
Definition graph_parent_to_child : Graph :=
  after (run_op (OpAdd (link_cell "x" "p" "c")))
    (after (run_op (OpAdd (embedded_cell "c" "p")))
       (after (run_op (OpAdd (element_cell "p"))) initialize)).

(** *** Notions for [getSubgraph] *)

(** the keys of [cellMap] are the ids of the cells of [subgraph], each
    there once *)
Definition sub_ok (st : Sub) : Prop :=
  sub_map st = list_to_set (cell_id <$> sub_cells st)
  ∧ NoDup (cell_id <$> sub_cells st).

(** the ends of a link that carry an id have it among the keys of
    [cellMap] *)
Definition ends_in (l : Cell) (st : Sub) : Prop :=
  ∀ s, truthy_id (source l) = Some s ∨ truthy_id (target l) = Some s →
       s ∈ sub_map st.

(** an element [r], an element [p] embedded in it, and two elements [j]
    and [k] embedded in [p] *)
Definition graph_with_ancestors : Graph :=
  after (run_op (OpAdd (embedded_cell "k" "p")))
    (after (run_op (OpAdd (embedded_cell "j" "p")))
       (after (run_op (OpAdd (embedded_cell "p" "r")))
          (after (run_op (OpAdd (element_cell "r"))) initialize))).

(* ================================================================== *)
(** * Properties *)
(* ================================================================== *)

(** ** Batches *)

Lemma batch_positive_count g n :
  batch_positive g n = true ↔ (0 < batch_count g n)%Z.
Proof.
  unfold batch_positive, batch_count.
  destruct (batch_value g n) as [| |k| |]; simpl;
    try (split; [discriminate | lia]).
  apply bool_decide_eq_true.
Qed.

Lemma batch_count_batches_of g g' n :
  batches_of g' = batches_of g → batch_count g' n = batch_count g n.
Proof.
  unfold batches_of, batch_count, batch_value. intros H.
  injection H as -> ->. done.
Qed.

(** a name that [Object.prototype] does not define reads its own number,
    or [undefined] *)
Lemma batch_value_plain g n :
  plain_key n →
  batch_value g n = match _batches g !! n with
                    | Some k => BNumber k
                    | None => BUndefined
                    end.
Proof. unfold plain_key, batch_value. by intros ->. Qed.

Lemma plain_key_not_proto n : plain_key n → n ≠ "__proto__".
Proof. by intros H ->. Qed.

(** what a write of a number under the name [n] does to the reading of
    the name [m] *)
Lemma batch_value_write n k g m :
  n ≠ "__proto__" →
  batch_value (batch_write n (BNumber k) g) m
  = if decide (n = m) then BNumber k else batch_value g m.
Proof.
  intros Hn. unfold batch_value, batch_write, batches_write; simpl.
  rewrite (bool_decide_eq_false_2 (n = "__proto__")) by done. simpl.
  destruct (decide (n = m)) as [->|Hne].
  - rewrite lookup_delete_eq, lookup_insert_eq.
    rewrite (bool_decide_eq_false_2 (m = "__proto__")) by done.
    by destruct (proto_name m).
  - by rewrite lookup_delete_ne, lookup_insert_ne.
Qed.

(** a write under the name [n] leaves the other names as they are *)
Lemma batch_value_write_ne n v g m :
  n ≠ m → batch_value (batch_write n v g) m = batch_value g m.
Proof.
  intros Hne. unfold batch_value, batch_write, batches_write; simpl.
  destruct (bool_decide (n = "__proto__")); [done|].
  destruct v; try done; simpl;
    by rewrite lookup_delete_ne, lookup_insert_ne.
Qed.

(** a batch touches neither the cells nor the index *)
Lemma batch_write_frame n v g :
  cellCollection (batch_write n v g) = cellCollection g
  ∧ index_of (batch_write n v g) = index_of g
  ∧ triggered (batch_write n v g) = triggered g.
Proof. done. Qed.

Lemma startBatch_frame n g :
  cellCollection (startBatch n g) = cellCollection g
  ∧ index_of (startBatch n g) = index_of g.
Proof.
  unfold startBatch.
  destruct (batch_write_frame n (plus_one (batch_value g n)) g)
    as (Hc & Hi & _).
  split; [exact Hc | exact Hi].
Qed.

Lemma stopBatch_frame n g :
  cellCollection (stopBatch n g) = cellCollection g
  ∧ index_of (stopBatch n g) = index_of g.
Proof.
  unfold stopBatch.
  destruct (batch_write_frame n (minus_one (batch_value g n)) g)
    as (Hc & Hi & _).
  split; [exact Hc | exact Hi].
Qed.

Lemma startBatch_cells n g : cellCollection (startBatch n g) = cellCollection g.
Proof. done. Qed.

Lemma startBatch_out n g : _out (startBatch n g) = _out g.
Proof. done. Qed.

Lemma startBatch_in n g : _in (startBatch n g) = _in g.
Proof. done. Qed.

Lemma stopBatch_cells n g : cellCollection (stopBatch n g) = cellCollection g.
Proof. done. Qed.

Lemma stopBatch_out n g : _out (stopBatch n g) = _out g.
Proof. done. Qed.

Lemma stopBatch_in n g : _in (stopBatch n g) = _in g.
Proof. done. Qed.

Lemma batch_value_trigger e g m :
  batch_value (trigger e g) m = batch_value g m.
Proof. done. Qed.

Lemma batch_count_start g n m :
  plain_key n →
  batch_count (startBatch n g) m
  = if decide (n = m) then (batch_count g m + 1)%Z else batch_count g m.
Proof.
  intros Hn. unfold batch_count, startBatch.
  rewrite batch_value_trigger.
  destruct (decide (n = m)) as [->|Hne].
  - rewrite (batch_value_plain g m Hn).
    destruct (_batches g !! m) as [k|]; simpl;
      rewrite batch_value_write by (by apply plain_key_not_proto);
      by rewrite decide_True.
  - by rewrite batch_value_write_ne.
Qed.

Lemma batch_count_stop g n m :
  plain_key n →
  batch_count (stopBatch n g) m
  = if decide (n = m) then (batch_count g m - 1)%Z else batch_count g m.
Proof.
  intros Hn. unfold batch_count, stopBatch.
  rewrite batch_value_trigger.
  destruct (decide (n = m)) as [->|Hne].
  - rewrite (batch_value_plain g m Hn).
    destruct (_batches g !! m) as [k|]; simpl;
      rewrite batch_value_write by (by apply plain_key_not_proto);
      by rewrite decide_True.
  - by rewrite batch_value_write_ne.
Qed.

(** whatever the name started or stopped, the counters of the other names
    stay *)
Lemma batch_count_other g n m :
  n ≠ m →
  batch_count (startBatch n g) m = batch_count g m
  ∧ batch_count (stopBatch n g) m = batch_count g m.
Proof.
  intros Hne. unfold batch_count, startBatch, stopBatch.
  by rewrite !batch_value_trigger, !batch_value_write_ne.
Qed.

Lemma hasActiveBatch_names g l :
  existsb (batch_positive g) l = true
  ↔ ∃ n, n ∈ l ∧ (0 < batch_count g n)%Z.
Proof.
  rewrite existsb_exists. split.
  - intros (n & Hin & Hp). exists n. split.
    + by apply list_elem_of_In.
    + by apply batch_positive_count.
  - intros (n & Hin & Hp). exists n. split.
    + by apply list_elem_of_In.
    + by apply batch_positive_count.
Qed.

(** a name with a positive counter is an own property *)
Lemma batch_count_positive_own g n :
  (0 < batch_count g n)%Z → n ∈ batch_names g.
Proof.
  unfold batch_count, batch_value, batch_names. intros Hp.
  apply elem_of_app. left.
  assert (∃ k, _batches g !! n = Some k) as (k & Hk).
  { destruct (_batches g !! n) as [k|]; [by eauto|].
    destruct (proto_name n); [|simpl in Hp; lia].
    destruct (bool_decide (n = "__proto__")); [simpl in Hp; lia|].
    destruct (_odd_batches g !! n) as [[]|]; simpl in Hp; lia. }
  apply list_elem_of_fmap. exists (n, k). split; [done|].
  by apply elem_of_map_to_list.
Qed.

(** C7, as it was claimed for every name: [constructor] names a member
    of [Object.prototype], so the first [startBatch] reads a function and
    stores a string, and [hasActiveBatch] compares that string with [0].
    After two [startBatch] the name does not read active, and no counter
    was incremented. *)
Lemma batch_of_inherited_name :
  batch_value (startBatch "constructor" initialize) "constructor" = BString
  ∧ hasActiveBatch (OneName "constructor")
      (startBatch "constructor" (startBatch "constructor" initialize))
    = false
  ∧ hasActiveBatch NoName
      (startBatch "constructor" (startBatch "constructor" initialize))
    = false.
Proof. by vm_compute. Qed.

(** C7.  For a name that [Object.prototype] does not define, [startBatch]
    adds one to the counter of the name and [stopBatch] takes one off;
    whatever the name, the counters of the other names stay as they are; a
    name that [Object.prototype] does not define, started twice from rest,
    reads active until it has been stopped twice; [hasActiveBatch] without
    a name is true exactly when some counter is positive, and with names
    exactly when the counter of one of them is. *)
Theorem batch_reentrancy_and_activity (g : Graph) (x : string)
    (Hx : plain_key x) (Hrest : batch_count g x = 0%Z) :
  (∀ g' n, plain_key n →
           batch_count (startBatch n g') n = (batch_count g' n + 1)%Z
           ∧ batch_count (stopBatch n g') n = (batch_count g' n - 1)%Z)
  ∧ (∀ g' n m, n ≠ m →
               batch_count (startBatch n g') m = batch_count g' m
               ∧ batch_count (stopBatch n g') m = batch_count g' m)
  ∧ hasActiveBatch (OneName x) (startBatch x (startBatch x g)) = true
  ∧ hasActiveBatch (OneName x)
      (stopBatch x (startBatch x (startBatch x g))) = true
  ∧ hasActiveBatch (OneName x)
      (stopBatch x (stopBatch x (startBatch x (startBatch x g)))) = false
  ∧ (∀ g', hasActiveBatch NoName g' = true
           ↔ ∃ n, (0 < batch_count g' n)%Z)
  ∧ (∀ g' l, hasActiveBatch (NameArray l) g' = true
             ↔ ∃ n, n ∈ l ∧ (0 < batch_count g' n)%Z)
  ∧ (∀ g' n, hasActiveBatch (OneName n) g' = true
             ↔ (0 < batch_count g' n)%Z).
Proof.
  assert (Hone : ∀ g' n, hasActiveBatch (OneName n) g' = true
                         ↔ (0 < batch_count g' n)%Z).
  { intros g' n. unfold hasActiveBatch. rewrite hasActiveBatch_names.
    split.
    - intros (m & Hm & Hp). apply list_elem_of_singleton in Hm. by subst.
    - intros Hp. exists n. split; [apply list_elem_of_singleton|]; done. }
  split.
  { intros g' n Hn.
    rewrite batch_count_start, batch_count_stop, !decide_True by done.
    done. }
  split; [intros g' n m; apply batch_count_other|].
  split; [|split; [|split; [|split; [|split]]]].
  - apply Hone. rewrite !batch_count_start, !decide_True by done. lia.
  - apply Hone.
    rewrite batch_count_stop, !batch_count_start, !decide_True by done. lia.
  - apply not_true_is_false. rewrite Hone.
    rewrite !batch_count_stop, !batch_count_start, !decide_True by done. lia.
  - intros g'. unfold hasActiveBatch. rewrite hasActiveBatch_names. split.
    + intros (n & _ & Hp). by exists n.
    + intros (n & Hp). exists n. split; [|done].
      by apply batch_count_positive_own.
  - intros g' l. apply hasActiveBatch_names.
  - apply Hone.
Qed.

Lemma batch_reentrancy_and_activity_witness :
  hasActiveBatch (OneName "x")
    (stopBatch "x" (startBatch "x" (startBatch "x" initialize))) = true
  ∧ hasActiveBatch (OneName "x")
      (stopBatch "x" (stopBatch "x"
         (startBatch "x" (startBatch "x" initialize)))) = false.
Proof.
  pose proof (batch_reentrancy_and_activity initialize "x" eq_refl eq_refl)
    as (_ & _ & _ & H1 & H2 & _).
  exact (conj H1 H2).
Defined.

(** ** Validation in [addCell] *)

(** C8.  [addCell] of a cell whose [type] is not a string throws a
    [TypeError] and leaves the graph as it was: the collection, the index,
    the batches and the notifications are those of before the call. *)
Theorem addCell_type_validation (g : Graph) (cell : CellInit)
    (Htype : isString (type_attr (init_cell cell)) = false) :
  addCell (ArgCell cell) g
  = (g, Throw (TypeError "dia.Graph: cell type must be a string.")).
Proof.
  unfold addCell, addCell_single, _prepareCell. by rewrite Htype.
Qed.

Lemma addCell_type_validation_witness :
  addCell (ArgCell (Json (mkCell "a" Element {[ "type" := VNum 7 ]})))
          initialize
  = (initialize, Throw (TypeError "dia.Graph: cell type must be a string.")).
Proof.
  apply (addCell_type_validation initialize
           (Json (mkCell "a" Element {[ "type" := VNum 7 ]}))).
  reflexivity.
Defined.

(** ** [clear] on an empty collection *)

(** C10.  [clear] on a graph without cells returns at once: the graph it
    leaves is the graph it was given, so no batch was started, nothing was
    notified, and the collection, the index and the counters are
    unchanged. *)
Theorem clear_empty_collection (g : Graph) (opt : Opt)
    (Hempty : cellCollection g = []) :
  clear opt g = (g, Ok tt).
Proof.
  unfold clear. by rewrite Hempty.
Qed.

Lemma clear_empty_collection_witness :
  clear no_option (startBatch "outer" initialize)
  = (startBatch "outer" initialize, Ok tt).
Proof.
  apply (clear_empty_collection (startBatch "outer" initialize) no_option).
  reflexivity.
Defined.

(** ** Rebuilding the index on reset *)

Lemma restructureOnAdd_cells c g :
  cellCollection (_restructureOnAdd c g) = cellCollection g.
Proof.
  unfold _restructureOnAdd.
  destruct (isLink c); [|done].
  destruct (truthy_id (source c)), (truthy_id (target c)); done.
Qed.

Lemma restructureOnAdd_index c g1 g2 :
  index_of g1 = index_of g2 →
  index_of (_restructureOnAdd c g1) = index_of (_restructureOnAdd c g2).
Proof.
  unfold index_of. intros [= Ho Hi Hn He].
  unfold _restructureOnAdd.
  destruct (isLink c); simpl; [|by rewrite Ho, Hi, Hn, He].
  destruct (truthy_id (source c)), (truthy_id (target c)); simpl;
    by rewrite Ho, Hi, Hn, He.
Qed.

Lemma getCell_None g id :
  getCell g id = None ↔ id ∉ cell_id <$> cellCollection g.
Proof.
  unfold getCell. induction (cellCollection g) as [|c l IH]; simpl.
  - split; [intros _; apply not_elem_of_nil | done].
  - rewrite not_elem_of_cons. case_bool_decide; split.
    + discriminate.
    + intros [? _]. congruence.
    + intros H'. split; [congruence|]. by apply IH.
    + intros [_ ?]. by apply IH.
Qed.

Lemma add_new_cells c g :
  cellCollection (add_new c g) = cellCollection g ++ [c].
Proof. unfold add_new. by rewrite restructureOnAdd_cells. Qed.

Lemma foldl_collection_add cells : ∀ g,
  foldl (λ acc c, collection_add c acc) g cells
  = foldl (λ acc c, add_new c acc) g
      (unique_by_id (list_to_set (cell_id <$> cellCollection g)) cells).
Proof.
  induction cells as [|c cells IH]; intros g; simpl; [done|].
  unfold collection_add at 2.
  destruct (decide (cell_id c ∈ _)) as [Hin|Hnin].
  - rewrite elem_of_list_to_set in Hin.
    destruct (getCell g (cell_id c)) eqn:Hg.
    + apply IH.
    + apply getCell_None in Hg. done.
  - rewrite elem_of_list_to_set in Hnin.
    apply getCell_None in Hnin. rewrite Hnin. simpl.
    rewrite IH. fold (add_new c g). rewrite add_new_cells.
    rewrite fmap_app, list_to_set_app_L. simpl.
    by rewrite union_empty_r_L, (comm_L (∪)).
Qed.

Lemma foldl_add_new cells : ∀ g1 g2,
  index_of g1 = index_of g2 →
  index_of (foldl (λ acc c, add_new c acc) g1 cells)
  = index_of (foldl (λ acc c, _restructureOnAdd c acc) g2 cells)
  ∧ cellCollection (foldl (λ acc c, add_new c acc) g1 cells)
    = cellCollection g1 ++ cells.
Proof.
  induction cells as [|c cells IH]; intros g1 g2 Hi; simpl.
  - by rewrite app_nil_r.
  - destruct (IH (add_new c g1) (_restructureOnAdd c g2)) as [H1 H2].
    { unfold add_new. by apply restructureOnAdd_index. }
    split; [done|]. rewrite H2, add_new_cells. by rewrite <- app_assoc.
Qed.

Lemma foldl_restructureOnAdd_cells cells : ∀ g,
  cellCollection (foldl (λ acc c, _restructureOnAdd c acc) g cells)
  = cellCollection g.
Proof.
  induction cells as [|c cells IH]; intros g; simpl; [done|].
  by rewrite IH, restructureOnAdd_cells.
Qed.

(** C2.  After the collection was reset to a list of cells, the
    collection and the four index structures are the ones obtained by adding
    the same cells one by one to an empty graph; so the outbound edges, the
    inbound edges, the membership in the node set and in the edge set, the
    connected links and the neighbors are the same in both graphs. *)
Theorem reset_rebuild (g : Graph) (cells : list Cell) :
  let r := collection_reset cells g in
  let a := foldl (λ acc c, collection_add c acc) initialize cells in
  cellCollection r = cellCollection a
  ∧ _out r = _out a ∧ _in r = _in a
  ∧ _nodes r = _nodes a ∧ _edges r = _edges a
  ∧ (∀ node, getOutboundEdges r node = getOutboundEdges a node)
  ∧ (∀ node, getInboundEdges r node = getInboundEdges a node)
  ∧ (∀ id, id ∈ _nodes r ↔ id ∈ _nodes a)
  ∧ (∀ id, id ∈ _edges r ↔ id ∈ _edges a).
Proof.
  intros r a.
  assert (Hc : cellCollection r = cellCollection a
               ∧ index_of r = index_of a).
  { subst r a. rewrite foldl_collection_add. simpl.
    unfold collection_reset, _restructureOnReset.
    destruct (foldl_add_new (unique_by_id ∅ cells) initialize
                (clear_index (set_cells (λ _, unique_by_id ∅ cells) g)))
      as [Hi Hl]; [done|].
    rewrite Hi, Hl. split; [|done].
    by rewrite foldl_restructureOnAdd_cells. }
  destruct Hc as [Hc [= Ho Hi Hn He]].
  unfold getOutboundEdges, getInboundEdges.
  rewrite Hc, Ho, Hi, Hn, He. repeat split; done.
Qed.
(** ** Lists of keys, buckets, lookups in the collection *)

Lemma elem_of_jset_add x k s : x ∈ jset_add k s ↔ x = k ∨ x ∈ s.
Proof.
  unfold jset_add. destruct (decide (k ∈ s)) as [Hin|Hnin].
  - split; [by right | intros [->|?]; done].
  - rewrite elem_of_app, list_elem_of_singleton. tauto.
Qed.

Lemma elem_of_jset_del x k s : x ∈ jset_del k s ↔ x ∈ s ∧ x ≠ k.
Proof. unfold jset_del. rewrite list_elem_of_filter. tauto. Qed.

Lemma NoDup_jset_add k s : NoDup s → NoDup (jset_add k s).
Proof.
  intros Hs. unfold jset_add. destruct (decide (k ∈ s)); [done|].
  apply NoDup_app. split; [done|]. split.
  - intros x Hx Hk. apply list_elem_of_singleton in Hk. by subst.
  - apply NoDup_singleton.
Qed.

Lemma NoDup_jset_del k s : NoDup s → NoDup (jset_del k s).
Proof. apply NoDup_filter. Qed.

Lemma bucket_add_lookup k id m s :
  default [] (bucket_add k id m !! s)
  = if decide (k = s) then jset_add id (default [] (m !! k))
    else default [] (m !! s).
Proof.
  unfold bucket_add. destruct (decide (k = s)) as [->|Hne].
  - by rewrite lookup_insert_eq.
  - by rewrite lookup_insert_ne.
Qed.

Lemma bucket_del_lookup k id m s :
  default [] (bucket_del k id m !! s)
  = if decide (k = s) then jset_del id (default [] (m !! k))
    else default [] (m !! s).
Proof.
  unfold bucket_del. destruct (decide (k = s)) as [->|Hne].
  - destruct (m !! s) eqn:Hm; simpl.
    + by rewrite lookup_insert_eq.
    + by rewrite Hm.
  - destruct (m !! k); [|done]. by rewrite lookup_insert_ne.
Qed.

Lemma elem_of_bucket_add l k id m s :
  l ∈ default [] (bucket_add k id m !! s)
  ↔ (k = s ∧ l = id) ∨ l ∈ default [] (m !! s).
Proof.
  rewrite bucket_add_lookup. destruct (decide (k = s)) as [->|Hne].
  - rewrite elem_of_jset_add. tauto.
  - tauto.
Qed.

Lemma elem_of_bucket_del l k id m s :
  l ∈ default [] (bucket_del k id m !! s)
  ↔ l ∈ default [] (m !! s) ∧ ¬ (k = s ∧ l = id).
Proof.
  rewrite bucket_del_lookup. destruct (decide (k = s)) as [->|Hne].
  - rewrite elem_of_jset_del. tauto.
  - tauto.
Qed.

Lemma NoDup_bucket_add k id m s :
  NoDup (default [] (m !! k)) → NoDup (default [] (m !! s)) →
  NoDup (default [] (bucket_add k id m !! s)).
Proof.
  intros Hk Hs. rewrite bucket_add_lookup.
  destruct (decide (k = s)); [by apply NoDup_jset_add | done].
Qed.

Lemma NoDup_bucket_del k id m s :
  NoDup (default [] (m !! k)) → NoDup (default [] (m !! s)) →
  NoDup (default [] (bucket_del k id m !! s)).
Proof.
  intros Hk Hs. rewrite bucket_del_lookup.
  destruct (decide (k = s)); [by apply NoDup_jset_del | done].
Qed.

Lemma getCell_Some g id c :
  getCell g id = Some c → cell_id c = id ∧ c ∈ cellCollection g.
Proof.
  unfold getCell. intros H. apply find_some in H as [Hin Hb].
  apply bool_decide_eq_true in Hb. split; [done|].
  by apply list_elem_of_In.
Qed.

Lemma getCell_elem_of g c :
  NoDup (cell_id <$> cellCollection g) →
  c ∈ cellCollection g → getCell g (cell_id c) = Some c.
Proof.
  unfold getCell. induction (cellCollection g) as [|c' l IH]; simpl.
  - intros _ H. by apply elem_of_nil in H.
  - intros Hnd Hin. apply NoDup_cons in Hnd as [Hc' Hnd].
    case_bool_decide as Heq.
    + apply elem_of_cons in Hin as [->|Hin]; [done|].
      exfalso. apply Hc'. rewrite Heq. apply list_elem_of_fmap. by exists c.
    + apply elem_of_cons in Hin as [->|Hin]; [done|]. by apply IH.
Qed.

Lemma getCell_is_Some g id :
  is_Some (getCell g id) ↔ id ∈ cell_id <$> cellCollection g.
Proof.
  destruct (getCell g id) eqn:H.
  - split; [|by eauto]. intros _. apply getCell_Some in H as [<- Hin].
    apply list_elem_of_fmap. eauto.
  - split; [by intros [? ?]|]. intros Hin. by apply getCell_None in H.
Qed.
(** ** What the listeners do to the index *)

Ltac index_cases c :=
  unfold _restructureOnAdd, _restructureOnRemove,
    _restructureOnChangeSource, _restructureOnChangeTarget,
    getOutboundEdges, getInboundEdges;
  destruct (isLink c); simpl;
  try destruct (truthy_id (source c)) as [?s|];
  try destruct (truthy_id (target c)) as [?t|]; simpl;
  rewrite ?elem_of_bucket_add, ?elem_of_bucket_del,
    ?elem_of_union, ?elem_of_difference, ?elem_of_singleton.

Lemma restructureOnAdd_out c g s l :
  l ∈ getOutboundEdges (_restructureOnAdd c g) s
  ↔ l ∈ getOutboundEdges g s
    ∨ (isLink c = true ∧ truthy_id (source c) = Some s ∧ l = cell_id c).
Proof. index_cases c; naive_solver. Qed.

Lemma restructureOnAdd_in c g t l :
  l ∈ getInboundEdges (_restructureOnAdd c g) t
  ↔ l ∈ getInboundEdges g t
    ∨ (isLink c = true ∧ truthy_id (target c) = Some t ∧ l = cell_id c).
Proof. index_cases c; naive_solver. Qed.

Lemma restructureOnAdd_nodes c g id :
  id ∈ _nodes (_restructureOnAdd c g)
  ↔ id ∈ _nodes g ∨ (isLink c = false ∧ id = cell_id c).
Proof. index_cases c; naive_solver. Qed.

Lemma restructureOnAdd_edges c g id :
  id ∈ _edges (_restructureOnAdd c g)
  ↔ id ∈ _edges g ∨ (isLink c = true ∧ id = cell_id c).
Proof. index_cases c; naive_solver. Qed.

Lemma restructureOnAdd_nodup c g :
  (∀ s, NoDup (getOutboundEdges g s)) → (∀ t, NoDup (getInboundEdges g t)) →
  (∀ s, NoDup (getOutboundEdges (_restructureOnAdd c g) s))
  ∧ (∀ t, NoDup (getInboundEdges (_restructureOnAdd c g) t)).
Proof.
  intros Ho Hi.
  unfold _restructureOnAdd, getOutboundEdges, getInboundEdges in *.
  destruct (isLink c); simpl; [|done].
  destruct (truthy_id (source c)), (truthy_id (target c)); simpl;
    split; intros; try apply NoDup_bucket_add; done.
Qed.

Lemma restructureOnRemove_cells c g :
  cellCollection (_restructureOnRemove c g) = cellCollection g.
Proof.
  unfold _restructureOnRemove.
  destruct (isLink c); [|done].
  destruct (truthy_id (source c)), (truthy_id (target c)); done.
Qed.

Lemma restructureOnRemove_out c g s l :
  l ∈ getOutboundEdges (_restructureOnRemove c g) s
  ↔ l ∈ getOutboundEdges g s
    ∧ ¬ (isLink c = true ∧ truthy_id (source c) = Some s ∧ l = cell_id c).
Proof. index_cases c; naive_solver. Qed.

Lemma restructureOnRemove_in c g t l :
  l ∈ getInboundEdges (_restructureOnRemove c g) t
  ↔ l ∈ getInboundEdges g t
    ∧ ¬ (isLink c = true ∧ truthy_id (target c) = Some t ∧ l = cell_id c).
Proof. index_cases c; naive_solver. Qed.

Lemma restructureOnRemove_nodes c g id :
  id ∈ _nodes (_restructureOnRemove c g)
  ↔ id ∈ _nodes g ∧ ¬ (isLink c = false ∧ id = cell_id c).
Proof. index_cases c; naive_solver. Qed.

Lemma restructureOnRemove_edges c g id :
  id ∈ _edges (_restructureOnRemove c g)
  ↔ id ∈ _edges g ∧ ¬ (isLink c = true ∧ id = cell_id c).
Proof. index_cases c; naive_solver. Qed.

Lemma restructureOnRemove_nodup c g :
  (∀ s, NoDup (getOutboundEdges g s)) → (∀ t, NoDup (getInboundEdges g t)) →
  (∀ s, NoDup (getOutboundEdges (_restructureOnRemove c g) s))
  ∧ (∀ t, NoDup (getInboundEdges (_restructureOnRemove c g) t)).
Proof.
  intros Ho Hi.
  unfold _restructureOnRemove, getOutboundEdges, getInboundEdges in *.
  destruct (isLink c); simpl; [|done].
  destruct (truthy_id (source c)), (truthy_id (target c)); simpl;
    split; intros; try apply NoDup_bucket_del; done.
Qed.
(** ** Lookups after a change of the collection *)

Lemma getCell_ext g1 g2 id :
  cellCollection g1 = cellCollection g2 → getCell g1 id = getCell g2 id.
Proof. unfold getCell. by intros ->. Qed.

Lemma getCell_restructureOnAdd c g id :
  getCell (_restructureOnAdd c g) id = getCell g id.
Proof. apply getCell_ext, restructureOnAdd_cells. Qed.

Lemma getCell_restructureOnRemove c g id :
  getCell (_restructureOnRemove c g) id = getCell g id.
Proof. apply getCell_ext, restructureOnRemove_cells. Qed.

Lemma find_app_cells (f : Cell → bool) l1 l2 :
  find f (l1 ++ l2)
  = match find f l1 with Some c => Some c | None => find f l2 end.
Proof.
  induction l1 as [|c l1 IH]; simpl; [done|]. by destruct (f c).
Qed.

Lemma getCell_add_new c g id :
  getCell g (cell_id c) = None →
  getCell (add_new c g) id
  = if decide (id = cell_id c) then Some c else getCell g id.
Proof.
  intros Hnew. unfold add_new. rewrite getCell_restructureOnAdd.
  unfold getCell in *. simpl. rewrite find_app_cells. simpl.
  destruct (find (λ c0, bool_decide (cell_id c0 = id)) (cellCollection g))
    eqn:Hf.
  - destruct (decide (id = cell_id c)) as [->|]; [congruence | done].
  - case_bool_decide; destruct (decide _); congruence.
Qed.

Lemma getCell_remove_silent c g id :
  getCell (collection_remove_silent c g) id
  = if decide (id = cell_id c) then None else getCell g id.
Proof.
  unfold collection_remove_silent, getCell. simpl.
  induction (cellCollection g) as [|c' l IH]; simpl.
  - by destruct (decide _).
  - rewrite filter_cons. destruct (decide (cell_id c' ≠ cell_id c)) as [Hne|He].
    + simpl. case_bool_decide as Hid; [|done].
      destruct (decide (id = cell_id c)); [congruence|done].
    + apply dec_stable in He. rewrite IH.
      destruct (decide (id = cell_id c)) as [->|Hne]; [done|].
      case_bool_decide; [congruence | done].
Qed.

Lemma remove_silent_ids c g :
  cell_id <$> cellCollection (collection_remove_silent c g)
  = filter (λ id, id ≠ cell_id c) (cell_id <$> cellCollection g).
Proof.
  unfold collection_remove_silent. simpl.
  induction (cellCollection g) as [|c' l IH]; [done|].
  rewrite fmap_cons, !filter_cons.
  destruct (decide (cell_id c' ≠ cell_id c)); rewrite ?fmap_cons, IH; done.
Qed.

(** ** The index is kept by [add] *)

Lemma index_ok_initialize : index_ok initialize.
Proof.
  split; simpl.
  - apply NoDup_nil_2.
  - intros s l. unfold getOutboundEdges. simpl. rewrite lookup_empty. simpl.
    split; [by intros ?%elem_of_nil | by intros (_ & c & ? & _)].
  - intros s l. unfold getInboundEdges. simpl. rewrite lookup_empty. simpl.
    split; [by intros ?%elem_of_nil | by intros (_ & c & ? & _)].
  - intros id. split; [by intros ?%elem_of_empty | by intros (_ & c & ? & _)].
  - intros id. split; [by intros ?%elem_of_empty | by intros (_ & c & ? & _)].
  - intros s. unfold getOutboundEdges. simpl. rewrite lookup_empty.
    apply NoDup_nil_2.
  - intros s. unfold getInboundEdges. simpl. rewrite lookup_empty.
    apply NoDup_nil_2.
Qed.

Lemma add_new_out c g s :
  getOutboundEdges (add_new c g) s
  = getOutboundEdges (_restructureOnAdd c g) s.
Proof.
  unfold add_new, _restructureOnAdd, getOutboundEdges.
  destruct (isLink c); [|done].
  destruct (truthy_id (source c)), (truthy_id (target c)); done.
Qed.

Lemma add_new_in c g s :
  getInboundEdges (add_new c g) s
  = getInboundEdges (_restructureOnAdd c g) s.
Proof.
  unfold add_new, _restructureOnAdd, getInboundEdges.
  destruct (isLink c); [|done].
  destruct (truthy_id (source c)), (truthy_id (target c)); done.
Qed.

Lemma add_new_nodes c g :
  _nodes (add_new c g) = _nodes (_restructureOnAdd c g).
Proof.
  unfold add_new, _restructureOnAdd.
  destruct (isLink c); [|done].
  destruct (truthy_id (source c)), (truthy_id (target c)); done.
Qed.

Lemma add_new_edges c g :
  _edges (add_new c g) = _edges (_restructureOnAdd c g).
Proof.
  unfold add_new, _restructureOnAdd.
  destruct (isLink c); [|done].
  destruct (truthy_id (source c)), (truthy_id (target c)); done.
Qed.

Lemma isLink_false_true c : isLink c = false ↔ ¬ isLink c = true.
Proof. destruct (isLink c); naive_solver. Qed.

Lemma getCell_add_new_iff (Q : Cell → Prop) c g l :
  getCell g (cell_id c) = None →
  (∃ c0, getCell (add_new c g) l = Some c0 ∧ Q c0)
  ↔ (∃ c0, getCell g l = Some c0 ∧ Q c0) ∨ (Q c ∧ l = cell_id c).
Proof.
  intros Hnew. rewrite getCell_add_new by done. split.
  - intros (c0 & Hg & Hq). destruct (decide (l = cell_id c)) as [->|Hne].
    + right. by simplify_eq.
    + left. eauto.
  - intros [(c0 & Hg & Hq) | [Hq ->]].
    + exists c0. destruct (decide (l = cell_id c)) as [->|Hne]; [congruence|done].
    + exists c. by rewrite decide_True.
Qed.

Lemma index_ok_add_new c g :
  index_ok g → getCell g (cell_id c) = None → index_ok (add_new c g).
Proof.
  intros [Hids Hout Hin Hn He Hndo Hndi] Hnew.
  split.
  - rewrite add_new_cells, fmap_app. simpl. apply NoDup_app.
    split; [done|]. split; [|apply NoDup_singleton].
    intros x Hx Hc. apply list_elem_of_singleton in Hc. subst.
    by apply getCell_None in Hnew.
  - intros s l. rewrite add_new_out, restructureOnAdd_out, Hout.
    rewrite (getCell_add_new_iff
               (λ c0, isLink c0 = true ∧ truthy_id (source c0) = Some s))
      by done.
    pose proof (not_elem_of_empty (C:=gset string) l). tauto.
  - intros s l. rewrite add_new_in, restructureOnAdd_in, Hin.
    rewrite (getCell_add_new_iff
               (λ c0, isLink c0 = true ∧ truthy_id (target c0) = Some s))
      by done.
    pose proof (not_elem_of_empty (C:=gset string) l). tauto.
  - intros id. rewrite add_new_nodes, restructureOnAdd_nodes, Hn.
    rewrite (getCell_add_new_iff (λ c0, isLink c0 = false)) by done.
    pose proof (not_elem_of_empty (C:=gset string) id). tauto.
  - intros id. rewrite add_new_edges, restructureOnAdd_edges, He.
    rewrite (getCell_add_new_iff (λ c0, isLink c0 = true)) by done.
    pose proof (not_elem_of_empty (C:=gset string) id). tauto.
  - intros s. rewrite add_new_out. by apply restructureOnAdd_nodup.
  - intros s. rewrite add_new_in. by apply restructureOnAdd_nodup.
Qed.

Lemma index_ok_collection_add c g :
  index_ok g → index_ok (collection_add c g).
Proof.
  intros Hok. unfold collection_add.
  destruct (getCell g (cell_id c)) eqn:Hg; [done|].
  by apply index_ok_add_new.
Qed.
(** ** The index is kept by a removal *)

Lemma index_matches_restructureOnRemove P g c :
  index_matches P g → getCell g (cell_id c) = Some c →
  index_matches ({[cell_id c]} ∪ P) (_restructureOnRemove c g).
Proof.
  intros [Hids Hout Hin Hn He Hndo Hndi] Hc.
  assert (Hsame : ∀ l c0, getCell g l = Some c0 → l = cell_id c → c0 = c)
    by (intros l c0 H0 ->; congruence).
  split.
  - by rewrite restructureOnRemove_cells.
  - intros s l. rewrite restructureOnRemove_out, Hout, not_elem_of_union,
      not_elem_of_singleton.
    setoid_rewrite getCell_restructureOnRemove. split.
    + intros [[Hp (c0 & Hg & Hl & Hs)] Hno]. split; [|by eauto].
      split; [|done]. intros ->. apply Hno.
      by rewrite <- (Hsame _ _ Hg eq_refl).
    + intros [[Hne Hp] Hex]. split; [done|]. by intros (_ & _ & ?).
  - intros s l. rewrite restructureOnRemove_in, Hin, not_elem_of_union,
      not_elem_of_singleton.
    setoid_rewrite getCell_restructureOnRemove. split.
    + intros [[Hp (c0 & Hg & Hl & Hs)] Hno]. split; [|by eauto].
      split; [|done]. intros ->. apply Hno.
      by rewrite <- (Hsame _ _ Hg eq_refl).
    + intros [[Hne Hp] Hex]. split; [done|]. by intros (_ & _ & ?).
  - intros id. rewrite restructureOnRemove_nodes, Hn, not_elem_of_union,
      not_elem_of_singleton.
    setoid_rewrite getCell_restructureOnRemove. split.
    + intros [[Hp (c0 & Hg & Hl)] Hno]. split; [|by eauto].
      split; [|done]. intros ->. apply Hno.
      by rewrite <- (Hsame _ _ Hg eq_refl).
    + intros [[Hne Hp] Hex]. split; [done|]. by intros (_ & ?).
  - intros id. rewrite restructureOnRemove_edges, He, not_elem_of_union,
      not_elem_of_singleton.
    setoid_rewrite getCell_restructureOnRemove. split.
    + intros [[Hp (c0 & Hg & Hl)] Hno]. split; [|by eauto].
      split; [|done]. intros ->. apply Hno.
      by rewrite <- (Hsame _ _ Hg eq_refl).
    + intros [[Hne Hp] Hex]. split; [done|]. by intros (_ & ?).
  - by apply restructureOnRemove_nodup.
  - by apply restructureOnRemove_nodup.
Qed.

Lemma index_matches_remove_silent P g c :
  index_matches P g → cell_id c ∈ P →
  index_matches (P ∖ {[cell_id c]}) (collection_remove_silent c g).
Proof.
  intros [Hids Hout Hin Hn He Hndo Hndi] Hc.
  assert (Hp : ∀ l, l ∉ P ∖ {[cell_id c]} ↔ l ∉ P ∨ l = cell_id c).
  { intros l. rewrite elem_of_difference, elem_of_singleton.
    destruct (decide (l = cell_id c)); tauto. }
  assert (Hget : ∀ (Q : Cell → Prop) l,
    ((l ∉ P ∖ {[cell_id c]})
     ∧ (∃ c0, getCell (collection_remove_silent c g) l = Some c0 ∧ Q c0))
    ↔ ((l ∉ P) ∧ (∃ c0, getCell g l = Some c0 ∧ Q c0))).
  { intros Q l. rewrite Hp, getCell_remove_silent.
    destruct (decide (l = cell_id c)) as [->|Hne].
    - split; [by intros (_ & c0 & ? & _) | tauto].
    - tauto. }
  split.
  - rewrite remove_silent_ids. by apply NoDup_filter.
  - intros s l.
    rewrite (Hget (λ c0, isLink c0 = true ∧ truthy_id (source c0) = Some s)).
    apply Hout.
  - intros s l.
    rewrite (Hget (λ c0, isLink c0 = true ∧ truthy_id (target c0) = Some s)).
    apply Hin.
  - intros id. rewrite (Hget (λ c0, isLink c0 = false)). apply Hn.
  - intros id. rewrite (Hget (λ c0, isLink c0 = true)). apply He.
  - done.
  - done.
Qed.
(** ** The index is kept by a change of endpoint *)

Lemma restructureOnChangeSource_out link prev g s l :
  l ∈ getOutboundEdges (_restructureOnChangeSource link prev g) s
  ↔ (l ∈ getOutboundEdges g s ∧ ¬ (truthy_id prev = Some s ∧ l = cell_id link))
    ∨ (truthy_id (source link) = Some s ∧ l = cell_id link).
Proof.
  unfold _restructureOnChangeSource, getOutboundEdges.
  destruct (truthy_id prev) as [p|], (truthy_id (source link)) as [s'|]; simpl;
    rewrite ?elem_of_bucket_add, ?elem_of_bucket_del; naive_solver.
Qed.

Lemma restructureOnChangeTarget_in link prev g t l :
  l ∈ getInboundEdges (_restructureOnChangeTarget link prev g) t
  ↔ (l ∈ getInboundEdges g t ∧ ¬ (truthy_id prev = Some t ∧ l = cell_id link))
    ∨ (truthy_id (target link) = Some t ∧ l = cell_id link).
Proof.
  unfold _restructureOnChangeTarget, getInboundEdges.
  destruct (truthy_id prev) as [p|], (truthy_id (target link)) as [s'|]; simpl;
    rewrite ?elem_of_bucket_add, ?elem_of_bucket_del; naive_solver.
Qed.

Lemma restructureOnChangeSource_nodup link prev g :
  (∀ s, NoDup (getOutboundEdges g s)) →
  ∀ s, NoDup (getOutboundEdges (_restructureOnChangeSource link prev g) s).
Proof.
  intros Ho s. unfold _restructureOnChangeSource, getOutboundEdges in *.
  destruct (truthy_id prev) as [p|], (truthy_id (source link)) as [s'|]; simpl;
    repeat first [apply NoDup_bucket_add | apply NoDup_bucket_del | done].
Qed.

Lemma restructureOnChangeTarget_nodup link prev g :
  (∀ s, NoDup (getInboundEdges g s)) →
  ∀ s, NoDup (getInboundEdges (_restructureOnChangeTarget link prev g) s).
Proof.
  intros Ho s. unfold _restructureOnChangeTarget, getInboundEdges in *.
  destruct (truthy_id prev) as [p|], (truthy_id (target link)) as [s'|]; simpl;
    repeat first [apply NoDup_bucket_add | apply NoDup_bucket_del | done].
Qed.

(** the parts of the graph that a change of [source] leaves alone, and
    likewise for [target] *)
Lemma restructureOnChangeSource_frame link prev g :
  cellCollection (_restructureOnChangeSource link prev g) = cellCollection g
  ∧ _in (_restructureOnChangeSource link prev g) = _in g
  ∧ _nodes (_restructureOnChangeSource link prev g) = _nodes g
  ∧ _edges (_restructureOnChangeSource link prev g) = _edges g
  ∧ batches_of (_restructureOnChangeSource link prev g) = batches_of g
  ∧ triggered (_restructureOnChangeSource link prev g) = triggered g.
Proof.
  unfold _restructureOnChangeSource.
  by destruct (truthy_id prev), (truthy_id (source link)).
Qed.

Lemma restructureOnChangeTarget_frame link prev g :
  cellCollection (_restructureOnChangeTarget link prev g) = cellCollection g
  ∧ _out (_restructureOnChangeTarget link prev g) = _out g
  ∧ _nodes (_restructureOnChangeTarget link prev g) = _nodes g
  ∧ _edges (_restructureOnChangeTarget link prev g) = _edges g
  ∧ batches_of (_restructureOnChangeTarget link prev g) = batches_of g
  ∧ triggered (_restructureOnChangeTarget link prev g) = triggered g.
Proof.
  unfold _restructureOnChangeTarget.
  by destruct (truthy_id prev), (truthy_id (target link)).
Qed.

Lemma cell_set_cells id patch g old :
  getCell g id = Some old →
  cellCollection (cell_set id patch g)
  = (λ c, if bool_decide (cell_id c = id) then patched old patch else c)
    <$> cellCollection g.
Proof.
  intros Hold. unfold cell_set. rewrite Hold.
  apply getCell_Some in Hold as [Hid _]. unfold patched. rewrite Hid.
  destruct (attr_changed "source" patch old),
    (attr_changed "target" patch old); simpl;
    rewrite ?(proj1 (restructureOnChangeTarget_frame _ _ _)),
      ?(proj1 (restructureOnChangeSource_frame _ _ _)); done.
Qed.

Lemma cell_set_ids id patch g :
  cell_id <$> cellCollection (cell_set id patch g)
  = cell_id <$> cellCollection g.
Proof.
  destruct (getCell g id) as [old|] eqn:Hold.
  - rewrite (cell_set_cells _ _ _ _ Hold).
    apply getCell_Some in Hold as [Hid _].
    rewrite <- list_fmap_compose. apply list_fmap_ext.
    intros i c _. simpl. case_bool_decide; simpl; congruence.
  - unfold cell_set. by rewrite Hold.
Qed.

Lemma find_replaced_other id l (new : Cell) cs :
  cell_id new = id → l ≠ id →
  find (λ c, bool_decide (cell_id c = l))
       ((λ c, if bool_decide (cell_id c = id) then new else c) <$> cs)
  = find (λ c, bool_decide (cell_id c = l)) cs.
Proof.
  intros Hnew Hne. induction cs as [|c cs IH]; [done|].
  rewrite fmap_cons. simpl.
  destruct (bool_decide (cell_id c = id)) eqn:Hc.
  - apply bool_decide_eq_true in Hc.
    rewrite !bool_decide_eq_false_2 by congruence. apply IH.
  - destruct (bool_decide (cell_id c = l)); [done | apply IH].
Qed.

Lemma find_replaced_same id (new : Cell) cs :
  cell_id new = id →
  is_Some (find (λ c, bool_decide (cell_id c = id)) cs) →
  find (λ c, bool_decide (cell_id c = id))
       ((λ c, if bool_decide (cell_id c = id) then new else c) <$> cs)
  = Some new.
Proof.
  intros Hnew. induction cs as [|c cs IH]; [by intros [? ?]|].
  rewrite fmap_cons. simpl.
  destruct (bool_decide (cell_id c = id)) eqn:Hc.
  - intros _. by rewrite bool_decide_eq_true_2.
  - rewrite Hc. apply IH.
Qed.

Lemma getCell_cell_set id patch g old l :
  getCell g id = Some old →
  getCell (cell_set id patch g) l
  = if decide (l = id) then Some (patched old patch) else getCell g l.
Proof.
  intros Hold. unfold getCell at 1. rewrite (cell_set_cells _ _ _ _ Hold).
  pose proof (getCell_Some _ _ _ Hold) as [Hid _].
  destruct (decide (l = id)) as [->|Hne].
  - apply find_replaced_same; [done|]. unfold getCell in Hold. by rewrite Hold.
  - by apply find_replaced_other.
Qed.
Lemma attr_unchanged_endpoint key patch old :
  attr_changed key patch old = false →
  endpoint_attr key (patched old patch) = endpoint_attr key old.
Proof.
  unfold attr_changed, endpoint_attr, patched. simpl.
  rewrite lookup_union. destruct (patch !! key) as [v|] eqn:Hp.
  - intros Hb. apply bool_decide_eq_false in Hb. apply dec_stable in Hb.
    by rewrite Hb.
  - intros _. by rewrite (left_id_L None _).
Qed.

Lemma cell_set_out id patch g old s l :
  getCell g id = Some old →
  l ∈ getOutboundEdges (cell_set id patch g) s
  ↔ if attr_changed "source" patch old
    then (l ∈ getOutboundEdges g s
          ∧ ¬ (truthy_id (source old) = Some s ∧ l = id))
         ∨ (truthy_id (source (patched old patch)) = Some s ∧ l = id)
    else l ∈ getOutboundEdges g s.
Proof.
  intros Hold. pose proof (getCell_Some _ _ _ Hold) as [Hid _].
  unfold cell_set. rewrite Hold. fold (patched old patch).
  replace (mkCell id (cell_class old) (patch ∪ attributes old))
    with (patched old patch) by (unfold patched; by rewrite Hid).
  assert (Hfr : ∀ g' prev, getOutboundEdges
            (if attr_changed "target" patch old
             then _restructureOnChangeTarget (patched old patch) prev g'
             else g') s = getOutboundEdges g' s).
  { intros g' prev. destruct (attr_changed "target" patch old); [|done].
    unfold getOutboundEdges.
    by rewrite (proj1 (proj2 (restructureOnChangeTarget_frame _ _ _))). }
  rewrite Hfr. destruct (attr_changed "source" patch old); [|done].
  rewrite restructureOnChangeSource_out.
  replace (cell_id (patched old patch)) with id by done. done.
Qed.

Lemma cell_set_in id patch g old t l :
  getCell g id = Some old →
  l ∈ getInboundEdges (cell_set id patch g) t
  ↔ if attr_changed "target" patch old
    then (l ∈ getInboundEdges g t
          ∧ ¬ (truthy_id (target old) = Some t ∧ l = id))
         ∨ (truthy_id (target (patched old patch)) = Some t ∧ l = id)
    else l ∈ getInboundEdges g t.
Proof.
  intros Hold. pose proof (getCell_Some _ _ _ Hold) as [Hid _].
  unfold cell_set. rewrite Hold.
  replace (mkCell id (cell_class old) (patch ∪ attributes old))
    with (patched old patch) by (unfold patched; by rewrite Hid).
  destruct (attr_changed "target" patch old).
  - rewrite restructureOnChangeTarget_in.
    replace (cell_id (patched old patch)) with id by done.
    destruct (attr_changed "source" patch old); [|done].
    unfold getInboundEdges.
    by rewrite (proj1 (proj2 (restructureOnChangeSource_frame _ _ _))).
  - destruct (attr_changed "source" patch old); [|done].
    unfold getInboundEdges.
    by rewrite (proj1 (proj2 (restructureOnChangeSource_frame _ _ _))).
Qed.

Lemma cell_set_nodes_edges id patch g :
  _nodes (cell_set id patch g) = _nodes g
  ∧ _edges (cell_set id patch g) = _edges g
  ∧ batches_of (cell_set id patch g) = batches_of g
  ∧ triggered (cell_set id patch g) = triggered g.
Proof.
  unfold cell_set. destruct (getCell g id) as [old|]; [|done].
  destruct (attr_changed "source" patch old),
    (attr_changed "target" patch old);
    repeat match goal with
    | |- context [_restructureOnChangeTarget ?a ?b ?c] =>
        destruct (restructureOnChangeTarget_frame a b c)
          as (_ & _ & -> & -> & -> & ->)
    | |- context [_restructureOnChangeSource ?a ?b ?c] =>
        destruct (restructureOnChangeSource_frame a b c)
          as (_ & _ & -> & -> & -> & ->)
    end; done.
Qed.

Lemma restructureOnChangeTarget_out link prev g s :
  getOutboundEdges (_restructureOnChangeTarget link prev g) s
  = getOutboundEdges g s.
Proof.
  unfold getOutboundEdges.
  by rewrite (proj1 (proj2 (restructureOnChangeTarget_frame _ _ _))).
Qed.

Lemma restructureOnChangeSource_in link prev g t :
  getInboundEdges (_restructureOnChangeSource link prev g) t
  = getInboundEdges g t.
Proof.
  unfold getInboundEdges.
  by rewrite (proj1 (proj2 (restructureOnChangeSource_frame _ _ _))).
Qed.

Lemma cell_set_nodup id patch g :
  (∀ s, NoDup (getOutboundEdges g s)) → (∀ t, NoDup (getInboundEdges g t)) →
  (∀ s, NoDup (getOutboundEdges (cell_set id patch g) s))
  ∧ (∀ t, NoDup (getInboundEdges (cell_set id patch g) t)).
Proof.
  intros Ho Hi. unfold cell_set. destruct (getCell g id) as [old|]; [|done].
  set (g1 := set_cells _ g).
  assert (Ho1 : ∀ s, NoDup (getOutboundEdges g1 s)) by done.
  assert (Hi1 : ∀ s, NoDup (getInboundEdges g1 s)) by done.
  clearbody g1.
  destruct (attr_changed "source" patch old),
    (attr_changed "target" patch old); split; intros s;
    rewrite ?restructureOnChangeTarget_out, ?restructureOnChangeSource_in;
    try done.
  - by apply restructureOnChangeSource_nodup.
  - apply restructureOnChangeTarget_nodup. intros t.
    by rewrite restructureOnChangeSource_in.
  - by apply restructureOnChangeSource_nodup.
  - by apply restructureOnChangeTarget_nodup.
Qed.
Lemma attr_changed_None key patch old :
  patch !! key = None → attr_changed key patch old = false.
Proof. unfold attr_changed. by intros ->. Qed.

Lemma index_matches_cell_set P g id patch old :
  index_matches P g → getCell g id = Some old → id ∉ P →
  isLink old = true ∨ (patch !! "source" = None ∧ patch !! "target" = None) →
  index_matches P (cell_set id patch g).
Proof.
  intros [Hids Hout Hin Hn He Hndo Hndi] Hold HP Hkind.
  assert (Hget := getCell_cell_set id patch g old).
  assert (Hlink : isLink (patched old patch) = isLink old) by done.
  destruct (cell_set_nodes_edges id patch g) as (Hn' & He' & _).
  split.
  - by rewrite cell_set_ids.
  - intros s l. rewrite (cell_set_out _ _ _ old) by done.
    rewrite Hget by done.
    destruct (decide (l = id)) as [->|Hne].
    + assert (Hid : id ∈ getOutboundEdges g s
                ↔ isLink old = true ∧ truthy_id (source old) = Some s).
      { rewrite Hout. split.
        - intros (_ & c0 & Hc0 & ?). by simplify_eq.
        - intros [? ?]. split; [done|]. by exists old. }
      destruct (attr_changed "source" patch old) eqn:Hch.
      * assert (isLink old = true) as Hl.
        { destruct Hkind as [?|[Hs _]]; [done|].
          by rewrite (attr_changed_None _ _ _ Hs) in Hch. }
        split.
        -- intros [[Hi Hno]|[Hs _]].
           ++ apply Hid in Hi as [_ Hi]. by destruct Hno.
           ++ split; [done|]. exists (patched old patch). by rewrite Hlink.
        -- intros (_ & c0 & Hc0 & _ & Hs). simplify_eq. by right.
      * rewrite Hid. unfold source.
        split.
        -- intros [Hl Hs]. split; [done|]. exists (patched old patch).
           rewrite Hlink. unfold source.
           by rewrite (attr_unchanged_endpoint _ _ _ Hch).
        -- intros (_ & c0 & Hc0 & Hl & Hs). simplify_eq.
           rewrite Hlink in Hl. unfold source in Hs.
           by rewrite (attr_unchanged_endpoint _ _ _ Hch) in Hs.
    + rewrite <- Hout.
      destruct (attr_changed "source" patch old); [|done]. tauto.
  - intros s l. rewrite (cell_set_in _ _ _ old) by done.
    rewrite Hget by done.
    destruct (decide (l = id)) as [->|Hne].
    + assert (Hid : id ∈ getInboundEdges g s
                ↔ isLink old = true ∧ truthy_id (target old) = Some s).
      { rewrite Hin. split.
        - intros (_ & c0 & Hc0 & ?). by simplify_eq.
        - intros [? ?]. split; [done|]. by exists old. }
      destruct (attr_changed "target" patch old) eqn:Hch.
      * assert (isLink old = true) as Hl.
        { destruct Hkind as [?|[_ Hs]]; [done|].
          by rewrite (attr_changed_None _ _ _ Hs) in Hch. }
        split.
        -- intros [[Hi Hno]|[Hs _]].
           ++ apply Hid in Hi as [_ Hi]. by destruct Hno.
           ++ split; [done|]. exists (patched old patch). by rewrite Hlink.
        -- intros (_ & c0 & Hc0 & _ & Hs). simplify_eq. by right.
      * rewrite Hid. unfold target.
        split.
        -- intros [Hl Hs]. split; [done|]. exists (patched old patch).
           rewrite Hlink. unfold target.
           by rewrite (attr_unchanged_endpoint _ _ _ Hch).
        -- intros (_ & c0 & Hc0 & Hl & Hs). simplify_eq.
           rewrite Hlink in Hl. unfold target in Hs.
           by rewrite (attr_unchanged_endpoint _ _ _ Hch) in Hs.
    + rewrite <- Hin.
      destruct (attr_changed "target" patch old); [|done]. tauto.
  - intros l. rewrite Hn', Hn, Hget by done.
    destruct (decide (l = id)) as [->|Hne]; [|done].
    split; intros (? & c0 & Hc0 & Hl); (split; [done|]); simplify_eq.
    + by exists (patched old patch).
    + by exists old.
  - intros l. rewrite He', He, Hget by done.
    destruct (decide (l = id)) as [->|Hne]; [|done].
    split; intros (? & c0 & Hc0 & Hl); (split; [done|]); simplify_eq.
    + by exists (patched old patch).
    + by exists old.
  - by apply cell_set_nodup.
  - by apply cell_set_nodup.
Qed.
(** ** Connected links without [indirect] and [deep] *)

Lemma filter_ext_elem_of {A} (P1 P2 : A → Prop)
    `{!∀ x, Decision (P1 x), !∀ x, Decision (P2 x)} (l : list A) :
  (∀ x, x ∈ l → P1 x ↔ P2 x) → filter P1 l = filter P2 l.
Proof.
  induction l as [|a l IH]; intros Hiff; [done|].
  rewrite !filter_cons.
  assert (Ha : P1 a ↔ P2 a) by (apply Hiff; left).
  rewrite IH by (intros x Hx; apply Hiff; by right).
  destruct (decide (P1 a)), (decide (P2 a)); tauto.
Qed.

Lemma filter_all_elem_of {A} (P : A → Prop) `{!∀ x, Decision (P x)}
    (l : list A) :
  (∀ x, x ∈ l → P x) → filter P l = l.
Proof.
  induction l as [|a l IH]; intros Hall; [done|].
  rewrite filter_cons, decide_True by (apply Hall; left).
  rewrite IH; [done|]. intros x Hx. apply Hall. by right.
Qed.

Lemma foldM_direct_edges g (l : list string) : ∀ st : Links,
  NoDup l →
  foldM (λ (st : Links) (edge : string),
           if decide (edge ∈ st.2) then Ok st
           else Ok (st.1 ++ [getCell g edge], {[edge]} ∪ st.2)) st l
  = Ok (st.1 ++ (getCell g <$> filter (λ e, e ∉ st.2) l),
        list_to_set l ∪ st.2).
Proof.
  induction l as [|e l IH]; intros [links edges] Hnd; simpl.
  - by rewrite app_nil_r, (left_id_L ∅ _).
  - apply NoDup_cons in Hnd as [He Hnd].
    rewrite filter_cons. simpl.
    destruct (decide (e ∈ edges)) as [Hin|Hnin].
    + rewrite decide_False by tauto. rewrite IH by done. simpl.
      f_equal. f_equal. set_solver.
    + rewrite decide_True by done. rewrite IH by done. simpl.
      rewrite (filter_ext_elem_of (λ e0, e0 ∉ {[e]} ∪ edges)
                 (λ e0, e0 ∉ edges) l) by set_solver.
      rewrite <- app_assoc. simpl. f_equal. f_equal. set_solver.
Qed.

Lemma addBounds_direct g opt fuel d model (st : Links) :
  indirect opt = false →
  NoDup (bucket_of g d (cell_id model)) →
  addBounds g opt (S fuel) d model st
  = Ok (st.1 ++ (getCell g <$> filter (λ e, e ∉ st.2)
                                   (bucket_of g d (cell_id model))),
        list_to_set (bucket_of g d (cell_id model)) ∪ st.2).
Proof.
  intros Hind Hnd. simpl. rewrite Hind. simpl.
  by rewrite foldM_direct_edges.
Qed.

#[local] Arguments addBounds : simpl never.

Lemma getConnectedLinks_direct g opt model :
  indirect opt = false → deep opt = false →
  NoDup (getOutboundEdges g (cell_id model)) →
  NoDup (getInboundEdges g (cell_id model)) →
  getConnectedLinks g opt model
  = Ok (getCell g <$> direct_edges g opt (cell_id model)).
Proof.
  intros Hind Hdeep Hndo Hndi.
  unfold getConnectedLinks, direct_edges, links_fuel.
  destruct (directions opt) as [inb outb]. simpl. rewrite Hdeep.
  destruct outb, inb; simpl;
    repeat (rewrite addBounds_direct by done; simpl).
  - rewrite (filter_all_elem_of _ (getOutboundEdges _ _)) by set_solver.
    rewrite (filter_ext_elem_of _
               (λ e, e ∉ getOutboundEdges g (cell_id model))
               (getInboundEdges _ _)).
    + by rewrite fmap_app.
    + intros x _. rewrite elem_of_union, elem_of_list_to_set. set_solver.
  - rewrite (filter_all_elem_of _ (getOutboundEdges _ _)) by set_solver.
    by rewrite app_nil_r.
  - by rewrite (filter_ext_elem_of _ (λ e, e ∉ [])
                  (getInboundEdges _ _)) by set_solver.
  - done.
Qed.
Lemma fmap_Some_omap {A B} (f : A → option B) (l : list A) :
  (∀ x, x ∈ l → is_Some (f x)) → f <$> l = Some <$> omap f l.
Proof.
  induction l as [|a l IH]; intros Hall; [done|].
  destruct (Hall a) as [b Hb]; [left|]. csimpl. rewrite Hb. csimpl.
  rewrite IH; [done|]. intros x Hx. apply Hall. by right.
Qed.

Lemma direct_edges_no_opt g id e :
  e ∈ direct_edges g no_opt id
  ↔ e ∈ getOutboundEdges g id ∨ e ∈ getInboundEdges g id.
Proof.
  unfold direct_edges. simpl. rewrite elem_of_app, list_elem_of_filter.
  destruct (decide (e ∈ getOutboundEdges g id)); tauto.
Qed.

Lemma direct_edges_nodup g opt id :
  NoDup (getOutboundEdges g id) → NoDup (getInboundEdges g id) →
  NoDup (direct_edges g opt id).
Proof.
  intros Ho Hi. unfold direct_edges.
  destruct (directions opt).2, (directions opt).1; simpl;
    rewrite ?app_nil_r; try done; try apply NoDup_nil_2.
  - apply NoDup_app. split; [done|]. split; [|by apply NoDup_filter].
    intros x Hx Hf. apply list_elem_of_filter in Hf. tauto.
  - by apply NoDup_filter.
Qed.

Lemma attached_links_spec P g model :
  index_matches P g →
  getConnectedLinks g no_opt model
  = Ok (Some <$> attached_links g (cell_id model))
  ∧ cell_id <$> attached_links g (cell_id model)
    = direct_edges g no_opt (cell_id model)
  ∧ NoDup (cell_id <$> attached_links g (cell_id model))
  ∧ (∀ l, l ∈ attached_links g (cell_id model)
          ↔ getCell g (cell_id l) = Some l ∧ (cell_id l ∉ P)
            ∧ isLink l = true
            ∧ (truthy_id (source l) = Some (cell_id model)
               ∨ truthy_id (target l) = Some (cell_id model))).
Proof.
  intros Hinv. destruct Hinv as [Hids Hout Hin Hn He Hndo Hndi].
  set (es := direct_edges g no_opt (cell_id model)).
  assert (Hes : ∀ e, e ∈ es ↔ (e ∉ P) ∧ (∃ c, getCell g e = Some c
             ∧ isLink c = true
             ∧ (truthy_id (source c) = Some (cell_id model)
                ∨ truthy_id (target c) = Some (cell_id model)))).
  { intros e. unfold es. rewrite direct_edges_no_opt, Hout, Hin.
    split.
    - intros [(? & c & ? & ? & ?)|(? & c & ? & ? & ?)]; eauto 10.
    - intros (? & c & ? & ? & [?|?]); eauto 10. }
  assert (Hsome : ∀ e, e ∈ es → is_Some (getCell g e)).
  { intros e He'. apply Hes in He' as (_ & c & -> & _). eauto. }
  assert (Hmem : ∀ l, l ∈ attached_links g (cell_id model)
                      ↔ cell_id l ∈ es ∧ getCell g (cell_id l) = Some l).
  { intros l. unfold attached_links. fold es. rewrite list_elem_of_omap.
    split.
    - intros (e & He' & Hg). pose proof (getCell_Some _ _ _ Hg) as [<- _].
      done.
    - intros [? ?]. eauto. }
  assert (Hidl : cell_id <$> attached_links g (cell_id model) = es).
  { unfold attached_links. fold es. clear Hes Hmem.
    induction es as [|e es IH]; [done|].
    destruct (Hsome e) as [c Hc]; [left|]. csimpl. rewrite Hc. csimpl.
    apply getCell_Some in Hc as [-> _]. f_equal. apply IH.
    intros x Hx. apply Hsome. by right. }
  split; [|split; [|split]].
  - rewrite getConnectedLinks_direct by (done || apply Hndo || apply Hndi).
    fold es.
    by rewrite (fmap_Some_omap _ _ Hsome).
  - done.
  - rewrite Hidl. by apply direct_edges_nodup.
  - intros l. rewrite Hmem, Hes. split.
    + intros [(? & c & Hc & ?) Hl]. by simplify_eq.
    + intros (? & ? & ? & ?). split; [|done]. split; [done|]. eauto.
Qed.
(** ** Removal with its cascade *)

Lemma forEachM_Some {A} (e : error) (f : A → Method unit) (l : list A) g :
  forEachM (λ x : option A, match x with
                            | None => mthrow e
                            | Some a => f a
                            end) (Some <$> l) g
  = forEachM f l g.
Proof.
  revert g. induction l as [|a l IH]; intros g; [done|].
  csimpl. unfold mbindM. destruct (f a g) as [g' [[]|e']]; [apply IH | done].
Qed.

Lemma forEachM_mdo {A} (f : A → Graph → Graph) (l : list A) g :
  forEachM (λ a, mdo (f a)) l g = (foldl (λ g a, f a g) g l, Ok tt).
Proof.
  revert g. induction l as [|a l IH]; intros g; [done|].
  simpl. unfold mbindM, mdo at 1. apply IH.
Qed.

Lemma sublist_filter_mono {A} (P : A → Prop) `{!∀ x, Decision (P x)}
    (l1 l2 : list A) :
  sublist l1 l2 → sublist (filter P l1) (filter P l2).
Proof.
  induction 1 as [|x l1 l2 _ IH|x l1 l2 _ IH]; rewrite ?filter_cons.
  - constructor.
  - destruct (decide (P x)); [by constructor | done].
  - destruct (decide (P x)); [by constructor | done].
Qed.

Lemma live_count_sublist P g g' :
  sublist (cell_id <$> cellCollection g') (cell_id <$> cellCollection g) →
  (live_count P g' ≤ live_count P g)%nat.
Proof.
  intros Hs. unfold live_count. apply sublist_length.
  by apply sublist_filter_mono.
Qed.

Lemma live_count_taken P g id :
  id ∈ cell_id <$> cellCollection g → id ∉ P →
  (live_count ({[id]} ∪ P) g < live_count P g)%nat.
Proof.
  unfold live_count. induction (cell_id <$> cellCollection g) as [|i l IH].
  - by intros ?%elem_of_nil.
  - intros Hin HP. rewrite !filter_cons.
    assert (Hle : (length (filter (λ i0, i0 ∉ {[id]} ∪ P) l)
                   ≤ length (filter (λ i0, i0 ∉ P) l))%nat).
    { clear. induction l as [|j l IH]; [done|]. rewrite !filter_cons.
      destruct (decide (j ∉ {[id]} ∪ P)), (decide (j ∉ P)); simpl;
        [lia | set_solver | lia | lia]. }
    destruct (decide (i = id)) as [->|Hne].
    + rewrite decide_False by set_solver. rewrite decide_True by done.
      simpl. lia.
    + apply elem_of_cons in Hin as [?|Hin]; [congruence|].
      specialize (IH Hin HP).
      destruct (decide (i ∉ {[id]} ∪ P)), (decide (i ∉ P)); simpl;
        [lia | set_solver | lia | lia].
Qed.

Lemma disconnect_loop P g model ls :
  index_matches P g →
  (∀ l, l ∈ ls → (cell_id l ∉ P)
                 ∧ (∃ c, getCell g (cell_id l) = Some c ∧ isLink c = true)) →
  index_matches P (foldl (λ g l, disconnect_link model l g) g ls)
  ∧ cell_id <$> cellCollection (foldl (λ g l, disconnect_link model l g) g ls)
    = cell_id <$> cellCollection g.
Proof.
  revert g. induction ls as [|l ls IH]; intros g Hinv Hls; [done|].
  simpl. destruct (Hls l) as (HP & c & Hc & Hlink); [left|].
  assert (Hinv' : index_matches P (disconnect_link model l g)).
  { unfold disconnect_link. eapply index_matches_cell_set; eauto. }
  destruct (IH (disconnect_link model l g)) as [H1 H2]; [done| |].
  - intros l' Hl'. destruct (Hls l') as (HP' & c' & Hc' & Hlink'); [by right|].
    split; [done|]. unfold disconnect_link.
    rewrite (getCell_cell_set _ _ _ c) by done.
    destruct (decide (cell_id l' = cell_id l)); eauto.
  - split; [done|]. rewrite H2. unfold disconnect_link. apply cell_set_ids.
Qed.
(** *** Unembedding *)

Lemma unembed_ids id g :
  cell_id <$> cellCollection (unembed id g) = cell_id <$> cellCollection g.
Proof.
  unfold unembed. simpl. rewrite <- list_fmap_compose.
  apply list_fmap_ext. intros i c _. simpl. by case_bool_decide.
Qed.

Lemma unembed_index id g : index_of (unembed id g) = index_of g.
Proof. done. Qed.

Lemma getCell_unembed id g l :
  getCell (unembed id g) l
  = if decide (l = id) then without_parent <$> getCell g l else getCell g l.
Proof.
  unfold getCell, unembed. simpl.
  induction (cellCollection g) as [|c cs IH]; [by destruct (decide _)|].
  csimpl. destruct (decide (l = id)) as [->|Hne].
  - destruct (bool_decide (cell_id c = id)) eqn:Hc; simpl.
    + by rewrite Hc.
    + by rewrite Hc.
  - destruct (decide (cell_id c = id)) as [Hc|Hc].
    + rewrite (bool_decide_eq_true_2 _ Hc). simpl.
      rewrite !bool_decide_eq_false_2 by congruence. done.
    + rewrite (bool_decide_eq_false_2 _ Hc). simpl.
      by destruct (bool_decide (cell_id c = l)).
Qed.

Lemma without_parent_shape c :
  cell_id (without_parent c) = cell_id c
  ∧ isLink (without_parent c) = isLink c
  ∧ source (without_parent c) = source c
  ∧ target (without_parent c) = target c
  ∧ truthy_parent (without_parent c) = None.
Proof.
  unfold without_parent, isLink, source, target, endpoint_attr, truthy_parent,
    parent_of; simpl.
  rewrite !lookup_delete_ne by done. by rewrite lookup_delete_eq.
Qed.

(** a cell of the graph after [unembed], and the cell it was *)
Lemma getCell_unembed_Some id g l c' :
  getCell (unembed id g) l = Some c' ↔
  ∃ c, getCell g l = Some c
       ∧ c' = (if decide (l = id) then without_parent c else c).
Proof.
  rewrite getCell_unembed. destruct (decide (l = id)).
  - destruct (getCell g l) as [c|]; simpl.
    + split; [intros [= <-]; eauto | intros (c0 & [= <-] & ->); done].
    + split; [done | by intros (c0 & ? & _)].
  - split; [eauto | by intros (c0 & -> & ->)].
Qed.

Lemma index_matches_unembed P id g :
  index_matches P g → index_matches P (unembed id g).
Proof.
  intros [Hids Hout Hin Hn He Hndo Hndi].
  assert (Hshape : ∀ l (Q : bool → Endpoint → Endpoint → Prop),
    (∃ c, getCell (unembed id g) l = Some c
          ∧ Q (isLink c) (source c) (target c))
    ↔ (∃ c, getCell g l = Some c ∧ Q (isLink c) (source c) (target c))).
  { intros l Q. split.
    - intros (c' & (c & Hc & ->)%getCell_unembed_Some & HQ). exists c.
      split; [done|]. destruct (decide (l = id)); [|done].
      by destruct (without_parent_shape c) as (_ & <- & <- & <- & _).
    - intros (c & Hc & HQ). eexists. split.
      + apply getCell_unembed_Some. eauto.
      + destruct (decide (l = id)); [|done].
        by destruct (without_parent_shape c) as (_ & -> & -> & -> & _). }
  split.
  - by rewrite unembed_ids.
  - intros s l.
    change (getOutboundEdges (unembed id g) s) with (getOutboundEdges g s).
    rewrite Hout.
    by rewrite (Hshape l (λ k s0 _, k = true ∧ truthy_id s0 = Some s)).
  - intros t l.
    change (getInboundEdges (unembed id g) t) with (getInboundEdges g t).
    rewrite Hin.
    by rewrite (Hshape l (λ k _ t0, k = true ∧ truthy_id t0 = Some t)).
  - intros l. change (_nodes (unembed id g)) with (_nodes g). rewrite Hn.
    by rewrite (Hshape l (λ k _ _, k = false)).
  - intros l. change (_edges (unembed id g)) with (_edges g). rewrite He.
    by rewrite (Hshape l (λ k _ _, k = true)).
  - done.
  - done.
Qed.

(** *** One graph after another in a removal *)

Lemma follows_refl k g : follows k g g.
Proof.
  split; [done|]. intros c Hc. exists c. repeat (split; [done|]).
  split; [by right|done].
Qed.

Lemma follows_trans k g1 g2 g3 :
  follows k g3 g2 → follows k g2 g1 → follows k g3 g1.
Proof.
  intros [Hs32 H32] [Hs21 H21]. split; [by etrans|].
  intros c3 Hc3.
  destruct (H32 c3 Hc3) as (c2 & Hc2 & Hid2 & Hk2 & Hp2 & He2).
  destruct (H21 c2 Hc2) as (c1 & Hc1 & Hid1 & Hk1 & Hp1 & He1).
  exists c1. split; [done|]. split; [congruence|]. split; [congruence|].
  split.
  - destruct Hp2 as [?|Hp2]; [by left|]. rewrite Hp2. done.
  - intros Hk. destruct (He2 Hk), (He1 Hk). split; congruence.
Qed.

(** the graphs that hold the same cells *)
Lemma follows_cells k g' g :
  cellCollection g' = cellCollection g → follows k g' g.
Proof.
  intros Heq. split; [by rewrite Heq|]. rewrite Heq.
  intros c Hc. exists c. repeat (split; [done|]). split; [by right|done].
Qed.

Lemma follows_unembed k id g : follows k (unembed id g) g.
Proof.
  split; [by rewrite unembed_ids|].
  intros c' Hc'. unfold unembed in Hc'. simpl in Hc'.
  apply list_elem_of_fmap in Hc' as (c & -> & Hc). exists c.
  split; [done|]. case_bool_decide; [|by repeat split; try right].
  destruct (without_parent_shape c) as (Hid & Hl & Hs & Ht & Hp).
  split; [done|]. split.
  { unfold isLink in Hl. simpl in *. done. }
  split; [by left|]. done.
Qed.

Lemma follows_remove_silent k c g : follows k (collection_remove_silent c g) g.
Proof.
  split.
  - rewrite remove_silent_ids. apply sublist_filter.
  - intros c' Hc'. unfold collection_remove_silent in Hc'. simpl in Hc'.
    apply list_elem_of_filter in Hc' as [_ Hc']. exists c'.
    repeat (split; [done|]). split; [by right|done].
Qed.

Lemma patched_parent old patch :
  patch !! "parent" = None →
  truthy_parent (patched old patch) = truthy_parent old.
Proof.
  intros Hp. unfold truthy_parent, parent_of, patched. simpl.
  by rewrite lookup_union_r.
Qed.

Lemma follows_cell_set id patch g :
  patch !! "parent" = None → follows false (cell_set id patch g) g.
Proof.
  intros Hp. split; [by rewrite cell_set_ids|].
  destruct (getCell g id) as [old|] eqn:Hold.
  2: { unfold cell_set. rewrite Hold. apply follows_refl. }
  rewrite (cell_set_cells _ _ _ _ Hold). intros c' Hc'.
  apply list_elem_of_fmap in Hc' as (c & -> & Hc).
  case_bool_decide as Hid.
  - apply getCell_Some in Hold as [Hido Hino]. exists old.
    split; [done|]. split; [simpl; congruence|]. split; [done|].
    split; [right; by apply patched_parent|done].
  - exists c. repeat (split; [done|]). split; [by right|done].
Qed.

Lemma follows_disconnect model ls : ∀ g,
  follows false (foldl (λ g l, disconnect_link model l g) g ls) g.
Proof.
  induction ls as [|l ls IH]; intros g; [apply follows_refl|].
  simpl. eapply follows_trans; [apply IH|].
  unfold disconnect_link. apply follows_cell_set.
  by case_bool_decide.
Qed.

Lemma follows_weaken k g' g : follows true g' g → follows k g' g.
Proof.
  intros [Hs H]. split; [done|]. intros c' Hc'.
  destruct (H c' Hc') as (c & ? & ? & ? & ? & He). exists c.
  repeat (split; [done|]). intros _. by apply He.
Qed.

Lemma follows_getCell_None k g' g id :
  follows k g' g → getCell g id = None → getCell g' id = None.
Proof.
  intros [Hs _]. rewrite !getCell_None. intros Hno Hin. apply Hno.
  by eapply elem_of_sublist.
Qed.

Lemma follows_is_Some k g' g id :
  follows k g' g → is_Some (getCell g' id) → is_Some (getCell g id).
Proof.
  intros Hf Hsome. destruct (getCell g id) eqn:Hg; [done|].
  rewrite (follows_getCell_None _ _ _ _ Hf Hg) in Hsome. by destruct Hsome.
Qed.

Lemma follows_parent k g' g c' :
  follows k g' g → c' ∈ cellCollection g' → is_Some (getParentCell g' c') →
  ∃ c, c ∈ cellCollection g ∧ cell_id c = cell_id c'
       ∧ is_Some (getParentCell g c).
Proof.
  intros Hf Hc' Hp. destruct (proj2 Hf c' Hc') as (c & Hc & Hid & _ & Hpar & _).
  exists c. split; [done|]. split; [done|].
  unfold getParentCell in *.
  destruct (truthy_parent c') as [p|] eqn:Hp'; [|by destruct Hp].
  destruct Hpar as [?|Hpar]; [done|]. rewrite <- Hpar.
  by eapply follows_is_Some.
Qed.

Lemma elem_of_with_parent_ids g x :
  x ∈ with_parent_ids g
  ↔ ∃ c, c ∈ cellCollection g ∧ cell_id c = x ∧ is_Some (getParentCell g c).
Proof.
  unfold with_parent_ids. rewrite elem_of_list_to_set, list_elem_of_fmap.
  split.
  - intros (c & -> & [Hp Hc]%list_elem_of_filter). eauto.
  - intros (c & Hc & <- & Hp). exists c. split; [done|].
    by apply list_elem_of_filter.
Qed.

Lemma follows_with_parent k g' g :
  follows k g' g → with_parent_ids g' ⊆ with_parent_ids g.
Proof.
  intros Hf x. rewrite !elem_of_with_parent_ids.
  intros (c' & Hc' & <- & Hp). by eapply follows_parent.
Qed.

Lemma follows_live_count k P g' g :
  follows k g' g → (live_count P g' ≤ live_count P g)%nat.
Proof. intros [Hs _]. by apply live_count_sublist. Qed.

Lemma pending_top_follows k P g' g :
  follows k g' g → pending_top P g → pending_top P g'.
Proof.
  intros Hf Hp c' Hc' HP.
  destruct (getParentCell g' c') as [pc|] eqn:Hpar; [|done].
  destruct (follows_parent k g' g c' Hf Hc') as (c & Hc & Hid & Hsome);
    [by rewrite Hpar|].
  rewrite (Hp c Hc) in Hsome; [by destruct Hsome | by rewrite Hid].
Qed.

Lemma ends_stay_ids P g g' :
  cell_id <$> cellCollection g' = cell_id <$> cellCollection g →
  ends_stay P g g'.
Proof. intros Heq l x _ _ _ _. by rewrite Heq. Qed.

Lemma ends_stay_trans P g1 g2 g3 :
  follows true g3 g2 → ends_stay P g1 g2 → ends_stay P g2 g3 →
  ends_stay P g1 g3.
Proof.
  intros Hf H12 H23 l x Hl Hk HP Hend Hx.
  destruct (proj2 Hf l Hl) as (l2 & Hl2 & Hid & Hcls & _ & He).
  destruct (He eq_refl) as [Hs Ht].
  apply (H23 l x); try done. apply (H12 l2 x); try done.
  - unfold isLink in *. by rewrite Hcls.
  - by rewrite Hid.
  - by rewrite <- Hs, <- Ht.
Qed.

Lemma size_list_to_set_le (l : list string) :
  (size (list_to_set (C := gset string) l) ≤ length l)%nat.
Proof.
  induction l as [|x l IH]; [done|]. rewrite list_to_set_cons. simpl.
  destruct (decide (x ∈ (list_to_set l : gset string))).
  - rewrite (subseteq_union_1_L {[x]}) by set_solver. lia.
  - rewrite size_union by set_solver. rewrite size_singleton. lia.
Qed.

Lemma remove_weight_bound P g id :
  (remove_weight P g id < remove_fuel g)%nat.
Proof.
  unfold remove_weight, remove_fuel, live_count, with_parent_ids.
  pose proof (size_list_to_set_le
    (cell_id <$> filter (λ c, is_Some (getParentCell g c)) (cellCollection g))).
  rewrite length_fmap in H.
  pose proof (length_filter (λ c, is_Some (getParentCell g c))
                (cellCollection g)).
  pose proof (length_filter (λ i, i ∉ P) (cell_id <$> cellCollection g)) as H1.
  rewrite length_fmap in H1. lia.
Qed.

Lemma index_matches_eq P P' g : P = P' → index_matches P g → index_matches P' g.
Proof. by intros ->. Qed.

Lemma index_matches_ext P g1 g2 :
  cellCollection g1 = cellCollection g2 → index_of g1 = index_of g2 →
  index_matches P g1 → index_matches P g2.
Proof.
  destruct g1, g2. unfold index_of. simpl. intros -> [= -> -> -> ->].
  intros [? ? ? ? ? ? ?]. split; done.
Qed.

Lemma index_ok_startBatch n g : index_ok g → index_ok (startBatch n g).
Proof.
  apply index_matches_ext; symmetry; apply (startBatch_frame n g).
Qed.

Lemma index_ok_stopBatch n g : index_ok g → index_ok (stopBatch n g).
Proof.
  apply index_matches_ext; symmetry; apply (stopBatch_frame n g).
Qed.

Lemma getParentCell_cells g g' c :
  cellCollection g' = cellCollection g →
  getParentCell g' c = getParentCell g c.
Proof. unfold getParentCell, getCell. by intros ->. Qed.

Lemma pending_top_cells P g g' :
  cellCollection g' = cellCollection g → pending_top P g → pending_top P g'.
Proof.
  intros Heq Hp c Hc HP. rewrite (getParentCell_cells g g' c Heq).
  apply Hp; [by rewrite <- Heq | done].
Qed.

Lemma pending_top_mono P P' g : P ⊆ P' → pending_top P' g → pending_top P g.
Proof. intros Hsub Hp c Hc HP. apply Hp; [done | by apply Hsub]. Qed.

(** the removals of a list of cells, one after the other *)
Lemma remove_loop (remove : string → Opt → Method unit) P opt (E : Prop) ls :
  ∀ g,
  (∀ g0 l, l ∈ ls → index_matches P g0 → pending_top P g0 →
     follows (negb (opt_disconnectLinks opt)) g0 g →
     ∃ g', remove (cell_id l) opt g0 = (g', Ok tt)
           ∧ index_matches P g' ∧ pending_top P g'
           ∧ follows (negb (opt_disconnectLinks opt)) g' g0
           ∧ getCell g' (cell_id l) = None
           ∧ (E → ends_stay P g0 g')) →
  index_matches P g → pending_top P g →
  (E → opt_disconnectLinks opt = false) →
  ∃ g', forEachM (λ l, remove (cell_id l) opt) ls g = (g', Ok tt)
        ∧ index_matches P g' ∧ pending_top P g'
        ∧ follows (negb (opt_disconnectLinks opt)) g' g
        ∧ (∀ l, l ∈ ls → getCell g' (cell_id l) = None)
        ∧ (E → ends_stay P g g').
Proof.
  induction ls as [|l ls IH]; intros g Hrem Hinv Htop HE.
  - exists g. split; [done|]. split; [done|]. split; [done|].
    split; [apply follows_refl|]. split; [by intros l ?%elem_of_nil|].
    intros _. by apply ends_stay_ids.
  - destruct (Hrem g l) as (g1 & Hr & Hinv1 & Htop1 & Hf1 & Hgone1 & He1);
      [left | done | done | apply follows_refl |].
    destruct (IH g1) as (g2 & Hr2 & Hinv2 & Htop2 & Hf2 & Hgone2 & He2);
      [ | done | done | done | ].
    { intros g0 l' Hl' Hi0 Ht0 Hf0. apply Hrem; [by right | done | done |].
      by eapply follows_trans. }
    exists g2. simpl. unfold mbindM. rewrite Hr. split; [done|].
    split; [done|]. split; [done|]. split; [by eapply follows_trans|].
    split.
    + intros l' [->|Hl']%elem_of_cons; [|by apply Hgone2].
      by eapply follows_getCell_None.
    + intros HEv. specialize (HE HEv). rewrite HE in Hf2. simpl in Hf2.
      eapply ends_stay_trans; [exact Hf2 | by apply He1 | by apply He2].
Qed.

Lemma live_count_cells P g g' :
  cell_id <$> cellCollection g' = cell_id <$> cellCollection g →
  live_count P g' = live_count P g.
Proof. unfold live_count. by intros ->. Qed.

Lemma cell_remove_fuel_ok fuel : ∀ P g id opt,
  index_matches P g → pending_top P g → id ∉ P →
  (remove_weight P g id < fuel)%nat →
  ∃ g', cell_remove_fuel fuel id opt g = (g', Ok tt)
        ∧ index_matches P g' ∧ pending_top P g'
        ∧ follows (negb (opt_disconnectLinks opt)) g' g
        ∧ getCell g' id = None
        ∧ (opt_clear opt = false ∧ opt_disconnectLinks opt = false
           → ends_stay P g g').
Proof.
  induction fuel as [|fuel IH]; intros P g id opt Hinv Htop HP Hfuel; [lia|].
  set (k := negb (opt_disconnectLinks opt)).
  set (E := opt_clear opt = false ∧ opt_disconnectLinks opt = false).
  assert (HEk : E → opt_disconnectLinks opt = false) by (by intros [_ ?]).
  simpl. destruct (getCell g id) as [cell|] eqn:Hcell.
  2: { exists g. split; [done|]. split; [done|]. split; [done|].
       split; [apply follows_refl|]. split; [done|].
       intros _. by apply ends_stay_ids. }
  pose proof (getCell_Some _ _ _ Hcell) as [Hid Hin].
  pose proof (im_ids _ _ Hinv) as Hnd.
  assert (Hidin : id ∈ cell_id <$> cellCollection g).
  { rewrite <- Hid. apply list_elem_of_fmap. eauto. }
  unfold mbindM, mdo. cbv beta iota.
  set (g1 := startBatch "remove" g).
  set (g2 := match getParentCell g1 cell with
             | Some _ => unembed id g1
             | None => g1
             end).
  set (e := if decide (id ∈ with_parent_ids g) then 1%nat else 0%nat) in *.
  assert (Hwp : id ∈ with_parent_ids g ↔ is_Some (getParentCell g cell)).
  { rewrite elem_of_with_parent_ids. split.
    - intros (c & Hc & Hcid & Hp).
      assert (c = cell) as ->; [|done].
      pose proof (getCell_elem_of _ _ Hnd Hc) as Hgc. rewrite Hcid in Hgc.
      congruence.
    - intros Hp. eauto. }
  assert (H2 : index_matches P g2 ∧ follows true g2 g
               ∧ cell_id <$> cellCollection g2 = cell_id <$> cellCollection g
               ∧ (id ∉ with_parent_ids g2)
               ∧ (size (with_parent_ids g2) + e ≤ size (with_parent_ids g))%nat).
  { assert (Hp1 : getParentCell g1 cell = getParentCell g cell) by done.
    unfold g2. rewrite Hp1.
    destruct (getParentCell g cell) as [pc|] eqn:Hpc.
    - assert (Hnot : id ∉ with_parent_ids (unembed id g1)).
      { rewrite elem_of_with_parent_ids. intros (c & Hc & Hcid & Hp).
        unfold unembed in Hc. simpl in Hc.
        apply list_elem_of_fmap in Hc as (c0 & -> & Hc0).
        case_bool_decide as Hc0id.
        - destruct (without_parent_shape c0) as (_ & _ & _ & _ & Hnone).
          unfold getParentCell in Hp. rewrite Hnone in Hp. by destruct Hp.
        - done. }
      assert (Hfol : follows true (unembed id g1) g).
      { eapply follows_trans; [apply follows_unembed|].
        by apply follows_cells. }
      split; [apply index_matches_unembed;
              by apply (index_matches_ext P g g1)|].
      split; [done|]. split; [by rewrite unembed_ids|]. split; [done|].
      assert (Hin0 : id ∈ with_parent_ids g) by (by apply Hwp).
      unfold e. rewrite decide_True by done.
      assert (Hsub : with_parent_ids (unembed id g1)
                     ⊆ with_parent_ids g ∖ {[id]}).
      { pose proof (follows_with_parent _ _ _ Hfol). set_solver. }
      apply subseteq_size in Hsub.
      rewrite size_difference in Hsub by set_solver.
      rewrite size_singleton in Hsub.
      assert (size (with_parent_ids g) ≠ 0%nat); [|lia].
      intros Hz. apply size_empty_inv in Hz. set_solver.
    - split; [by apply (index_matches_ext P g g1)|].
      split; [by apply follows_cells|]. split; [done|].
      assert (Hnin : id ∉ with_parent_ids g).
      { intros Hx. apply Hwp in Hx. by destruct Hx. }
      split.
      + intros Hx. apply Hnin. revert Hx.
        rewrite !elem_of_with_parent_ids. done.
      + unfold e. rewrite decide_False by done.
        assert (with_parent_ids g1 = with_parent_ids g) as -> by done. lia. }
  destruct H2 as (Hinv2 & Hf2 & Hids2 & Hnot2 & Hsize2).
  assert (Htop2 : pending_top P g2) by (by eapply pending_top_follows).
  assert (Hlive2 : live_count P g2 = live_count P g)
    by (by apply live_count_cells).
  assert (Hpos : (live_count ({[id]} ∪ P) g < live_count P g)%nat)
    by (by apply live_count_taken).
  assert (Hsome2 : is_Some (getCell g2 id)).
  { destruct (getCell g2 id) eqn:Hg2; [done|].
    apply getCell_None in Hg2. by rewrite Hids2 in Hg2. }
  clearbody g2. clear g1.
  (* the embedded cells *)
  destruct (remove_loop (cell_remove_fuel fuel) P opt E
              (getEmbeddedCells g2 cell) g2)
    as (g3 & Hr3 & Hinv3 & Htop3 & Hf3 & _ & Hends3); [ | done | done | done | ].
  { intros g0 c Hc Hi0 Ht0 Hf0.
    apply list_elem_of_filter in Hc as [Hpar Hc].
    assert (Hcwp : cell_id c ∈ with_parent_ids g2).
    { apply elem_of_with_parent_ids. exists c. split; [done|]. split; [done|].
      unfold getParentCell. by rewrite Hpar, Hid. }
    apply IH; [done | done | |].
    - intros HcP. specialize (Htop2 c Hc HcP).
      apply elem_of_with_parent_ids in Hcwp as (c1 & Hc1 & Hc1id & Hp1).
      assert (c1 = c) as ->.
      { pose proof (im_ids _ _ Hinv2) as Hnd2.
        pose proof (getCell_elem_of _ _ Hnd2 Hc1) as H1.
        pose proof (getCell_elem_of _ _ Hnd2 Hc) as H2.
        rewrite Hc1id in H1. congruence. }
      rewrite Htop2 in Hp1. by destruct Hp1.
    - unfold remove_weight in *. fold e in Hfuel.
      pose proof (follows_live_count _ P _ _ Hf0) as Hl0.
      pose proof (follows_with_parent _ _ _ Hf0) as Hw0.
      pose proof (subseteq_size _ _ Hw0) as Hs0.
      destruct (decide (cell_id c ∈ with_parent_ids g0)) as [Hc0|Hc0].
      + unfold e in *. destruct (decide (id ∈ with_parent_ids g)); lia.
      + assert (Hlt : (size (with_parent_ids g0)
                       < size (with_parent_ids g2))%nat).
        { apply subset_size. set_solver. }
        unfold e in *. destruct (decide (id ∈ with_parent_ids g)); lia. }
  rewrite Hr3.
  assert (Hf3g : follows k g3 g).
  { eapply follows_trans; [exact Hf3|]. by apply follows_weaken. }
  assert (Hends3g : E → ends_stay P g g3).
  { intros HEv. pose proof (HEk HEv) as Hd. unfold k in *.
    rewrite Hd in Hf3. simpl in Hf3.
    eapply ends_stay_trans; [exact Hf3 | by apply ends_stay_ids | by apply Hends3]. }
  assert (Hlast : ∀ g4,
    index_matches P g4 → pending_top P g4 → follows k g4 g3 →
    getCell g4 id = None → (E → ends_stay P g3 g4) →
    index_matches P (stopBatch "remove" g4)
    ∧ pending_top P (stopBatch "remove" g4)
    ∧ follows k (stopBatch "remove" g4) g
    ∧ getCell (stopBatch "remove" g4) id = None
    ∧ (E → ends_stay P g (stopBatch "remove" g4))).
  { intros g4 Hi4 Ht4 Hf4 Hg4 He4.
    split; [by apply (index_matches_ext P g4)|].
    split; [by apply (pending_top_cells P g4)|].
    split; [eapply follows_trans; [by apply follows_cells|];
            by eapply follows_trans|].
    split; [done|].
    intros HEv. pose proof (HEk HEv) as Hd. unfold k in *.
    rewrite Hd in Hf4. simpl in Hf4.
    eapply ends_stay_trans; [exact Hf4 | by apply Hends3g |].
    intros l x Hl. apply (He4 HEv l x). done. }
  destruct (getCell g3 id) as [live|] eqn:Hlive.
  2: { eexists. split; [done|]. apply Hlast; try done.
       - apply follows_refl.
       - intros _. by apply ends_stay_ids. }
  pose proof (getCell_Some _ _ _ Hlive) as [Hlid Hlin].
  set (P' := {[id]} ∪ P).
  set (g3r := _restructureOnRemove live g3).
  assert (Hcells3r : cellCollection g3r = cellCollection g3)
    by apply restructureOnRemove_cells.
  assert (Hinv3r : index_matches P' g3r).
  { unfold P'. rewrite <- Hlid.
    apply index_matches_restructureOnRemove; [done|]. by rewrite Hlid. }
  assert (Hnot3 : id ∉ with_parent_ids g3).
  { intros Hx. apply Hnot2. by apply (follows_with_parent _ _ _ Hf3). }
  assert (Htop3r : pending_top P' g3r).
  { apply (pending_top_cells P' g3); [done|].
    intros c Hc HcP. apply elem_of_union in HcP as [HcP|HcP]; [|by apply Htop3].
    apply elem_of_singleton in HcP.
    destruct (getParentCell g3 c) eqn:Hpc; [|done].
    destruct Hnot3. apply elem_of_with_parent_ids. exists c.
    by rewrite Hpc. }
  assert (Hfinish : ∀ g4,
    index_matches P' g4 → pending_top P' g4 → follows k g4 g3r →
    index_matches P (collection_remove_silent live g4)
    ∧ pending_top P (collection_remove_silent live g4)
    ∧ follows k (collection_remove_silent live g4) g3
    ∧ getCell (collection_remove_silent live g4) id = None).
  { intros g4 Hi4 Ht4 Hf4. split; [|split; [|split]].
    - eapply index_matches_eq; [|apply index_matches_remove_silent; [done|]].
      + unfold P'. rewrite Hlid. set_solver.
      + unfold P'. rewrite Hlid. set_solver.
    - eapply (pending_top_follows true); [apply follows_remove_silent|].
      eapply pending_top_mono; [|exact Ht4]. unfold P'. set_solver.
    - eapply follows_trans; [apply follows_remove_silent|].
      eapply follows_trans; [exact Hf4|]. by apply follows_cells.
    - rewrite getCell_remove_silent, Hlid. by rewrite decide_True. }
  unfold on_remove, _removeCell, mbindM, mdo. cbv beta iota. fold g3r.
  destruct (opt_clear opt) eqn:Hclear.
  { unfold mpure. cbv beta iota. eexists. split; [done|].
    destruct (Hfinish g3r) as (? & ? & ? & ?);
      [done | done | apply follows_refl |].
    apply Hlast; try done. by intros [? _]. }
  destruct (attached_links_spec _ _ live Hinv3r) as (Hcl & _ & _ & Hmem).
  destruct (opt_disconnectLinks opt) eqn:Hdis.
  - unfold disconnectLinks. rewrite Hcl.
    rewrite forEachM_Some, forEachM_mdo. cbv beta iota.
    destruct (disconnect_loop P' g3r live
                (attached_links g3r (cell_id live)))
      as [Hinv4 Hids4]; [done| |].
    { intros l Hl. apply Hmem in Hl as (? & ? & ? & _). eauto. }
    eexists. split; [done|].
    destruct (Hfinish _ Hinv4) as (? & ? & ? & ?).
    + eapply pending_top_follows; [apply follows_disconnect | done].
    + apply follows_disconnect.
    + apply Hlast; try done. by intros [_ ?].
  - unfold removeLinks. rewrite Hcl. rewrite forEachM_Some.
    destruct (remove_loop (cell_remove_fuel fuel) P' opt
                (opt_clear opt = false ∧ opt_disconnectLinks opt = false)
                (attached_links g3r (cell_id live)) g3r)
      as (g4 & Hr4 & Hinv4 & Htop4 & Hf4 & Hgone4 & Hends4);
      [ | done | done | by intros [_ ?] | ].
    { intros g0 l Hl Hi0 Ht0 Hf0.
      apply IH; [done | done | |].
      - by apply Hmem in Hl as (? & ? & ? & _).
      - unfold remove_weight in *. fold e in Hfuel.
        pose proof (follows_live_count _ P' _ _ Hf0) as Hl0.
        pose proof (subseteq_size _ _ (follows_with_parent _ _ _ Hf0)) as Hs0.
        pose proof (subseteq_size _ _ (follows_with_parent _ _ _ Hf3)) as Hs3.
        assert (Hl3 : (live_count P' g3r < live_count P g3)%nat).
        { rewrite (live_count_cells P' g3 g3r) by (by rewrite Hcells3r).
          apply live_count_taken; [|done]. rewrite <- Hlid.
          apply list_elem_of_fmap. eauto. }
        pose proof (follows_live_count _ P _ _ Hf3) as Hl32.
        assert (with_parent_ids g3r = with_parent_ids g3) as Hw3r.
        { unfold with_parent_ids. rewrite Hcells3r. do 2 f_equal.
          apply list_filter_iff. intros c.
          by rewrite (getParentCell_cells g3 g3r c Hcells3r). }
        rewrite Hw3r in Hs0.
        unfold e in *. destruct (decide (id ∈ with_parent_ids g));
          destruct (decide (cell_id l ∈ with_parent_ids g0)); lia. }
    rewrite Hr4. cbv beta iota. eexists. split; [done|].
    rewrite Hdis in Hf4.
    destruct (Hfinish g4) as (? & ? & ? & ?); [done | done | done |].
    apply Hlast; try done.
    intros HEv l x Hl Hk HlP Hend Hx. simpl in Hf4.
    unfold collection_remove_silent in Hl. simpl in Hl.
    apply list_elem_of_filter in Hl as [Hlne Hl].
    assert (HlP' : cell_id l ∉ P').
    { unfold P'. rewrite <- Hlid. set_solver. }
    assert (Hx4 : x ∈ cell_id <$> cellCollection g4).
    { apply (Hends4 (conj Hclear Hdis) l x); try done. by rewrite Hcells3r. }
    rewrite remove_silent_ids. apply list_elem_of_filter. split; [|done].
    intros ->.
    destruct (proj2 Hf4 l Hl) as (l0 & Hl0 & Hl0id & Hl0k & _ & He0).
    destruct (He0 eq_refl) as [Hs0 Ht0].
    assert (Hatt : l0 ∈ attached_links g3r (cell_id live)).
    { apply Hmem. split.
      - apply getCell_elem_of; [apply (im_ids _ _ Hinv3r) | done].
      - split; [by rewrite Hl0id|]. split.
        + unfold isLink in *. by rewrite Hl0k.
        + by rewrite <- Hs0, <- Ht0. }
    specialize (Hgone4 l0 Hatt). apply getCell_None in Hgone4.
    apply Hgone4. rewrite Hl0id. apply list_elem_of_fmap. eauto.
Qed.

Lemma cell_remove_spec g id opt :
  index_ok g →
  ∃ g', cell_remove id opt g = (g', Ok tt) ∧ index_ok g'
        ∧ follows (negb (opt_disconnectLinks opt)) g' g
        ∧ getCell g' id = None
        ∧ (opt_clear opt = false ∧ opt_disconnectLinks opt = false
           → ends_stay ∅ g g').
Proof.
  intros Hok. unfold cell_remove.
  destruct (cell_remove_fuel_ok (remove_fuel g) ∅ g id opt)
    as (g' & Hr & Hok' & _ & Hf & Hgone & Hends);
    [done | by intros c _ ?%not_elem_of_empty | set_solver
    | apply remove_weight_bound |].
  exists g'. done.
Qed.

Lemma cell_remove_ok g id opt :
  index_ok g →
  ∃ g', cell_remove id opt g = (g', Ok tt) ∧ index_ok g'
        ∧ sublist (cell_id <$> cellCollection g') (cell_id <$> cellCollection g)
        ∧ getCell g' id = None.
Proof.
  intros Hok.
  destruct (cell_remove_spec g id opt Hok) as (g' & Hr & Hok' & Hf & Hgone & _).
  exists g'. split; [done|]. split; [done|]. split; [apply Hf | done].
Qed.
(** ** The index under every sequence of operations *)

Lemma index_ok_foldl_add cells : ∀ g,
  index_ok g → index_ok (foldl (λ acc c, collection_add c acc) g cells).
Proof.
  induction cells as [|c cells IH]; intros g Hok; [done|].
  simpl. apply IH. by apply index_ok_collection_add.
Qed.

Lemma index_ok_collection_reset cells g : index_ok (collection_reset cells g).
Proof.
  destruct (reset_rebuild g cells) as (Hc & Ho & Hi & Hn & He & _).
  eapply index_matches_ext; [symmetry; exact Hc | |].
  - unfold index_of. by rewrite Ho, Hi, Hn, He.
  - apply index_ok_foldl_add, index_ok_initialize.
Qed.

Lemma reachable_index_ok g : reachable g → index_ok g.
Proof.
  induction 1 as [|g op g' _ IH Happ Hrun]; [apply index_ok_initialize|].
  destruct op as [cell|id opt|cells|id e|id e]; simpl in *.
  - injection Hrun as <-. by apply index_ok_collection_add.
  - destruct (cell_remove_ok g id opt IH) as (g'' & Hr & Hok & _).
    rewrite Hr in Hrun. by injection Hrun as <-.
  - injection Hrun as <-. apply index_ok_collection_reset.
  - injection Hrun as <-. destruct Happ as (_ & link & Hl & Hk).
    eapply index_matches_cell_set; eauto. set_solver.
  - injection Hrun as <-. destruct Happ as (_ & link & Hl & Hk).
    eapply index_matches_cell_set; eauto. set_solver.
Qed.

Lemma run_op_succeeds g op :
  index_ok g → ∃ g', run_op op g = (g', Ok tt).
Proof.
  intros Hok. destruct op as [cell|id opt|cells|id e|id e]; simpl;
    try (eexists; reflexivity).
  destruct (cell_remove_ok g id opt Hok) as (g' & Hr & _). eauto.
Qed.
Lemma reachable_after g op :
  reachable g → applies op g → (run_op op g).2 = Ok tt →
  reachable (after (run_op op) g).
Proof.
  intros Hr Ha Hok. unfold after.
  destruct (run_op op g) as [g' r] eqn:Hrun. simpl in *. subst.
  by eapply reachable_op.
Qed.

(** a graph given as operations run from the graph of [initialize] *)
#[local] Ltac by_operations :=
  repeat (apply reachable_after;
          [ | first [exact I | reflexivity] | vm_compute; reflexivity ]);
  apply reachable_initialize.

Lemma elem_of_getCell g c :
  NoDup (cell_id <$> cellCollection g) →
  c ∈ cellCollection g ↔ getCell g (cell_id c) = Some c.
Proof.
  intros Hnd. split; [by apply getCell_elem_of|].
  by intros [_ ?]%getCell_Some.
Qed.

(** C1, as the code has it.  After every sequence of add, remove, reset
    and endpoint-change operations on cells and ends whose ids name no
    member of [Object.prototype]: a link whose source (target) carries a
    non-empty id has its id in the [_out] ([_in]) bucket of that id, whether
    or not a cell of that id is in the collection; every other cell has its
    id in [_nodes] and every link in [_edges]; and an id found inside a
    bucket, in [_nodes] or in [_edges] is the id of a cell that is in the
    collection, of the right class and with that endpoint, so that a removed
    cell is left in none of them.  Every further operation ends without an
    exception.  (The keys of [_out] and [_in] are the ids that endpoints
    carry, and may name cells that are absent.) *)
Theorem index_consistency (g : Graph) (Hreach : reachable g) :
  (∀ c s, c ∈ cellCollection g → isLink c = true →
          truthy_id (source c) = Some s → cell_id c ∈ getOutboundEdges g s)
  ∧ (∀ c t, c ∈ cellCollection g → isLink c = true →
            truthy_id (target c) = Some t → cell_id c ∈ getInboundEdges g t)
  ∧ (∀ c, c ∈ cellCollection g → isLink c = false → cell_id c ∈ _nodes g)
  ∧ (∀ c, c ∈ cellCollection g → isLink c = true → cell_id c ∈ _edges g)
  ∧ (∀ k id, id ∈ getOutboundEdges g k →
       ∃ c, c ∈ cellCollection g ∧ cell_id c = id ∧ isLink c = true
            ∧ truthy_id (source c) = Some k)
  ∧ (∀ k id, id ∈ getInboundEdges g k →
       ∃ c, c ∈ cellCollection g ∧ cell_id c = id ∧ isLink c = true
            ∧ truthy_id (target c) = Some k)
  ∧ (∀ id, id ∈ _nodes g →
       ∃ c, c ∈ cellCollection g ∧ cell_id c = id ∧ isLink c = false)
  ∧ (∀ id, id ∈ _edges g →
       ∃ c, c ∈ cellCollection g ∧ cell_id c = id ∧ isLink c = true)
  ∧ (∀ op, applies op g → ∃ g', run_op op g = (g', Ok tt) ∧ reachable g').
Proof.
  pose proof (reachable_index_ok g Hreach) as Hok.
  destruct Hok as [Hids Hout Hin Hn He Hndo Hndi].
  assert (Hlook : ∀ c, c ∈ cellCollection g → getCell g (cell_id c) = Some c)
    by (intros c; by apply getCell_elem_of).
  repeat split.
  - intros c s Hc Hl Hs. apply Hout. split; [set_solver|]. eauto.
  - intros c t Hc Hl Ht. apply Hin. split; [set_solver|]. eauto.
  - intros c Hc Hl. apply Hn. split; [set_solver|]. eauto.
  - intros c Hc Hl. apply He. split; [set_solver|]. eauto.
  - intros k id (_ & c & Hc & ? & ?)%Hout.
    apply getCell_Some in Hc as [? ?]. eauto.
  - intros k id (_ & c & Hc & ? & ?)%Hin.
    apply getCell_Some in Hc as [? ?]. eauto.
  - intros id (_ & c & Hc & ?)%Hn. apply getCell_Some in Hc as [? ?]. eauto.
  - intros id (_ & c & Hc & ?)%He. apply getCell_Some in Hc as [? ?]. eauto.
  - intros op Happ.
    destruct (run_op_succeeds g op (reachable_index_ok g Hreach)) as [g' Hr].
    exists g'. split; [done|]. by eapply reachable_op.
Qed.

Lemma reachable_graph_after_disconnect : reachable graph_after_disconnect.
Proof.
  unfold graph_after_disconnect.
  by_operations.
Qed.

Lemma index_consistency_witness :
  "l" ∈ getInboundEdges graph_after_disconnect "a"
  ∧ ∀ id, id ∈ _nodes graph_after_disconnect →
          ∃ c, c ∈ cellCollection graph_after_disconnect
               ∧ cell_id c = id ∧ isLink c = false.
Proof.
  pose proof (index_consistency graph_after_disconnect
                reachable_graph_after_disconnect)
    as (_ & Hin & _ & _ & _ & _ & Hn & _).
  split; [|exact Hn].
  apply (Hin (mkCell "l" Link
           (<[ "source" := VEnd origin_point ]>
              (attributes (link_cell "l" "a" "a"))))).
  - vm_compute. left.
  - reflexivity.
  - reflexivity.
Defined.

(** C1, as it was claimed: the index does name cells that are not in the
    collection.  A link that is added keeps its id under the ids that its
    ends carry, although no cell of that id was ever added; and an element
    removed with [disconnectLinks] stays the key of the bucket that holds
    its loop. *)
Lemma index_names_absent_cell :
  (reachable graph_with_dangling_link
   ∧ index_mentions graph_with_dangling_link "ghost"
   ∧ getCell graph_with_dangling_link "ghost" = None
   ∧ ¬ index_names_present graph_with_dangling_link)
  ∧ (reachable graph_after_disconnect
     ∧ index_mentions graph_after_disconnect "a"
     ∧ getCell graph_after_disconnect "a" = None
     ∧ ¬ index_names_present graph_after_disconnect).
Proof.
  split.
  - assert (Hm : index_mentions graph_with_dangling_link "ghost").
    { left. vm_compute. reflexivity. }
    split; [|split; [done|split; [done|]]].
    + unfold graph_with_dangling_link.
      apply reachable_after; [apply reachable_initialize | reflexivity | done].
    + intros Hp. by destruct (Hp "ghost" Hm).
  - assert (Hm : index_mentions graph_after_disconnect "a").
    { right. left. vm_compute. reflexivity. }
    split; [apply reachable_graph_after_disconnect|].
    split; [done|]. split; [done|].
    intros Hp. by destruct (Hp "a" Hm).
Qed.
(** ** A loop on a cell removed with [disconnectLinks] *)

Lemma no_member_nil {A} (l : list A) : (∀ x, x ∉ l) → l = [].
Proof.
  destruct l as [|a l]; [done|]. intros H. destruct (H a). left.
Qed.

Lemma getCell_cell_set_other id patch g l :
  l ≠ id → getCell (cell_set id patch g) l = getCell g l.
Proof.
  intros Hne. destruct (getCell g id) as [old|] eqn:Hold.
  - rewrite (getCell_cell_set _ _ _ old) by done. by rewrite decide_False.
  - unfold cell_set. by rewrite Hold.
Qed.

Lemma disconnect_others model ls : ∀ g id,
  id ∉ cell_id <$> ls →
  getCell (foldl (λ g l, disconnect_link model l g) g ls) id = getCell g id.
Proof.
  induction ls as [|l ls IH]; intros g id Hid; [done|].
  rewrite fmap_cons, not_elem_of_cons in Hid. destruct Hid as [Hne Hid].
  simpl. rewrite IH by done. unfold disconnect_link.
  by apply getCell_cell_set_other.
Qed.

Lemma truthy_id_Some e id : ep_id e = Some id → id ≠ "" → truthy_id e = Some id.
Proof. unfold truthy_id. intros -> Hne. by rewrite decide_False. Qed.

(** [cell.remove(opt)] for a cell in which no cell is embedded: the cell
    loses its parent, when it has one, and announces its removal *)
Lemma cell_remove_childless g id e opt :
  getCell g id = Some e → getEmbeddedCells g e = [] →
  ∃ g2 e2,
    cell_remove id opt g
    = match on_remove (cell_remove_fuel (4 * length (cellCollection g)))
                      e2 opt g2 with
      | (g4, Ok _) => (stopBatch "remove" g4, Ok tt)
      | (g4, Throw err) => (g4, Throw err)
      end
    ∧ getCell g2 id = Some e2
    ∧ (e2 = e ∨ e2 = without_parent e)
    ∧ (∀ id', id' ≠ id → getCell g2 id' = getCell g id')
    ∧ (∀ P, index_matches P g → index_matches P g2)
    ∧ index_of g2 = index_of g.
Proof.
  intros He Hemb. pose proof (getCell_Some _ _ _ He) as [Hid Hin].
  assert (Hnone : ∀ c, c ∈ cellCollection g →
                       truthy_parent c ≠ Some (cell_id e)).
  { intros c Hc Hp.
    assert (Hx : c ∈ getEmbeddedCells g e) by (by apply list_elem_of_filter).
    rewrite Hemb in Hx. by apply elem_of_nil in Hx. }
  set (g1 := startBatch "remove" g).
  set (g2 := match getParentCell g1 e with
             | Some _ => unembed id g1
             | None => g1
             end).
  assert (Hemb2 : getEmbeddedCells g2 e = []).
  { apply no_member_nil. intros c [Hp Hc]%list_elem_of_filter.
    unfold g2 in Hc. destruct (getParentCell g1 e) as [pc|].
    - unfold unembed in Hc. simpl in Hc.
      apply list_elem_of_fmap in Hc as (c0 & -> & Hc0).
      case_bool_decide.
      + destruct (without_parent_shape c0) as (_ & _ & _ & _ & Hwp).
        by rewrite Hwp in Hp.
      + by apply (Hnone c0).
    - by apply (Hnone c). }
  assert (H2 : ∃ e2, getCell g2 id = Some e2
                     ∧ (e2 = e ∨ e2 = without_parent e)
                     ∧ (∀ id', id' ≠ id → getCell g2 id' = getCell g id')
                     ∧ (∀ P, index_matches P g → index_matches P g2)
                     ∧ index_of g2 = index_of g).
  { unfold g2. destruct (getParentCell g1 e) as [pc|].
    - exists (without_parent e). split.
      { rewrite getCell_unembed, decide_True by done.
        change (getCell g1 id) with (getCell g id). by rewrite He. }
      split; [by right|]. split.
      { intros id' Hne. by rewrite getCell_unembed, decide_False. }
      split; [|done].
      intros P HP. apply index_matches_unembed.
      by apply (index_matches_ext P g g1).
    - exists e. split; [done|]. split; [by left|]. split; [done|].
      split; [|done].
      intros P HP. by apply (index_matches_ext P g g1). }
  destruct H2 as (e2 & Hg2 & He2 & Hother & Hinv & Hidx).
  exists g2, e2. split; [|done].
  unfold cell_remove, remove_fuel. simpl cell_remove_fuel. rewrite He.
  unfold mbindM at 1 2 3 4, mdo at 1 2 3. cbv beta iota.
  fold g1. fold g2. rewrite Hemb2. simpl forEachM. unfold mpure.
  cbv beta iota. by rewrite Hg2.
Qed.

(** a loop on a cell whose removal with [disconnectLinks] is announced *)
Lemma on_remove_disconnect_loop remove g e l :
  index_ok g → getCell g (cell_id e) = Some e →
  getCell g (cell_id l) = Some l → isLink l = true →
  ep_id (source l) = Some (cell_id e) → ep_id (target l) = Some (cell_id e) →
  cell_id e ≠ "" → cell_id l ≠ cell_id e →
  ∃ g' l',
    on_remove remove e (mkOpt false true) g = (g', Ok tt)
    ∧ getCell g' (cell_id e) = None
    ∧ getCell g' (cell_id l) = Some l'
    ∧ attributes l' = <["source" := VEnd origin_point]> (attributes l)
    ∧ source l' = origin_point
    ∧ target l' = target l
    ∧ ep_id (target l') = Some (cell_id e).
Proof.
  intros Hok Hge Hgl Hlink Hs Ht Hid Hne.
  unfold on_remove, _removeCell, mbindM, mdo. simpl.
  set (g1 := _restructureOnRemove e g).
  assert (Hinv1 : index_matches ({[cell_id e]} ∪ ∅) g1)
    by (by apply index_matches_restructureOnRemove).
  destruct (attached_links_spec _ _ e Hinv1) as (Hcl & _ & Hndl & Hmem).
  unfold disconnectLinks. rewrite Hcl, forEachM_Some, forEachM_mdo.
  set (ls := attached_links g1 (cell_id e)) in *.
  assert (Hin : l ∈ ls).
  { apply Hmem. unfold g1. rewrite getCell_restructureOnRemove.
    split; [done|]. split; [set_solver|]. split; [done|]. left.
    by apply truthy_id_Some. }
  apply list_elem_of_split in Hin as (pre & post & Hls).
  rewrite Hls in Hndl. rewrite fmap_app, fmap_cons in Hndl.
  apply NoDup_app in Hndl as (_ & Hpre & Hpost).
  apply NoDup_cons in Hpost as [Hpost _].
  assert (Hpre' : cell_id l ∉ cell_id <$> pre).
  { intros Hp. apply (Hpre _ Hp). left. }
  set (l' := mkCell (cell_id l) Link
               (<["source" := VEnd origin_point]> (attributes l))).
  exists (collection_remove_silent e
            (foldl (λ g0 l0, disconnect_link e l0 g0) g1 ls)), l'.
  split; [done|]. split.
  { rewrite getCell_remove_silent. by rewrite decide_True. }
  split.
  { rewrite getCell_remove_silent, decide_False by done.
    rewrite Hls, foldl_app. simpl.
    rewrite disconnect_others by done.
    set (g2 := foldl _ g1 pre).
    assert (Hg2 : getCell g2 (cell_id l) = Some l).
    { unfold g2. rewrite disconnect_others by done.
      unfold g1. by rewrite getCell_restructureOnRemove. }
    unfold disconnect_link. rewrite Hg2. simpl.
    rewrite bool_decide_eq_true_2 by done.
    rewrite (getCell_cell_set _ _ _ l) by done.
    rewrite decide_True by done. unfold patched, l'. f_equal. f_equal.
    - unfold isLink in Hlink. by destruct (cell_class l).
    - by rewrite insert_union_singleton_l. }
  split; [done|].
  unfold source, target, endpoint_attr, l'. simpl.
  rewrite lookup_insert_eq, lookup_insert_ne by done.
  split; [done|]. split; [done|].
  unfold target, endpoint_attr in Ht. done.
Qed.



(** ** A loop is listed once *)

Lemma truthy_id_ep_id e s : truthy_id e = Some s → ep_id e = Some s.
Proof.
  unfold truthy_id. destruct (ep_id e) as [s'|]; [|done].
  by destruct (decide (s' = "")); intros; simplify_eq.
Qed.

(** [hasLoop] returns for a link whose ends name cells of the
    collection *)
Lemma hasLoop_returns g d l :
  (∀ id, ep_id (source l) = Some id ∨ ep_id (target l) = Some id →
         is_Some (getCell g id)) →
  ∃ b, hasLoop g d l = Ok b.
Proof.
  intros Hres. unfold hasLoop.
  destruct (truthy_id (source l)) as [s|] eqn:Hs; [|eauto].
  destruct (truthy_id (target l)) as [t|] eqn:Ht; [|eauto].
  case_bool_decide; [eauto|]. destruct d; [|eauto].
  destruct (Hres s) as [se ->]; [left; by apply truthy_id_ep_id|].
  destruct (Hres t) as [te ->]; [right; by apply truthy_id_ep_id|]. eauto.
Qed.

Lemma hasLoop_same g d l s :
  truthy_id (source l) = Some s → truthy_id (target l) = Some s →
  hasLoop g d l = Ok true.
Proof.
  intros Hs Ht. unfold hasLoop. rewrite Hs, Ht.
  by rewrite bool_decide_eq_true_2.
Qed.

(** without [deep], a loop is a link with the same id at its two ends *)
Lemma hasLoop_shallow g l :
  hasLoop g false l = Ok true →
  ∃ s, truthy_id (source l) = Some s ∧ truthy_id (target l) = Some s.
Proof.
  unfold hasLoop.
  destruct (truthy_id (source l)) as [s|]; [|done].
  destruct (truthy_id (target l)) as [t|]; [|done].
  case_bool_decide; [|done]. subst. eauto.
Qed.

Lemma add_neighbor_cases g model opt gate loop ep res :
  (∀ id, ep_id ep = Some id → is_Some (getCell g id)) →
  ∃ res', add_neighbor g model opt gate loop ep res = Ok res'
    ∧ (res' = res
       ∨ ∃ id el, ep_id ep = Some id ∧ getCell g id = Some el
                  ∧ (id ∉ res.*1) ∧ res' = res ++ [(id, el)]).
Proof.
  intros Hres. unfold add_neighbor.
  destruct (ep_id ep) as [id|] eqn:Hep; [|eauto].
  destruct gate; simpl; [|eauto].
  unfold has_key. case_bool_decide as Hkey; simpl; [eauto|].
  destruct (Hres id eq_refl) as [el Hel]. rewrite Hel.
  destruct (isElement el); [|eauto].
  destruct (loop || _); [|eauto].
  eexists. split; [done|]. right. eauto 10.
Qed.

Lemma add_neighbor_loop g model opt ep res id el :
  ep_id ep = Some id → getCell g id = Some el → isElement el = true →
  ∃ res', add_neighbor g model opt true true ep res = Ok res'
          ∧ id ∈ res'.*1.
Proof.
  intros Hep Hel Helem. unfold add_neighbor. rewrite Hep. simpl.
  unfold has_key. case_bool_decide as Hkey; simpl; [eauto|].
  rewrite Hel, Helem. simpl. eexists. split; [done|].
  rewrite fmap_app. apply elem_of_app. right. simpl. left.
Qed.

Lemma res_ok_step g res res' :
  res_ok g res →
  (res' = res
   ∨ ∃ id el, getCell g id = Some el ∧ (id ∉ res.*1)
              ∧ res' = res ++ [(id, el)]) →
  res_ok g res' ∧ res.*1 ⊆ res'.*1.
Proof.
  intros [Hnd Hval] [->|(id & el & Hel & Hnew & ->)]; [done|].
  split; [split|].
  - rewrite fmap_app. apply NoDup_app. split; [done|]. split.
    + intros x Hx Hx'. simpl in Hx'. apply list_elem_of_singleton in Hx'.
      by subst.
    + apply NoDup_singleton.
  - intros k c [Hin|Hin]%elem_of_app; [by apply Hval|].
    apply list_elem_of_singleton in Hin. by simplify_eq.
  - rewrite fmap_app. set_solver.
Qed.

Lemma neighbors_fold g model opt inb outb (ms : list Cell) : ∀ res,
  (∀ m id, m ∈ ms → ep_id (source m) = Some id ∨ ep_id (target m) = Some id →
           is_Some (getCell g id)) →
  res_ok g res →
  ∃ res',
    foldM (λ res (link : option Cell),
             match link with
             | None => Throw (TypeError "link is undefined")
             | Some l =>
                 loop ← hasLoop g (deep opt) l;
                 res1 ← add_neighbor g model opt inb loop (source l) res;
                 add_neighbor g model opt outb loop (target l) res1
             end) res (Some <$> ms)
    = Ok res'
    ∧ res_ok g res' ∧ res.*1 ⊆ res'.*1.
Proof.
  induction ms as [|m ms IH]; intros res Hres Hok.
  - exists res. done.
  - csimpl.
    destruct (hasLoop_returns g (deep opt) m) as [b ->].
    { intros id Hid. by apply (Hres m); [left|]. }
    simpl.
    destruct (add_neighbor_cases g model opt inb b (source m) res)
      as (res1 & -> & Hc1).
    { intros id Hid. apply (Hres m); [left | by left]. }
    destruct (res_ok_step g res res1 Hok) as [Hok1 Hsub1].
    { destruct Hc1 as [?|(id & el & _ & ? & ? & ?)]; eauto 10. }
    simpl.
    destruct (add_neighbor_cases g model opt outb b (target m) res1)
      as (res2 & -> & Hc2).
    { intros id Hid. apply (Hres m); [left | by right]. }
    destruct (res_ok_step g res1 res2 Hok1) as [Hok2 Hsub2].
    { destruct Hc2 as [?|(id & el & _ & ? & ? & ?)]; eauto 10. }
    destruct (IH res2) as (res' & Hf & Hok' & Hsub'); [|done|].
    { intros m' id Hm'. apply Hres. by right. }
    exists res'. split; [done|]. split; [done|]. set_solver.
Qed.

Lemma neighbors_fold_loop g model opt outb (ms : list Cell) m0 id el :
  (∀ m id, m ∈ ms → ep_id (source m) = Some id ∨ ep_id (target m) = Some id →
           is_Some (getCell g id)) →
  m0 ∈ ms → hasLoop g (deep opt) m0 = Ok true →
  ep_id (source m0) = Some id →
  getCell g id = Some el → isElement el = true →
  ∀ res res', res_ok g res →
    foldM (λ res (link : option Cell),
             match link with
             | None => Throw (TypeError "link is undefined")
             | Some l =>
                 loop ← hasLoop g (deep opt) l;
                 res1 ← add_neighbor g model opt true loop (source l) res;
                 add_neighbor g model opt outb loop (target l) res1
             end) res (Some <$> ms)
    = Ok res' →
    id ∈ res'.*1.
Proof.
  intros Hres Hm0 Hloop Hs Hel Helem.
  induction ms as [|m ms IH]; intros res res' Hok Hf.
  { by apply elem_of_nil in Hm0. }
  csimpl in Hf.
  destruct (hasLoop_returns g (deep opt) m) as [b Hb].
  { intros id' Hid. by apply (Hres m); [left|]. }
  rewrite Hb in Hf. simpl in Hf.
  destruct (add_neighbor_cases g model opt true b (source m) res)
    as (res1 & Hr1 & Hc1).
  { intros id' Hid. apply (Hres m); [left | by left]. }
  destruct (res_ok_step g res res1 Hok) as [Hok1 Hsub1].
  { destruct Hc1 as [?|(id' & el' & _ & ? & ? & ?)]; eauto 10. }
  rewrite Hr1 in Hf. simpl in Hf.
  destruct (add_neighbor_cases g model opt outb b (target m) res1)
    as (res2 & Hr2 & Hc2).
  { intros id' Hid. apply (Hres m); [left | by right]. }
  destruct (res_ok_step g res1 res2 Hok1) as [Hok2 Hsub2].
  { destruct Hc2 as [?|(id' & el' & _ & ? & ? & ?)]; eauto 10. }
  rewrite Hr2 in Hf.
  apply elem_of_cons in Hm0 as [<-|Hm0].
  - destruct (add_neighbor_loop g model opt (source m0) res id el Hs Hel Helem)
      as (r & Hr & Hin).
    rewrite Hloop in Hb. injection Hb as <-.
    rewrite Hr1 in Hr. injection Hr as <-.
    destruct (neighbors_fold g model opt true outb ms res2)
      as (res'' & Hf' & _ & Hsub'); [|done|].
    { intros m' id' Hm'. apply Hres. by right. }
    rewrite Hf' in Hf. injection Hf as <-. set_solver.
  - eapply IH; [|done|exact Hok2|exact Hf].
    intros m' id' Hm'. apply Hres. by right.
Qed.
Lemma filter_none_elem_of {A} (P : A → Prop) `{!∀ x, Decision (P x)}
    (l : list A) :
  (∀ x, x ∈ l → ¬ P x) → filter P l = [].
Proof.
  induction l as [|a l IH]; intros Hnone; [done|].
  rewrite filter_cons, decide_False by (apply Hnone; left).
  apply IH. intros x Hx. apply Hnone. by right.
Qed.

Lemma listed_once {A} (f : A → string) (l : list A) x :
  NoDup (f <$> l) → x ∈ l → length (filter (λ y, f y = f x) l) = 1%nat.
Proof.
  induction l as [|a l IH]; intros Hnd Hin; [by apply elem_of_nil in Hin|].
  rewrite fmap_cons in Hnd. apply NoDup_cons in Hnd as [Ha Hnd].
  rewrite filter_cons. destruct (decide (f a = f x)) as [Heq|Hne].
  - simpl. f_equal. apply length_zero_iff_nil.
    apply filter_none_elem_of. intros y Hy Hfy. apply Ha.
    rewrite Heq, <- Hfy. apply list_elem_of_fmap. eauto.
  - apply elem_of_cons in Hin as [->|Hin]; [done|]. by apply IH.
Qed.



Lemma reachable_graph_with_loop : reachable graph_with_loop.
Proof.
  unfold graph_with_loop.
  by_operations.
Qed.

Lemma cells_graph_with_loop :
  cellCollection graph_with_loop
  = [element_cell "a"; element_cell "b";
     link_cell "l" "a" "a"; link_cell "m" "a" "b"].
Proof. vm_compute. reflexivity. Qed.

(** ** Replacing a cell *)

Lemma getCell_collection_add c g :
  getCell g (cell_id c) = None →
  getCell (collection_add c g) (cell_id c) = Some c.
Proof.
  intros Hnew. unfold collection_add. rewrite Hnew. fold (add_new c g).
  rewrite getCell_add_new by done. by rewrite decide_True.
Qed.

Lemma replaceCell_effect g cur new opt :
  cell_id (init_cell new) = cell_id cur →
  isString (replacementCellAttributes cur new !! "type") = true →
  ∃ c,
    _replaceCell cur new opt g
    = (stopBatch "replace-cell"
         (collection_add c
            (collection_remove_silent cur
               (_restructureOnRemove cur (startBatch "replace-cell" g)))),
       Ok tt)
    ∧ cell_id c = cell_id cur
    ∧ cell_class c
      = match new with
        | Model c0 => cell_class c0
        | Json c0 => match type_attr c0 with
                     | Some _ => cell_class c0
                     | None => cell_class cur
                     end
        end
    ∧ (attributes c = replacementCellAttributes cur new
       ∨ (replacementCellAttributes cur new !! "z" = None
          ∧ ∃ z, attributes c
                 = <["z" := VNum z]> (replacementCellAttributes cur new))).
Proof.
  intros Hid Htype.
  set (merged := replacementCellAttributes cur new) in *.
  unfold _replaceCell, mbindM, mdo, on_remove, _removeCell, mbindM, mdo, mpure.
  simpl. fold merged.
  destruct new as [c0|c0]; simpl in *;
    unfold addCell_single, _prepareCell; simpl;
    fold merged; unfold type_attr at 1; simpl; rewrite Htype; simpl;
    (destruct (merged !! "z") as [z|] eqn:Hz; simpl;
     [ eexists (mkCell _ _ _); split; [reflexivity|]; simpl;
       split; [done|]; split; [done|]; by left
     | eexists (mkCell _ _ _); split; [reflexivity|]; simpl;
       split; [done|]; split; [done|]; right; eauto ]).
Qed.

Lemma merged_attributes cur new (attrs : gmap string val) :
  attrs = replacementCellAttributes cur new
  ∨ (replacementCellAttributes cur new !! "z" = None
     ∧ ∃ z, attrs = <["z" := VNum z]> (replacementCellAttributes cur new)) →
  (∀ k v, attributes (init_cell new) !! k = Some v → attrs !! k = Some v)
  ∧ (∀ k v, attributes (init_cell new) !! k = None →
            attributes cur !! k = Some v → attrs !! k = Some v)
  ∧ (∀ k, k ≠ "z" → attrs !! k = replacementCellAttributes cur new !! k).
Proof.
  set (merged := replacementCellAttributes cur new).
  assert (Hm1 : ∀ k v, attributes (init_cell new) !! k = Some v →
                       merged !! k = Some v).
  { intros k v Hk. unfold merged, replacementCellAttributes.
    by apply lookup_union_Some_l. }
  assert (Hm2 : ∀ k v, attributes (init_cell new) !! k = None →
                       attributes cur !! k = Some v → merged !! k = Some v).
  { intros k v Hk Hc. unfold merged, replacementCellAttributes.
    rewrite lookup_union_r; done. }
  intros [->|(Hz & z & ->)]; [done|].
  split; [|split].
  - intros k v Hk. destruct (decide (k = "z")) as [->|Hne].
    + rewrite (Hm1 _ _ Hk) in Hz. done.
    + rewrite lookup_insert_ne by done. by apply Hm1.
  - intros k v Hk Hc. destruct (decide (k = "z")) as [->|Hne].
    + rewrite (Hm2 _ _ Hk Hc) in Hz. done.
    + rewrite lookup_insert_ne by done. by apply Hm2.
  - intros k Hne. by rewrite lookup_insert_ne.
Qed.

(** C6.  [_replaceCell] with a replacement that has the id of the current
    cell and, once merged, a string [type]: the cell stored under that id
    afterwards has every attribute of the replacement, every attribute of
    the current cell that the replacement does not give, and no other
    attribute, but for a [z] that [addCell] assigns when the merge has
    none. *)
Theorem replace_keeps_merged_attributes (g : Graph) (cur : Cell)
    (new : CellInit) (opt : Opt)
    (Hid : cell_id (init_cell new) = cell_id cur)
    (Htype : isString (replacementCellAttributes cur new !! "type") = true) :
  ∃ g' c,
    _replaceCell cur new opt g = (g', Ok tt)
    ∧ getCell g' (cell_id cur) = Some c
    ∧ (∀ k v, attributes (init_cell new) !! k = Some v →
              attributes c !! k = Some v)
    ∧ (∀ k v, attributes (init_cell new) !! k = None →
              attributes cur !! k = Some v → attributes c !! k = Some v)
    ∧ (∀ k, k ≠ "z" →
            attributes c !! k = replacementCellAttributes cur new !! k).
Proof.
  destruct (replaceCell_effect g cur new opt Hid Htype)
    as (c & Hr & Hc & _ & Hattrs).
  eexists _, c. split; [exact Hr|]. split.
  - rewrite (getCell_ext _ (collection_add c
       (collection_remove_silent cur
          (_restructureOnRemove cur (startBatch "replace-cell" g)))))
      by apply stopBatch_frame.
    rewrite <- Hc. apply getCell_collection_add.
    rewrite getCell_remove_silent. by rewrite decide_True.
  - by apply merged_attributes.
Qed.

Lemma replace_keeps_merged_attributes_witness :
  ∃ g' c,
    _replaceCell cell_A replacement_A no_option
      (after (resetCells [Json cell_A]) initialize) = (g', Ok tt)
    ∧ getCell g' "A" = Some c
    ∧ attributes c !! "type" = Some (VStr "T2")
    ∧ attributes c !! "x" = Some (VNum 1)
    ∧ attributes c !! "y" = Some (VNum 9).
Proof.
  destruct (replace_keeps_merged_attributes
              (after (resetCells [Json cell_A]) initialize)
              cell_A replacement_A no_option eq_refl eq_refl)
    as (g' & c & Hr & Hg & Hnew & Hold & _).
  exists g', c. split; [exact Hr|]. split; [exact Hg|].
  split; [|split].
  - apply Hnew. reflexivity.
  - apply Hold; reflexivity.
  - apply Hnew. reflexivity.
Defined.
(** ** Synchronizing cells *)

Lemma restructureOnAdd_element c g :
  isLink c = false →
  _out (_restructureOnAdd c g) = _out g ∧ _in (_restructureOnAdd c g) = _in g.
Proof. unfold _restructureOnAdd. by intros ->. Qed.

Lemma restructureOnRemove_element c g :
  isLink c = false →
  _out (_restructureOnRemove c g) = _out g
  ∧ _in (_restructureOnRemove c g) = _in g.
Proof. unfold _restructureOnRemove. by intros ->. Qed.

Lemma collection_add_element c g :
  isLink c = false →
  _out (collection_add c g) = _out g ∧ _in (collection_add c g) = _in g.
Proof.
  intros Hc. unfold collection_add. destruct (getCell g (cell_id c)); [done|].
  pose proof (restructureOnAdd_element c (set_cells (λ l, l ++ [c]) g) Hc)
    as [H1 H2].
  by rewrite H1, H2.
Qed.

Lemma getCell_collection_add_new c g id :
  getCell g (cell_id c) = None →
  getCell (collection_add c g) id
  = if decide (id = cell_id c) then Some c else getCell g id.
Proof.
  intros Hnew. unfold collection_add. rewrite Hnew. fold (add_new c g).
  by apply getCell_add_new.
Qed.

Lemma cell_set_no_endpoint id patch g :
  patch !! "source" = None → patch !! "target" = None →
  _out (cell_set id patch g) = _out g ∧ _in (cell_set id patch g) = _in g.
Proof.
  intros Hs Ht. unfold cell_set. destruct (getCell g id) as [old|]; [|done].
  by rewrite (attr_changed_None _ _ _ Hs), (attr_changed_None _ _ _ Ht).
Qed.

(** the removal, announced, of a cell that is not a link and to which no
    link is attached *)
Lemma on_remove_no_links remove g c opt :
  isLink c = false →
  getOutboundEdges g (cell_id c) = [] → getInboundEdges g (cell_id c) = [] →
  on_remove remove c opt g
  = (collection_remove_silent c (_restructureOnRemove c g), Ok tt).
Proof.
  intros Hk Ho Hi. set (id := cell_id c) in *.
  assert (Hid : cell_id c = id) by done. clearbody id.
  unfold on_remove, _removeCell, mbindM, mdo. simpl.
  destruct (opt_clear opt); [done|].
  destruct (restructureOnRemove_element c g Hk) as [Ho' Hi'].
  assert (Hcl : getConnectedLinks (_restructureOnRemove c g) no_opt c = Ok []).
  { rewrite getConnectedLinks_direct; try done.
    - unfold direct_edges, getOutboundEdges, getInboundEdges. simpl.
      rewrite Ho', Hi', Hid.
      unfold getOutboundEdges, getInboundEdges in Ho, Hi.
      by rewrite Ho, Hi.
    - unfold getOutboundEdges. rewrite Ho', Hid.
      unfold getOutboundEdges in Ho. rewrite Ho. apply NoDup_nil_2.
    - unfold getInboundEdges. rewrite Hi', Hid.
      unfold getInboundEdges in Hi. rewrite Hi. apply NoDup_nil_2. }
  destruct (opt_disconnectLinks opt).
  - unfold disconnectLinks. by rewrite Hcl.
  - unfold removeLinks. by rewrite Hcl.
Qed.

Lemma syncCell_existing g init opt cur :
  getCell g (cell_id (init_cell init)) = Some cur →
  isLink cur = false → isLink (init_cell init) = false →
  isString (type_attr (init_cell init)) = true →
  attributes (init_cell init) !! "source" = None →
  attributes (init_cell init) !! "target" = None →
  ∃ g' c,
    _syncCell init opt g = (g', Ok tt)
    ∧ _out g' = _out g ∧ _in g' = _in g
    ∧ (∀ id, getCell g' id
             = if decide (id = cell_id cur) then Some c else getCell g id)
    ∧ isLink c = false
    ∧ (attributes c = replacementCellAttributes cur init
       ∨ (replacementCellAttributes cur init !! "z" = None
          ∧ ∃ z, attributes c
                 = <["z" := VNum z]> (replacementCellAttributes cur init))).
Proof.
  intros Hcur Hk Hki Hty Hs Ht.
  pose proof (getCell_Some _ _ _ Hcur) as [Hid _].
  unfold _syncCell. rewrite Hcur.
  destruct (bool_decide _ && strict_neq _ _) eqn:Hneq.
  - assert (Hmt : isString (replacementCellAttributes cur init !! "type")
                  = true).
    { unfold replacementCellAttributes, type_attr in *.
      destruct (attributes (init_cell init) !! "type") as [v|] eqn:Hv;
        [|done].
      by rewrite (lookup_union_Some_l _ _ _ _ Hv). }
    destruct (replaceCell_effect g cur init opt (eq_sym Hid) Hmt)
      as (c & Hr & Hc & Hcls & Hattrs).
    assert (Hkc : isLink c = false).
    { unfold isLink in *. rewrite Hcls. destruct init as [c0|c0]; simpl in *.
      - done.
      - unfold type_attr in *.
        by destruct (attributes c0 !! "type"). }
    eexists _, c. split; [exact Hr|].
    set (g2 := collection_remove_silent cur
                 (_restructureOnRemove cur (startBatch "replace-cell" g))).
    assert (Hnone : getCell g2 (cell_id c) = None).
    { unfold g2. rewrite getCell_remove_silent, Hc. by rewrite decide_True. }
    destruct (collection_add_element c g2 Hkc) as [Ho Hi].
    destruct (restructureOnRemove_element cur
                (startBatch "replace-cell" g) Hk) as [Ho' Hi'].
    split; [|split; [|split; [|done]]].
    + rewrite stopBatch_out, Ho. unfold g2. simpl. rewrite Ho'.
      apply startBatch_out.
    + rewrite stopBatch_in, Hi. unfold g2. simpl. rewrite Hi'.
      apply startBatch_in.
    + intros id.
      rewrite (getCell_ext _ (collection_add c g2))
        by apply stopBatch_cells.
      rewrite getCell_collection_add_new by done. rewrite Hc.
      destruct (decide (id = cell_id cur)) as [->|Hne]; [done|].
      unfold g2. rewrite getCell_remove_silent, decide_False by done.
      rewrite getCell_restructureOnRemove.
      apply getCell_ext, startBatch_cells.
  - eexists _, (patched cur (attributes (init_cell init))).
    split; [done|].
    destruct (cell_set_no_endpoint (cell_id cur) (attributes (init_cell init))
                g Hs Ht) as [Ho Hi].
    split; [done|]. split; [done|]. split; [|split; [done|by left]].
    intros id. apply getCell_cell_set. by rewrite Hid.
Qed.

Lemma syncCell_new g init opt :
  getCell g (cell_id (init_cell init)) = None →
  isLink (init_cell init) = false →
  isString (type_attr (init_cell init)) = true →
  ∃ g' c,
    _syncCell init opt g = (g', Ok tt)
    ∧ _out g' = _out g ∧ _in g' = _in g
    ∧ (∀ id, getCell g' id
             = if decide (id = cell_id (init_cell init)) then Some c
               else getCell g id)
    ∧ isLink c = false
    ∧ (attributes c = attributes (init_cell init)
       ∨ (attributes (init_cell init) !! "z" = None
          ∧ ∃ z, attributes c
                 = <["z" := VNum z]> (attributes (init_cell init)))).
Proof.
  intros Hnew Hk Hty. unfold _syncCell. rewrite Hnew.
  unfold addCell, addCell_single, _prepareCell. rewrite Hty. simpl.
  destruct (attributes (init_cell init) !! "z") as [z|] eqn:Hz.
  - eexists _, (init_cell init). split; [done|].
    destruct (collection_add_element (init_cell init) g Hk) as [Ho Hi].
    split; [done|]. split; [done|]. split; [|split; [done|by left]].
    intros id. by apply getCell_collection_add_new.
  - set (c := mkCell (cell_id (init_cell init)) (cell_class (init_cell init))
                (<["z" := VNum (maxZIndex g (layer_of (init_cell init)) + 1)]>
                   (attributes (init_cell init)))).
    exists (collection_add c g), c. split.
    { by destruct init. }
    destruct (collection_add_element c g Hk) as [Ho Hi].
    split; [done|]. split; [done|]. split; [|split; [done|right; eauto]].
    intros id. by apply (getCell_collection_add_new c).
Qed.

(** [cell.remove(opt)] for a cell that is not a link, to which no link
    is attached and in which no cell is embedded: the cell is gone and the
    other cells are as they were *)
Lemma cell_remove_alone g id c opt :
  getCell g id = Some c → isLink c = false →
  getOutboundEdges g id = [] → getInboundEdges g id = [] →
  getEmbeddedCells g c = [] →
  ∃ g', cell_remove id opt g = (g', Ok tt)
        ∧ ∀ id', getCell g' id'
                 = if decide (id' = id) then None else getCell g id'.
Proof.
  intros Hc Hk Ho Hi Hemb.
  destruct (cell_remove_childless g id c opt Hc Hemb)
    as (g2 & c2 & Hrun & Hg2 & Hc2 & Hother & _ & Hidx).
  pose proof (getCell_Some _ _ _ Hg2) as [Hid2 _].
  assert (Hk2 : isLink c2 = false).
  { destruct Hc2 as [->| ->]; [done|].
    by destruct (without_parent_shape c) as (_ & -> & _). }
  unfold index_of in Hidx. injection Hidx as Hout Hin _ _.
  rewrite (on_remove_no_links _ g2 c2 opt) in Hrun; [|done| |].
  - eexists. split; [exact Hrun|]. intros id'.
    change (getCell (stopBatch "remove" ?g0) id') with (getCell g0 id').
    rewrite getCell_remove_silent, Hid2. destruct (decide (id' = id)); [done|].
    rewrite getCell_restructureOnRemove. by apply Hother.
  - unfold getOutboundEdges in *. by rewrite Hid2, Hout.
  - unfold getInboundEdges in *. by rewrite Hid2, Hin.
Qed.

(** [_syncCell] keeps the index matching the collection *)
Lemma syncCell_index_ok init opt g g' :
  index_ok g →
  (is_Some (getCell g (cell_id (init_cell init))) →
   attributes (init_cell init) !! "source" = None
   ∧ attributes (init_cell init) !! "target" = None) →
  _syncCell init opt g = (g', Ok tt) → index_ok g'.
Proof.
  intros Hok Hends. unfold _syncCell.
  destruct (getCell g (cell_id (init_cell init))) as [cur|] eqn:Hcur.
  - pose proof (getCell_Some _ _ _ Hcur) as [Hid _].
    destruct Hends as [Hs Ht]; [done|].
    destruct (_ && _).
    + unfold _replaceCell, mbindM, mdo, on_remove, _removeCell, mbindM, mdo,
        mpure. simpl.
      set (g1 := collection_remove_silent cur
                   (_restructureOnRemove cur (startBatch "replace-cell" g))).
      assert (Hok1 : index_ok g1).
      { unfold g1. eapply index_matches_eq;
          [|apply index_matches_remove_silent;
            [apply index_matches_restructureOnRemove;
             [by apply index_ok_startBatch | by rewrite Hid] | set_solver]].
        set_solver. }
      unfold addCell_single.
      destruct (_prepareCell _ true g1) as [p|err]; [|done].
      intros [= <-]. by apply index_ok_stopBatch, index_ok_collection_add.
    + intros [= <-].
      apply (index_matches_cell_set _ _ _ _ cur);
        [done | by rewrite Hid | set_solver | by right].
  - unfold addCell, addCell_single.
    destruct (_prepareCell init true g) as [p|err]; [|done].
    intros [= <-]. by apply index_ok_collection_add.
Qed.

Lemma no_links_empty_buckets g :
  index_ok g → (∀ c, c ∈ cellCollection g → isLink c = false) →
  ∀ k, getOutboundEdges g k = [] ∧ getInboundEdges g k = [].
Proof.
  intros Hok Hno k. split; apply no_member_nil; intros l Hl.
  - apply (im_out _ _ Hok) in Hl as (_ & c & Hc & Hk & _).
    apply getCell_Some in Hc as [_ Hc]. rewrite (Hno c Hc) in Hk. done.
  - apply (im_in _ _ Hok) in Hl as (_ & c & Hc & Hk & _).
    apply getCell_Some in Hc as [_ Hc]. rewrite (Hno c Hc) in Hk. done.
Qed.

Lemma merged_parent cur new c :
  attributes c = replacementCellAttributes cur new
  ∨ (replacementCellAttributes cur new !! "z" = None
     ∧ ∃ z, attributes c = <["z" := VNum z]> (replacementCellAttributes cur new)) →
  truthy_parent c = truthy_parent (init_cell new)
  ∨ truthy_parent c = truthy_parent cur.
Proof.
  intros Hattrs.
  assert (Hp : attributes c !! "parent"
               = replacementCellAttributes cur new !! "parent").
  { destruct Hattrs as [->|(_ & z & ->)]; [done|]. by rewrite lookup_insert_ne. }
  unfold truthy_parent, parent_of. rewrite Hp.
  unfold replacementCellAttributes. rewrite lookup_union.
  destruct (attributes (init_cell new) !! "parent") as [v|]; [left|right].
  - by destruct (attributes cur !! "parent").
  - by destruct (attributes cur !! "parent").
Qed.

Lemma added_parent (init c : Cell) :
  attributes c = attributes init
  ∨ (attributes init !! "z" = None
     ∧ ∃ z, attributes c = <["z" := VNum z]> (attributes init)) →
  truthy_parent c = truthy_parent init.
Proof.
  intros Hattrs. unfold truthy_parent, parent_of.
  destruct Hattrs as [->|(_ & z & ->)]; [done|]. by rewrite lookup_insert_ne.
Qed.



Lemma index_ok_graph_A_B : index_ok graph_A_B.
Proof.
  eapply index_matches_ext;
    [ | | apply (index_ok_collection_reset
                   [valued_cell "A" 0; valued_cell "B" 2] initialize) ];
    vm_compute; reflexivity.
Qed.

(** ** The searches *)

Lemma resolve_in_collection g e c :
  resolve g e = Some c → c ∈ cellCollection g.
Proof.
  unfold resolve. destruct (truthy_id e); [|done].
  by intros [_ ?]%getCell_Some.
Qed.

Lemma add_neighbor_in_collection g model opt gate loop ep res res' :
  add_neighbor g model opt gate loop ep res = Ok res' →
  (∀ k c, (k, c) ∈ res → c ∈ cellCollection g) →
  ∀ k c, (k, c) ∈ res' → c ∈ cellCollection g.
Proof.
  unfold add_neighbor. intros Hadd Hres.
  destruct (ep_id ep) as [id|]; [|by simplify_eq].
  destruct (gate && negb (has_key id res)); [|by simplify_eq].
  destruct (getCell g id) as [el|] eqn:Hel; [|done].
  destruct (isElement el); [|by simplify_eq].
  destruct (loop || _); [|by simplify_eq].
  simplify_eq. intros k c [Hin|Hin]%elem_of_app; [by eapply Hres|].
  apply list_elem_of_singleton in Hin. simplify_eq.
  by apply getCell_Some in Hel as [_ ?].
Qed.

Lemma add_own_end_in_collection g gate c res :
  (∀ el, c = Some el → el ∈ cellCollection g) →
  (∀ k c, (k, c) ∈ res → c ∈ cellCollection g) →
  ∀ k c', (k, c') ∈ add_own_end gate c res → c' ∈ cellCollection g.
Proof.
  unfold add_own_end. intros Hc Hres. destruct c as [el|]; [|done].
  destruct (gate && isElement el && negb (has_key (cell_id el) res)); [|done].
  intros k c' [Hin|Hin]%elem_of_app; [by eapply Hres|].
  apply list_elem_of_singleton in Hin. simplify_eq. by apply Hc.
Qed.

Lemma getNeighbors_in_collection g model opt neighbors :
  getNeighbors g model opt = Ok neighbors →
  ∀ n, n ∈ neighbors → n ∈ cellCollection g.
Proof.
  unfold getNeighbors. destruct (directions opt) as [inb outb].
  destruct (getConnectedLinks g opt model) as [links|]; [|done]. simpl.
  set (step := λ (res : list (string * Cell)) (link : option Cell), _).
  assert (Hfold : ∀ links res res',
    foldM step res links = Ok res' →
    (∀ k c, (k, c) ∈ res → c ∈ cellCollection g) →
    ∀ k c, (k, c) ∈ res' → c ∈ cellCollection g).
  { clear links. induction links as [|link links IH]; intros res res' Hf Hres.
    - simpl in Hf. by simplify_eq.
    - simpl in Hf. destruct (step res link) as [res1|] eqn:Hstep; [|done].
      eapply IH; [done|]. unfold step in Hstep.
      destruct link as [l|]; [|done].
      destruct (hasLoop g (deep opt) l) as [loop|]; [|done]. simpl in Hstep.
      destruct (add_neighbor g model opt inb loop (source l) res)
        as [res0|] eqn:H0; [|done].
      simpl in Hstep.
      eapply add_neighbor_in_collection; [done|].
      by eapply add_neighbor_in_collection. }
  destruct (foldM step [] links) as [res|] eqn:Hf; [|done]. simpl.
  intros [= <-] n Hn.
  apply list_elem_of_fmap in Hn as ([k c] & -> & Hkc). simpl.
  assert (Hres : ∀ k c, (k, c) ∈ res → c ∈ cellCollection g).
  { eapply Hfold; [done|]. by intros ? ? ?%elem_of_nil. }
  destruct (isLink model); [|by eapply Hres].
  eapply add_own_end_in_collection; [| |done].
  - intros el. apply resolve_in_collection.
  - eapply add_own_end_in_collection; [|done].
    intros el. apply resolve_in_collection.
Qed.
Lemma search_weight_mono g opt cells v id :
  (search_weight g opt cells ({[id]} ∪ v) ≤ search_weight g opt cells v)%nat.
Proof.
  induction cells as [|c cells IH]; simpl; [done|].
  destruct (decide (cell_id c ∈ {[id]} ∪ v)), (decide (cell_id c ∈ v));
    try lia. set_solver.
Qed.

Lemma search_weight_visit g opt cells v c :
  c ∈ cells → cell_id c ∉ v →
  (search_weight g opt cells ({[cell_id c]} ∪ v) + S (fan_out g opt c)
   ≤ search_weight g opt cells v)%nat.
Proof.
  induction cells as [|c0 cells IH]; intros Hin Hv.
  - by apply elem_of_nil in Hin.
  - simpl. pose proof (search_weight_mono g opt cells v (cell_id c)) as Hm.
    apply elem_of_cons in Hin as [<-|Hin].
    + rewrite decide_True by set_solver. rewrite decide_False by done. lia.
    + specialize (IH Hin Hv).
      destruct (decide (cell_id c0 ∈ {[cell_id c]} ∪ v)),
        (decide (cell_id c0 ∈ v)); try lia. set_solver.
Qed.

Section search_facts.
Context {St : Type} (iteratee : St → Cell → nat → St * bool).
Context (g : Graph) (opt : QueryOpt).
Context (push : list Cell → list Cell → list Cell).
Context (Hpush : ∀ rest neighbors, push rest neighbors ≡ₚ rest ++ neighbors).
Context (cells : list Cell).
Context (expanded : Cell → Prop).
Context (Hcells : ∀ c, expanded c → c ∈ cells).
Context (Hneighbors : ∀ c, expanded c →
           ∃ ns, getNeighbors g c opt = Ok ns ∧ ∀ n, n ∈ ns → expanded n).

Lemma search_loop_returns fuel : ∀ s : Search,
  (∀ c, c ∈ queue s → expanded c) →
  (length (queue s) + search_weight g opt cells (visited s) < fuel)%nat →
  ∃ r, search_loop iteratee g opt push fuel s = Ok r.
Proof.
  induction fuel as [|fuel IH]; intros [q v dm a cs] Hq Hm; [lia|].
  simpl in *. destruct q as [|next rest]; [eauto|].
  assert (Hnext : expanded next) by (apply Hq; left).
  assert (Hrest : ∀ c, c ∈ rest → expanded c)
    by (intros c Hc; apply Hq; by right).
  simpl in Hm.
  destruct (decide (cell_id next ∈ v)) as [Hv|Hv].
  { apply IH; simpl; [done|lia]. }
  pose proof (search_weight_visit g opt cells v next (Hcells _ Hnext) Hv)
    as Hw.
  destruct (iteratee a next (default 0%nat (dm !! cell_id next)))
    as [a' [|]].
  - destruct (Hneighbors next Hnext) as (ns & Hns & Hmore).
    assert (Hfan : fan_out g opt next = length ns)
      by (unfold fan_out; by rewrite Hns).
    rewrite Hns. apply IH; simpl.
    + intros c Hc. rewrite Hpush in Hc.
      apply elem_of_app in Hc as [Hc|Hc]; [by apply Hrest|].
      by apply Hmore.
    + rewrite Hpush, length_app. lia.
  - apply IH; simpl; [done|lia].
Qed.

Lemma search_loop_visits fuel : ∀ (s : Search) a' calls',
  search_loop iteratee g opt push fuel s = Ok (a', calls') →
  NoDup (called_ids (calls s)) →
  (∀ id, id ∈ visited s ↔ id ∈ called_ids (calls s)) →
  ∃ more,
    calls' = calls s ++ more
    ∧ NoDup (called_ids calls')
    ∧ (∀ c, c ∈ queue s → cell_id c ∈ called_ids calls')
    ∧ (∀ c d ns n, (c, d, true) ∈ more → getNeighbors g c opt = Ok ns →
                   n ∈ ns → cell_id n ∈ called_ids calls')
    ∧ (∀ R : Cell → Prop,
         (∀ c, c ∈ queue s → R c) →
         (∀ c d ns n, R c → (c, d, true) ∈ calls' →
                      getNeighbors g c opt = Ok ns → n ∈ ns → R n) →
         ∀ c d b, (c, d, b) ∈ more → R c).
Proof.
  induction fuel as [|fuel IH]; intros [q v dm a cs] a' calls' Hrun Hnd Hv;
    [done|].
  simpl in *. destruct q as [|next rest].
  { injection Hrun as <- <-. exists []. rewrite app_nil_r.
    split; [done|]. split; [done|]. split; [by intros c ?%elem_of_nil|].
    split; [by intros c d ns n ?%elem_of_nil|].
    by intros R _ _ c d b ?%elem_of_nil. }
  destruct (decide (cell_id next ∈ v)) as [Hin|Hnin].
  { destruct (IH _ _ _ Hrun Hnd Hv) as (more & Hc & Hnd' & Hq & Hn & HR).
    simpl in *. exists more. split; [done|]. split; [done|].
    split; [|split; [done|]].
    - intros c [->|Hc']%elem_of_cons; [|by apply Hq].
      rewrite Hc. unfold called_ids. rewrite fmap_app, elem_of_app. left.
      by apply Hv.
    - intros R HRq HRn. apply HR; [|done]. intros c Hc'. apply HRq.
      by right. }
  set (d := default 0%nat (dm !! cell_id next)) in *.
  destruct (iteratee a next d) as [acc' b] eqn:Hit.
  set (x := (next, d, b)).
  assert (Hnd1 : NoDup (called_ids (cs ++ [x]))).
  { unfold called_ids. rewrite fmap_app. apply NoDup_app. split; [done|].
    split; [|apply NoDup_singleton].
    intros id Hid Hx. simpl in Hx. apply list_elem_of_singleton in Hx.
    subst id. apply Hnin. by apply Hv. }
  assert (Hv1 : ∀ id, id ∈ {[cell_id next]} ∪ v
                      ↔ id ∈ called_ids (cs ++ [x])).
  { intros id. unfold called_ids. rewrite fmap_app, elem_of_app. simpl.
    rewrite list_elem_of_singleton, elem_of_union, elem_of_singleton, Hv.
    unfold called_ids. tauto. }
  assert (Hx : ∀ more, x ∈ (cs ++ [x]) ++ more).
  { intros more. apply elem_of_app. left. apply elem_of_app. right. left. }
  destruct b.
  - destruct (getNeighbors g next opt) as [ns|] eqn:Hns; [|done].
    destruct (IH _ _ _ Hrun Hnd1 Hv1) as (more & Hc & Hnd' & Hq & Hn & HR).
    simpl in *. exists (x :: more).
    split; [by rewrite Hc, <- app_assoc|]. split; [done|].
    split; [|split].
    + intros c [->|Hc']%elem_of_cons.
      * rewrite Hc. apply list_elem_of_fmap. exists x. split; [done|].
        apply Hx.
      * apply Hq. rewrite Hpush. apply elem_of_app. by left.
    + intros c d0 ns0 n [Heq|Hm]%elem_of_cons Hns0 Hn0.
      * unfold x in Heq. injection Heq as -> ->.
        rewrite Hns in Hns0. injection Hns0 as <-.
        apply Hq. rewrite Hpush. apply elem_of_app. by right.
      * by eapply Hn.
    + intros R HRq HRn c d0 b0 [Heq|Hm]%elem_of_cons.
      * unfold x in Heq. simplify_eq. apply HRq. left.
      * eapply HR; [|done|done]. intros c0 Hc0. rewrite Hpush in Hc0.
        apply elem_of_app in Hc0 as [Hc0|Hc0].
        -- apply HRq. by right.
        -- eapply (HRn next d ns); [apply HRq; left| |done|done].
           rewrite Hc. apply Hx.
  - destruct (IH _ _ _ Hrun Hnd1 Hv1) as (more & Hc & Hnd' & Hq & Hn & HR).
    simpl in *. exists (x :: more).
    split; [by rewrite Hc, <- app_assoc|]. split; [done|].
    split; [|split].
    + intros c [->|Hc']%elem_of_cons.
      * rewrite Hc. apply list_elem_of_fmap. exists x. split; [done|].
        apply Hx.
      * by apply Hq.
    + intros c d0 ns0 n [Heq|Hm]%elem_of_cons Hns0 Hn0.
      * unfold x in Heq. simplify_eq.
      * by eapply Hn.
    + intros R HRq HRn c d0 b0 [Heq|Hm]%elem_of_cons.
      * unfold x in Heq. simplify_eq. apply HRq. left.
      * eapply HR; [|done|done]. intros c0 Hc0. apply HRq. by right.
Qed.

Lemma run_calls_app (a : St) (cs more : Calls) :
  run_calls iteratee a (cs ++ more)
  = a1 ← run_calls iteratee a cs; run_calls iteratee a1 more.
Proof.
  revert a. induction cs as [|[[c d] b] cs IH]; intros a; [done|].
  simpl. destruct (iteratee a c d) as [a1 b1].
  case_bool_decide; [apply IH | done].
Qed.

(** the state that a search ends with is the state of the callback after
    the calls of the log, and the flags of the log are what the callback
    returned *)
Lemma search_loop_replays (a0 : St) fuel : ∀ (s : Search) a' calls',
  search_loop iteratee g opt push fuel s = Ok (a', calls') →
  run_calls iteratee a0 (calls s) = Some (acc s) →
  run_calls iteratee a0 calls' = Some a'.
Proof.
  induction fuel as [|fuel IH]; intros [q v dm a cs] a' calls' Hrun Hlog;
    [done|].
  simpl in *. destruct q as [|next rest]; [by simplify_eq|].
  destruct (decide (cell_id next ∈ v)); [by eapply IH|].
  set (d := default 0%nat (dm !! cell_id next)) in *.
  destruct (iteratee a next d) as [acc' b] eqn:Hit.
  assert (Hlog' : run_calls iteratee a0 (cs ++ [(next, d, b)]) = Some acc').
  { rewrite run_calls_app, Hlog. simpl. rewrite Hit.
    by rewrite bool_decide_eq_true_2. }
  destruct b.
  - destruct (getNeighbors g next opt) as [ns|]; [|done]. by eapply IH.
  - by eapply IH.
Qed.
End search_facts.

Lemma search_weight_empty g opt cells :
  search_weight g opt cells ∅
  = foldr (λ c n, S (fan_out g opt c) + n)%nat 0%nat cells.
Proof.
  induction cells as [|c cells IH]; simpl; [done|]. by rewrite IH.
Qed.

(** a chain of neighbors stays in the collection *)
Lemma neighbor_chain_in_collection g opt element c :
  neighbor_chain g opt element c → c ∈ element :: cellCollection g.
Proof.
  induction 1 as [|c ns n _ _ Hns Hn]; [left|right].
  by eapply getNeighbors_in_collection.
Qed.

(** what both searches come to, from their common loop, when
    [getNeighbors] returns for the cells that chains of neighbors lead to *)
Lemma search_loop_from_chain {St} (iteratee : St → Cell → nat → St * bool)
    g opt push element a :
  (∀ rest neighbors, push rest neighbors ≡ₚ rest ++ neighbors) →
  (∀ c, neighbor_chain g opt element c →
        ∃ ns, getNeighbors g c opt = Ok ns) →
  ∃ a' calls,
    search_loop iteratee g opt push (search_fuel g opt element)
                (search_start element a) = Ok (a', calls)
    ∧ run_calls iteratee a calls = Some a'
    ∧ search_visits g opt element calls.
Proof.
  intros Hpush Hneighbors.
  destruct (search_loop_returns iteratee g opt push Hpush
              (element :: cellCollection g)
              (neighbor_chain g opt element)
              (neighbor_chain_in_collection g opt element)
              (λ c Hc, match Hneighbors c Hc with
                       | ex_intro _ ns Hns =>
                           ex_intro _ ns
                             (conj Hns (λ n Hn, chain_step g opt element
                                                  c ns n Hc Hns Hn))
                       end)
              (search_fuel g opt element)
              (search_start element a)) as [[a' calls] Hrun].
  { intros c Hc. simpl in Hc. apply list_elem_of_singleton in Hc. subst.
    constructor. }
  { simpl queue. simpl visited. rewrite search_weight_empty.
    unfold search_fuel. simpl. lia. }
  exists a', calls. split; [done|]. split.
  { by apply (search_loop_replays iteratee g opt push a _ _ _ _ Hrun). }
  destruct (search_loop_visits iteratee g opt push Hpush _ _ _ _ Hrun)
    as (more & Hc & Hnd & Hq & Hn & HR).
  { simpl. apply NoDup_nil_2. }
  { intros id. simpl. split; [by intros ?%elem_of_empty
                             | by intros ?%elem_of_nil]. }
  simpl in Hc. subst more. split; [done|]. split.
  - intros c d b Hcall. eapply (HR (reached g opt element calls)); [| |done].
    + intros c0 Hc0. simpl in Hc0. apply list_elem_of_singleton in Hc0.
      subst. constructor.
    + intros c0 d0 ns n Hr Hcall0 Hns Hn0. by econstructor.
  - induction 1 as [|c d ns n _ IH Hcall Hns Hn0].
    + apply Hq. simpl. left.
    + by eapply Hn.
Qed.

Lemma search_loop_from_start {St} (iteratee : St → Cell → nat → St * bool)
    g opt push element a :
  (∀ rest neighbors, push rest neighbors ≡ₚ rest ++ neighbors) →
  (∀ c, c ∈ element :: cellCollection g → ∃ ns, getNeighbors g c opt = Ok ns) →
  ∃ a' calls,
    search_loop iteratee g opt push (search_fuel g opt element)
                (search_start element a) = Ok (a', calls)
    ∧ run_calls iteratee a calls = Some a'
    ∧ search_visits g opt element calls.
Proof.
  intros Hpush Hneighbors. apply search_loop_from_chain; [done|].
  intros c Hc. apply Hneighbors. by eapply neighbor_chain_in_collection.
Qed.



Lemma cells_graph_in_a_row :
  cellCollection graph_in_a_row
  = [element_cell "a"; element_cell "b"; element_cell "d";
     link_cell "m" "a" "b"; link_cell "n" "b" "d"].
Proof. vm_compute. reflexivity. Qed.

(* ================================================================== *)
(** * Further properties *)
(* ================================================================== *)

(** ** Connected links *)

(** X1.  On a graph whose index matches and whose cells carry no id
    that names a member of [Object.prototype], [getConnectedLinks] called
    without options returns the links of the collection whose source or
    target carries the id of the cell, each once, and no [undefined]
    entry. *)
Theorem connected_links_exact (g : Graph) (model : Cell) (Hok : index_ok g)
    (Hplain : plain_graph g = true) :
  ∃ links,
    getConnectedLinks g no_opt model = Ok (Some <$> links)
    ∧ NoDup (cell_id <$> links)
    ∧ ∀ l, l ∈ links
           ↔ l ∈ cellCollection g ∧ isLink l = true
             ∧ (truthy_id (source l) = Some (cell_id model)
                ∨ truthy_id (target l) = Some (cell_id model)).
Proof.
  destruct (attached_links_spec _ _ model Hok) as (Hcl & _ & Hnd & Hmem).
  exists (attached_links g (cell_id model)).
  split; [done|]. split; [done|].
  intros l. rewrite Hmem, (elem_of_getCell g l (im_ids _ _ Hok)).
  split.
  - intros (? & _ & ? & ?). done.
  - intros (? & ? & ?). split; [done|]. split; [set_solver|]. done.
Qed.

Lemma connected_links_exact_witness :
  ∃ links,
    getConnectedLinks graph_with_loop no_opt (element_cell "b")
    = Ok (Some <$> links)
    ∧ NoDup (cell_id <$> links)
    ∧ ∀ l, l ∈ links
           ↔ l ∈ cellCollection graph_with_loop ∧ isLink l = true
             ∧ (truthy_id (source l) = Some "b"
                ∨ truthy_id (target l) = Some "b").
Proof.
  apply (connected_links_exact graph_with_loop (element_cell "b")).
  - apply reachable_index_ok, reachable_graph_with_loop.
  - reflexivity.
Defined.

Lemma foldM_id {A B} (f : B → A → result B) (l : list A) (b : B) :
  (∀ b a, f b a = Ok b) → foldM f b l = Ok b.
Proof.
  intros Hf. induction l as [|a l IH]; [done|]. simpl. by rewrite Hf.
Qed.

(** X2.  When the options give [inbound] or [outbound] and neither is
    true, [getConnectedLinks] returns no link, whatever the graph holds and
    whatever [indirect] and [deep] say: [{ inbound: false }] does not mean
    "the outbound links". *)
Theorem connected_links_no_direction (g : Graph) (opt : QueryOpt) (model : Cell)
    (Hdir : directions opt = (false, false)) :
  getConnectedLinks g opt model = Ok [].
Proof.
  unfold getConnectedLinks. rewrite Hdir. simpl.
  destruct (deep opt); [|done].
  rewrite foldM_id; [done|]. intros st cell. by destruct (isLink cell).
Qed.

Lemma connected_links_no_direction_witness :
  getConnectedLinks graph_with_loop
    (mkQueryOpt (Some false) None false false false) (element_cell "a")
  = Ok [].
Proof.
  apply (connected_links_no_direction graph_with_loop
           (mkQueryOpt (Some false) None false false false) (element_cell "a")).
  reflexivity.
Defined.


(** ** Neighbors *)

Lemma neighbors_fold_inv g model opt inb outb
    (I : list (string * Cell) → Prop) (links : list (option Cell)) :
  (∀ l loop gate ep res res', Some l ∈ links →
     hasLoop g (deep opt) l = Ok loop → ep = source l ∨ ep = target l →
     I res → add_neighbor g model opt gate loop ep res = Ok res' →
     I res') →
  ∀ res res', I res →
    foldM (λ res (link : option Cell),
             match link with
             | None => Throw (TypeError "link is undefined")
             | Some l =>
                 loop ← hasLoop g (deep opt) l;
                 res1 ← add_neighbor g model opt inb loop (source l) res;
                 add_neighbor g model opt outb loop (target l) res1
             end) res links = Ok res' →
    I res'.
Proof.
  induction links as [|link links IH]; intros Hstep res res' HI Hf.
  - simpl in Hf. by simplify_eq.
  - simpl in Hf. destruct link as [l|]; [|done].
    destruct (hasLoop g (deep opt) l) as [loop|] eqn:Hloop; [|done].
    simpl in Hf.
    destruct (add_neighbor g model opt inb loop (source l) res)
      as [res1|] eqn:H1; [|done]. simpl in Hf.
    destruct (add_neighbor g model opt outb loop (target l) res1)
      as [res2|] eqn:H2; [|done].
    eapply (IH (λ l0 lp gate ep r r' Hl0, Hstep l0 lp gate ep r r'
                  (proj2 (elem_of_cons _ _ _) (or_intror Hl0)))); [|exact Hf].
    eapply (Hstep l loop outb); [left|done|by right| |exact H2].
    eapply (Hstep l loop inb); [left|done|by left|exact HI|exact H1].
Qed.

Lemma add_neighbor_added g model opt gate loop ep res res' :
  add_neighbor g model opt gate loop ep res = Ok res' →
  res' = res
  ∨ ∃ id el, res' = res ++ [(id, el)] ∧ ep_id ep = Some id
             ∧ getCell g id = Some el ∧ isElement el = true
             ∧ (id ∉ res.*1)
             ∧ (loop = true ∨ cell_id el ≠ cell_id model).
Proof.
  unfold add_neighbor. intros Hadd.
  destruct (ep_id ep) as [id|]; [|left; by simplify_eq].
  destruct gate; simpl in Hadd; [|left; by simplify_eq].
  unfold has_key in Hadd. case_bool_decide as Hkey; simpl in Hadd;
    [left; by simplify_eq|].
  destruct (getCell g id) as [el|] eqn:Hel; [|done].
  destruct (isElement el) eqn:Helem; [|left; by simplify_eq].
  destruct (loop || _) eqn:Hcond; [|left; by simplify_eq].
  right. exists id, el. simplify_eq. repeat (split; [done|]).
  apply orb_true_iff in Hcond as [?|Hc]; [by left|right].
  apply andb_true_iff in Hc as [Hc _]. by apply bool_decide_eq_true in Hc.
Qed.

(** X4.  What [getNeighbors] returns holds no id twice, and holds only
    elements that are in the collection. *)
Theorem neighbors_are_distinct_elements (g : Graph) (model : Cell)
    (opt : QueryOpt) (neighbors : list Cell)
    (Hget : getNeighbors g model opt = Ok neighbors) :
  NoDup (cell_id <$> neighbors)
  ∧ ∀ n, n ∈ neighbors → n ∈ cellCollection g ∧ isElement n = true.
Proof.
  set (I := λ res : list (string * Cell),
         NoDup res.*1
         ∧ ∀ k c, (k, c) ∈ res → cell_id c = k ∧ c ∈ cellCollection g
                                 ∧ isElement c = true).
  assert (Hown : ∀ gate c res, (∀ el, c = Some el → el ∈ cellCollection g) →
            I res → I (add_own_end gate c res)).
  { intros gate c res Hc [Hnd Hval]. unfold add_own_end.
    destruct c as [el|]; [|done].
    destruct (gate && isElement el && negb (has_key (cell_id el) res)) eqn:Hb;
      [|done].
    apply andb_true_iff in Hb as [Hb Hkey]. apply andb_true_iff in Hb as [_ He].
    unfold has_key in Hkey. apply negb_true_iff, bool_decide_eq_false in Hkey.
    split.
    - rewrite fmap_app. apply NoDup_app. split; [done|].
      split; [|apply NoDup_singleton].
      intros x Hx Hx'. simpl in Hx'. apply list_elem_of_singleton in Hx'.
      by subst.
    - intros k c [Hin|Hin]%elem_of_app; [by apply Hval|].
      apply list_elem_of_singleton in Hin. simplify_eq. eauto. }
  unfold getNeighbors in Hget. destruct (directions opt) as [inb outb].
  destruct (getConnectedLinks g opt model) as [links|]; [|done].
  simpl in Hget.
  match type of Hget with
  | context [foldM ?f [] links] => destruct (foldM f [] links) as [res|] eqn:Hf
  end; [|done].
  simpl in Hget. injection Hget as <-.
  assert (HI : I res).
  { eapply (neighbors_fold_inv g model opt inb outb I links); [| |exact Hf].
    - intros l loop gate ep r r' _ _ _ [Hnd Hval] Hadd.
      apply add_neighbor_added in Hadd
        as [->|(id & el & -> & _ & Hel & He & Hnew & _)]; [done|].
      split.
      + rewrite fmap_app. apply NoDup_app. split; [done|].
        split; [|apply NoDup_singleton].
        intros x Hx Hx'. simpl in Hx'. apply list_elem_of_singleton in Hx'.
        by subst.
      + intros k c [Hin|Hin]%elem_of_app; [by apply Hval|].
        apply list_elem_of_singleton in Hin. simplify_eq.
        apply getCell_Some in Hel as [? ?]. done.
    - split; [apply NoDup_nil_2|]. by intros k c ?%elem_of_nil. }
  assert (HI' : I (if isLink model
                   then add_own_end outb (getTargetCell g model)
                          (add_own_end inb (getSourceCell g model) res)
                   else res)).
  { destruct (isLink model); [|done].
    apply Hown; [intros el; apply resolve_in_collection|].
    apply Hown; [intros el; apply resolve_in_collection|done]. }
  destruct HI' as [Hnd Hval].
  set (res' := if isLink model then _ else res) in *.
  assert (Hids : cell_id <$> res'.*2 = res'.*1).
  { clear Hnd. induction res' as [|[k c] r IH]; [done|].
    csimpl. f_equal.
    - apply (Hval k c). left.
    - apply IH. intros k' c' Hin'. apply Hval. by right. }
  split; [by rewrite Hids|].
  intros n Hn. apply list_elem_of_fmap in Hn as ([k c] & -> & Hkc).
  by apply Hval in Hkc as (_ & ? & ?).
Qed.

Lemma neighbors_are_distinct_elements_witness :
  NoDup (cell_id <$> [element_cell "a"; element_cell "b"])
  ∧ ∀ n, n ∈ [element_cell "a"; element_cell "b"] →
         n ∈ cellCollection graph_with_loop ∧ isElement n = true.
Proof.
  apply (neighbors_are_distinct_elements graph_with_loop (element_cell "a")
           no_opt).
  vm_compute. reflexivity.
Defined.

(** X5.  An element is among its own neighbors only when one of its
    connected links has a loop and an end on the element.  Without [deep]
    that is a link with both ends on the element; with [deep] it may also
    be a link between the element and a cell embedded in it, or in which it
    is embedded. *)
Theorem own_neighbor_needs_loop (g : Graph) (model : Cell) (opt : QueryOpt)
    (neighbors : list Cell)
    (Hget : getNeighbors g model opt = Ok neighbors)
    (Helem : isLink model = false)
    (Hown : cell_id model ∈ cell_id <$> neighbors) :
  ∃ links l,
    getConnectedLinks g opt model = Ok links
    ∧ Some l ∈ links
    ∧ hasLoop g (deep opt) l = Ok true
    ∧ (ep_id (source l) = Some (cell_id model)
       ∨ ep_id (target l) = Some (cell_id model))
    ∧ (deep opt = false →
       truthy_id (source l) = Some (cell_id model)
       ∧ truthy_id (target l) = Some (cell_id model)).
Proof.
  unfold getNeighbors in Hget. destruct (directions opt) as [inb outb].
  destruct (getConnectedLinks g opt model) as [links|]; [|done].
  simpl in Hget.
  match type of Hget with
  | context [foldM ?f [] links] => destruct (foldM f [] links) as [res|] eqn:Hf
  end; [|done].
  simpl in Hget. rewrite Helem in Hget. injection Hget as <-.
  exists links.
  set (Q := ∃ l, Some l ∈ links
                 ∧ hasLoop g (deep opt) l = Ok true
                 ∧ (ep_id (source l) = Some (cell_id model)
                    ∨ ep_id (target l) = Some (cell_id model))
                 ∧ (deep opt = false →
                    truthy_id (source l) = Some (cell_id model)
                    ∧ truthy_id (target l) = Some (cell_id model))).
  set (I := λ res : list (string * Cell),
         (∀ k c, (k, c) ∈ res → cell_id c = k)
         ∧ (cell_id model ∈ res.*1 → Q)).
  assert (HI : I res).
  { eapply (neighbors_fold_inv g model opt inb outb I links); [| |exact Hf].
    - intros l loop gate ep r r' Hl Hhas Hep [Hval HQ] Hadd.
      apply add_neighbor_added in Hadd
        as [->|(id & el & -> & Hid & Hel & _ & _ & Hloop)]; [done|].
      apply getCell_Some in Hel as [Hel_id _].
      split.
      + intros k c [Hin|Hin]%elem_of_app; [by apply Hval|].
        apply list_elem_of_singleton in Hin. by simplify_eq.
      + rewrite fmap_app. intros [Hin|Hin]%elem_of_app; [by apply HQ|].
        simpl in Hin. apply list_elem_of_singleton in Hin. subst id.
        destruct Hloop as [->|Hne]; [|done].
        exists l. split; [done|]. split; [done|]. split.
        { rewrite Hin. destruct Hep as [-> | ->]; [by left | by right]. }
        intros Hdeep. rewrite Hdeep in Hhas. rewrite Hin.
        apply hasLoop_shallow in Hhas as (s & Hs & Ht).
        apply truthy_id_ep_id in Hs as Hs'. apply truthy_id_ep_id in Ht as Ht'.
        destruct Hep as [-> | ->]; split; congruence.
    - split; [by intros k c ?%elem_of_nil|]. by intros ?%elem_of_nil. }
  destruct HI as [Hval HQ].
  destruct HQ as (l & Hl & Hs & Ht); [|by exists l].
  apply list_elem_of_fmap in Hown as (c & Hc & Hin).
  apply list_elem_of_fmap in Hin as ([k c'] & -> & Hkc). simpl in Hc.
  apply list_elem_of_fmap. exists (k, c'). split; [|done].
  simpl. rewrite Hc. by apply Hval.
Qed.

Lemma own_neighbor_needs_loop_witness :
  ∃ links l,
    getConnectedLinks graph_parent_to_child
      (mkQueryOpt None None false true false) (element_cell "p") = Ok links
    ∧ Some l ∈ links
    ∧ hasLoop graph_parent_to_child true l = Ok true
    ∧ (ep_id (source l) = Some "p" ∨ ep_id (target l) = Some "p")
    ∧ (true = false →
       truthy_id (source l) = Some "p" ∧ truthy_id (target l) = Some "p").
Proof.
  apply (own_neighbor_needs_loop graph_parent_to_child (element_cell "p")
           (mkQueryOpt None None false true false)
           [element_cell "p"; embedded_cell "c" "p"]).
  - vm_compute. reflexivity.
  - reflexivity.
  - simpl. left.
Defined.
(** ** Removal *)



Lemma disconnect_link_at model l g :
  getCell g (cell_id l) = Some l →
  getCell (disconnect_link model l g) (cell_id l)
  = Some (patched l {[ (if bool_decide (ep_id (source l) = Some (cell_id model))
                        then "source" else "target") := VEnd origin_point ]}).
Proof.
  intros Hl. unfold disconnect_link. rewrite Hl. simpl.
  rewrite (getCell_cell_set _ _ _ l) by done. by rewrite decide_True.
Qed.

(** the removal of a cell with [disconnectLinks], once it is announced *)
Lemma on_remove_disconnects remove g e :
  index_ok g → getCell g (cell_id e) = Some e →
  ∃ g',
    on_remove remove e (mkOpt false true) g = (g', Ok tt)
    ∧ getCell g' (cell_id e) = None
    ∧ ∀ c, getCell g (cell_id c) = Some c → cell_id c ≠ cell_id e →
        getCell g' (cell_id c)
        = Some (if bool_decide (isLink c = true
                                ∧ truthy_id (source c) = Some (cell_id e))
                then patched c {[ "source" := VEnd origin_point ]}
                else if bool_decide (isLink c = true
                                     ∧ truthy_id (target c) = Some (cell_id e))
                then patched c {[ "target" := VEnd origin_point ]}
                else c).
Proof.
  intros Hok Hge.
  unfold on_remove, _removeCell, mbindM, mdo. simpl.
  set (g1 := _restructureOnRemove e g).
  assert (Hinv1 : index_matches ({[cell_id e]} ∪ ∅) g1)
    by (by apply index_matches_restructureOnRemove).
  destruct (attached_links_spec _ _ e Hinv1) as (Hcl & _ & Hndl & Hmem).
  unfold disconnectLinks. rewrite Hcl, forEachM_Some, forEachM_mdo.
  set (ls := attached_links g1 (cell_id e)) in *.
  eexists. split; [done|]. split.
  { rewrite getCell_remove_silent. by rewrite decide_True. }
  intros c Hgc Hne.
  assert (Hgc1 : getCell g1 (cell_id c) = Some c).
  { unfold g1. by rewrite getCell_restructureOnRemove. }
  rewrite getCell_remove_silent, decide_False by done.
  assert (Hatt : c ∈ ls
                 ↔ isLink c = true
                   ∧ (truthy_id (source c) = Some (cell_id e)
                      ∨ truthy_id (target c) = Some (cell_id e))).
  { rewrite Hmem. split; [tauto|].
    intros [? ?]. split; [done|]. split; [set_solver|]. done. }
  destruct (decide (c ∈ ls)) as [Hin|Hout].
  - apply list_elem_of_split in Hin as Hsplit.
    destruct Hsplit as (pre & post & Hls).
    rewrite Hls in Hndl. rewrite fmap_app, fmap_cons in Hndl.
    apply NoDup_app in Hndl as (_ & Hpre & Hpost).
    apply NoDup_cons in Hpost as [Hpost _].
    assert (Hpre' : cell_id c ∉ cell_id <$> pre).
    { intros Hp. apply (Hpre _ Hp). left. }
    rewrite Hls, foldl_app. simpl.
    rewrite disconnect_others by done.
    rewrite disconnect_link_at.
    2: { by rewrite disconnect_others. }
    f_equal. apply Hatt in Hin as [Hlink Hends].
    case_bool_decide as Hs.
    + rewrite bool_decide_eq_true_2; [done|]. split; [done|].
      apply truthy_id_Some; [done|]. intros Hempty.
      destruct Hends as [Hx|Hx]; apply truthy_id_ep_id in Hx as Hy;
        unfold truthy_id in Hx; rewrite Hy, Hempty in Hx; done.
    + rewrite bool_decide_eq_false_2.
      2: { intros [_ Hx]. by apply truthy_id_ep_id in Hx. }
      rewrite bool_decide_eq_true_2; [done|]. split; [done|].
      destruct Hends as [Hx|Hx]; [|done]. by apply truthy_id_ep_id in Hx.
  - rewrite disconnect_others.
    2: { intros Hin. apply list_elem_of_fmap in Hin as (c' & Hid' & Hc').
         apply Hout. apply Hmem in Hc' as Hc''. destruct Hc'' as (Hg' & _).
         rewrite <- Hid', Hgc1 in Hg'. by simplify_eq. }
    rewrite Hgc1. f_equal.
    rewrite !bool_decide_eq_false_2; [done| |]; intros [? ?]; apply Hout, Hatt;
      eauto.
Qed.


(** ** Removing many cells *)

Lemma getCell_None_ids g g' id :
  sublist (cell_id <$> cellCollection g') (cell_id <$> cellCollection g) →
  getCell g id = None → getCell g' id = None.
Proof.
  rewrite !getCell_None. intros Hsub Hno Hin. apply Hno.
  by eapply elem_of_sublist.
Qed.

Lemma forEachM_cell_remove opt (cells : list Cell) : ∀ g,
  index_ok g →
  ∃ g', forEachM (λ c, cell_remove (cell_id c) opt) cells g = (g', Ok tt)
        ∧ index_ok g'
        ∧ sublist (cell_id <$> cellCollection g') (cell_id <$> cellCollection g)
        ∧ ∀ c, c ∈ cells → getCell g' (cell_id c) = None.
Proof.
  induction cells as [|c cells IH]; intros g Hok.
  - exists g. split; [done|]. split; [done|]. split; [done|].
    by intros c ?%elem_of_nil.
  - destruct (cell_remove_ok g (cell_id c) opt Hok)
      as (g1 & Hr1 & Hok1 & Hsub1 & Hg1).
    destruct (IH g1 Hok1) as (g2 & Hr2 & Hok2 & Hsub2 & Hg2).
    exists g2. simpl. unfold mbindM. rewrite Hr1. split; [done|].
    split; [done|]. split; [by etrans|].
    intros c' [->|Hc']%elem_of_cons; [|by apply Hg2].
    by eapply getCell_None_ids.
Qed.

(** X8.  [removeCells] on a graph whose index matches ends without an
    exception; afterwards none of the given cells is in the collection, no
    cell has come in, and the index still matches. *)
Theorem removeCells_removes_all (g : Graph) (cells : list Cell) (opt : Opt)
    (Hok : index_ok g) :
  ∃ g',
    removeCells cells opt g = (g', Ok tt)
    ∧ index_ok g'
    ∧ sublist (cell_id <$> cellCollection g') (cell_id <$> cellCollection g)
    ∧ ∀ c, c ∈ cells → getCell g' (cell_id c) = None.
Proof.
  destruct cells as [|c0 cells].
  { exists g. split; [done|]. split; [done|]. split; [done|].
    by intros c ?%elem_of_nil. }
  unfold removeCells, mbindM, mdo.
  destruct (forEachM_cell_remove opt (c0 :: cells) (startBatch "remove" g))
    as (g1 & Hr & Hok1 & Hsub & Hgone); [by apply index_ok_startBatch|].
  rewrite Hr. eexists. split; [done|].
  split; [by apply index_ok_stopBatch|]. split; [done|]. done.
Qed.

Lemma removeCells_removes_all_witness :
  ∃ g',
    removeCells [element_cell "a"; element_cell "b"] no_option graph_with_loop
    = (g', Ok tt)
    ∧ index_ok g'
    ∧ sublist (cell_id <$> cellCollection g')
              (cell_id <$> cellCollection graph_with_loop)
    ∧ ∀ c, c ∈ [element_cell "a"; element_cell "b"] →
           getCell g' (cell_id c) = None.
Proof.
  apply (removeCells_removes_all graph_with_loop
           [element_cell "a"; element_cell "b"] no_option).
  apply reachable_index_ok, reachable_graph_with_loop.
Defined.

(** X9.  [clear] on a graph whose index matches ends without an exception
    and leaves the collection and the index empty: no cell, no node, no
    edge, and no id in any bucket. *)
Theorem clear_empties (g : Graph) (opt : Opt) (Hok : index_ok g) :
  ∃ g',
    clear opt g = (g', Ok tt)
    ∧ cellCollection g' = []
    ∧ _nodes g' = ∅ ∧ _edges g' = ∅
    ∧ ∀ k, getOutboundEdges g' k = [] ∧ getInboundEdges g' k = [].
Proof.
  assert (Hempty : ∀ g', index_ok g' → cellCollection g' = [] →
    cellCollection g' = []
    ∧ _nodes g' = ∅ ∧ _edges g' = ∅
    ∧ ∀ k, getOutboundEdges g' k = [] ∧ getInboundEdges g' k = []).
  { intros g' Hok' Hnil.
    assert (Hno : ∀ id, getCell g' id = None).
    { intros id. apply getCell_None. rewrite Hnil. apply not_elem_of_nil. }
    split; [done|]. split; [|split].
    - apply set_eq. intros id. rewrite (im_nodes _ _ Hok' id), Hno.
      split; [by intros (_ & c & ? & _) | by intros ?%elem_of_empty].
    - apply set_eq. intros id. rewrite (im_edges _ _ Hok' id), Hno.
      split; [by intros (_ & c & ? & _) | by intros ?%elem_of_empty].
    - apply no_links_empty_buckets; [done|]. rewrite Hnil.
      by intros c ?%elem_of_nil. }
  unfold clear. case_bool_decide as Hlen.
  { exists g. split; [done|]. apply Hempty; [done|].
    by apply length_zero_iff_nil. }
  unfold mbindM, mdo.
  set (cells := filter (λ c, isLink c = true) (cellCollection g)
                ++ filter (λ c, isLink c = false) (cellCollection g)).
  destruct (forEachM_cell_remove (mkOpt true (opt_disconnectLinks opt)) cells
              (startBatch "clear" g))
    as (g1 & Hr & Hok1 & Hsub & Hgone); [by apply index_ok_startBatch|].
  rewrite Hr. eexists. split; [done|].
  apply Hempty; [by apply index_ok_stopBatch|]. simpl.
  apply no_member_nil. intros c Hc.
  assert (Hid : cell_id c ∈ cell_id <$> cellCollection (startBatch "clear" g)).
  { eapply elem_of_sublist; [|exact Hsub]. apply list_elem_of_fmap. eauto. }
  apply list_elem_of_fmap in Hid as (c0 & Hid & Hc0). simpl in Hc0.
  assert (Hin : c0 ∈ cells).
  { unfold cells. rewrite elem_of_app, !list_elem_of_filter.
    destruct (isLink c0); tauto. }
  apply Hgone in Hin. apply getCell_None in Hin. apply Hin.
  rewrite <- Hid. apply list_elem_of_fmap. eauto.
Qed.

Lemma clear_empties_witness :
  ∃ g',
    clear no_option graph_with_loop = (g', Ok tt)
    ∧ cellCollection g' = []
    ∧ _nodes g' = ∅ ∧ _edges g' = ∅
    ∧ ∀ k, getOutboundEdges g' k = [] ∧ getInboundEdges g' k = [].
Proof.
  apply (clear_empties graph_with_loop no_option).
  apply reachable_index_ok, reachable_graph_with_loop.
Defined.
(** ** Adding and resetting *)

Lemma prepareCell_invalid cell b g :
  isString (type_attr (init_cell cell)) = false →
  _prepareCell cell b g
  = Throw (TypeError "dia.Graph: cell type must be a string.").
Proof. intros H. unfold _prepareCell. by rewrite H. Qed.

Lemma prepareCell_valid cell b g :
  isString (type_attr (init_cell cell)) = true →
  ∃ p, _prepareCell cell b g = Ok p
       ∧ cell_id (init_cell p) = cell_id (init_cell cell)
       ∧ (b = false → p = cell).
Proof.
  intros H. unfold _prepareCell. rewrite H. simpl. destruct b; [|eauto].
  destruct (attributes (init_cell cell) !! "z"); [eauto|].
  eexists. split; [done|]. split; [by destruct cell|done].
Qed.

Lemma batches_restructureOnAdd c g :
  batches_of (_restructureOnAdd c g) = batches_of g.
Proof.
  unfold _restructureOnAdd. destruct (isLink c); [|done].
  destruct (truthy_id (source c)), (truthy_id (target c)); done.
Qed.

Lemma batches_collection_add c g :
  batches_of (collection_add c g) = batches_of g.
Proof.
  unfold collection_add. destruct (getCell g (cell_id c)); [done|].
  by rewrite batches_restructureOnAdd.
Qed.

Lemma getCell_collection_add_is_Some c g id :
  is_Some (getCell (collection_add c g) id)
  ↔ is_Some (getCell g id) ∨ id = cell_id c.
Proof.
  destruct (getCell g (cell_id c)) as [c0|] eqn:Hc.
  - unfold collection_add. rewrite Hc. split; [by left|].
    intros [?| ->]; [done|]. by rewrite Hc.
  - rewrite getCell_collection_add_new by done.
    destruct (decide (id = cell_id c)) as [->|Hne].
    + split; [by right | by eauto].
    + split; [by left | by intros [?|?]].
Qed.

Lemma addCell_single_valid cell g :
  isString (type_attr (init_cell cell)) = true →
  ∃ g', addCell_single cell g = (g', Ok tt)
        ∧ batches_of g' = batches_of g
        ∧ (index_ok g → index_ok g')
        ∧ ∀ id, is_Some (getCell g' id)
                ↔ is_Some (getCell g id) ∨ id = cell_id (init_cell cell).
Proof.
  intros H. destruct (prepareCell_valid cell true g H) as (p & Hp & Hid & _).
  unfold addCell_single. rewrite Hp. eexists. split; [done|].
  split; [apply batches_collection_add|].
  split; [apply index_ok_collection_add|].
  intros id. by rewrite getCell_collection_add_is_Some, Hid.
Qed.

Lemma forEachM_app {A} (f : A → Method unit) (l1 l2 : list A) g :
  forEachM f (l1 ++ l2) g
  = match forEachM f l1 g with
    | (g', Ok _) => forEachM f l2 g'
    | (g', Throw e) => (g', Throw e)
    end.
Proof.
  revert g. induction l1 as [|a l1 IH]; intros g; [done|].
  simpl. unfold mbindM. destruct (f a g) as [g1 [[]|e]]; [apply IH|done].
Qed.

Lemma forEachM_addCell_valid (cells : list CellInit) : ∀ g,
  (∀ c, c ∈ cells → isString (type_attr (init_cell c)) = true) →
  ∃ g', forEachM addCell_single cells g = (g', Ok tt)
        ∧ batches_of g' = batches_of g
        ∧ (index_ok g → index_ok g')
        ∧ ∀ id, is_Some (getCell g' id)
                ↔ is_Some (getCell g id)
                  ∨ id ∈ (λ c, cell_id (init_cell c)) <$> cells.
Proof.
  induction cells as [|c cells IH]; intros g Hall.
  - exists g. split; [done|]. split; [done|]. split; [done|].
    intros id. rewrite elem_of_nil. tauto.
  - destruct (addCell_single_valid c g) as (g1 & Hr1 & Hb1 & Hok1 & Hg1);
      [apply Hall; left|].
    destruct (IH g1) as (g2 & Hr2 & Hb2 & Hok2 & Hg2);
      [intros c' Hc'; apply Hall; by right|].
    exists g2. split; [simpl; unfold mbindM; by rewrite Hr1|].
    split; [congruence|]. split; [tauto|].
    intros id. rewrite Hg2, Hg1, fmap_cons, elem_of_cons. tauto.
Qed.

(** X10.  [addCells] stops at the first cell whose [type] is not a
    string: it throws the [TypeError], the cells before that one stay in
    the collection, the cells after it are not added, and the ["add"] batch
    that was opened is not closed. *)
Theorem addCells_stops_at_invalid_cell (g : Graph) (before : list CellInit)
    (bad : CellInit) (rest : list CellArg)
    (Hbefore : ∀ c, c ∈ before → isString (type_attr (init_cell c)) = true)
    (Hbad : isString (type_attr (init_cell bad)) = false) :
  ∃ g',
    addCells ((ArgCell <$> before) ++ ArgCell bad :: rest) g
    = (g', Throw (TypeError "dia.Graph: cell type must be a string."))
    ∧ batch_count g' "add" = (batch_count g "add" + 1)%Z
    ∧ (index_ok g → index_ok g')
    ∧ ∀ id, is_Some (getCell g' id)
            ↔ is_Some (getCell g id)
              ∨ id ∈ (λ c, cell_id (init_cell c)) <$> before.
Proof.
  assert (Hflat : flat_map flattenDeep ((ArgCell <$> before) ++ ArgCell bad :: rest)
                  = before ++ bad :: flat_map flattenDeep rest).
  { rewrite flat_map_app. simpl. f_equal.
    clear. induction before as [|c l IH]; [done|]. csimpl. by rewrite IH. }
  destruct (forEachM_addCell_valid before (startBatch "add" g) Hbefore)
    as (g1 & Hr & Hb & Hok & Hg).
  exists g1. split.
  - destruct ((ArgCell <$> before) ++ ArgCell bad :: rest) as [|a l] eqn:Hl.
    { by destruct before. }
    change (addCells (a :: l))
      with (mdo (startBatch "add") ;;;
            forEachM addCell_single (flat_map flattenDeep (a :: l)) ;;;
            mdo (stopBatch "add")).
    rewrite Hflat. unfold mbindM, mdo.
    rewrite forEachM_app, Hr. simpl. unfold mbindM, addCell_single.
    by rewrite (prepareCell_invalid _ _ _ Hbad).
  - split; [|split].
    + rewrite (batch_count_batches_of _ _ _ Hb).
      rewrite batch_count_start by reflexivity. by rewrite decide_True.
    + intros Hok0. by apply Hok, index_ok_startBatch.
    + exact Hg.
Qed.

Lemma addCells_stops_at_invalid_cell_witness :
  ∃ g',
    addCells ((ArgCell <$> [Json (element_cell "a")])
              ++ ArgCell (Json (mkCell "x" Element ∅))
                 :: [ArgCell (Json (element_cell "b"))]) initialize
    = (g', Throw (TypeError "dia.Graph: cell type must be a string."))
    ∧ batch_count g' "add" = (batch_count initialize "add" + 1)%Z
    ∧ (index_ok initialize → index_ok g')
    ∧ ∀ id, is_Some (getCell g' id)
            ↔ is_Some (getCell initialize id)
              ∨ id ∈ (λ c, cell_id (init_cell c)) <$> [Json (element_cell "a")].
Proof.
  apply (addCells_stops_at_invalid_cell initialize [Json (element_cell "a")]
           (Json (mkCell "x" Element ∅)) [ArgCell (Json (element_cell "b"))]).
  - intros c Hc. apply list_elem_of_singleton in Hc. subst c. reflexivity.
  - reflexivity.
Defined.

Lemma foldM_prepare_valid g (cells : list CellInit) : ∀ acc,
  (∀ c, c ∈ cells → isString (type_attr (init_cell c)) = true) →
  foldM (λ acc cell, c ← _prepareCell cell false g; Ok (acc ++ [c])) acc cells
  = Ok (acc ++ cells).
Proof.
  induction cells as [|c cells IH]; intros acc Hall.
  - simpl. by rewrite app_nil_r.
  - destruct (prepareCell_valid c false g) as (p & Hp & _ & Hsame);
      [apply Hall; left|].
    rewrite Hsame in Hp by done. simpl. rewrite Hp. simpl.
    rewrite IH; [by rewrite <- app_assoc|].
    intros c' Hc'. apply Hall. by right.
Qed.

Lemma foldM_prepare_invalid g (cells : list CellInit) bad : ∀ acc,
  bad ∈ cells → isString (type_attr (init_cell bad)) = false →
  foldM (λ acc cell, c ← _prepareCell cell false g; Ok (acc ++ [c])) acc cells
  = Throw (TypeError "dia.Graph: cell type must be a string.").
Proof.
  induction cells as [|c cells IH]; intros acc Hin Hbad.
  - by apply elem_of_nil in Hin.
  - simpl. destruct (isString (type_attr (init_cell c))) eqn:Hc.
    + destruct (prepareCell_valid c false g Hc) as (p & Hp & _).
      rewrite Hp. simpl. apply IH; [|done].
      apply elem_of_cons in Hin as [->|Hin]; [congruence|done].
    + by rewrite (prepareCell_invalid _ _ _ Hc).
Qed.

Lemma batches_collection_reset cells g :
  batches_of (collection_reset cells g) = batches_of g.
Proof.
  unfold collection_reset, _restructureOnReset.
  generalize (cellCollection (set_cells (λ _, unique_by_id ∅ cells) g)).
  intros l.
  assert (H0 : batches_of (clear_index (set_cells (λ _, unique_by_id ∅ cells) g))
               = batches_of g) by done.
  rewrite <- H0.
  generalize (clear_index (set_cells (λ _, unique_by_id ∅ cells) g)).
  induction l as [|c l IH]; intros g0; [done|]. simpl.
  rewrite IH. apply batches_restructureOnAdd.
Qed.

(** X11.  [resetCells] with cells whose [type] is a string ends without
    an exception on any graph: the collection then holds the given cells as
    they were given (no [z] is assigned), the first of each id, the index
    matches, and every batch counter is back at its value. *)
Theorem resetCells_valid (g : Graph) (cells : list CellInit)
    (Hall : ∀ c, c ∈ cells → isString (type_attr (init_cell c)) = true) :
  ∃ g',
    resetCells cells g = (g', Ok tt)
    ∧ cellCollection g' = unique_by_id ∅ (init_cell <$> cells)
    ∧ index_ok g'
    ∧ ∀ n, batch_count g' n = batch_count g n.
Proof.
  unfold resetCells, mbindM, mdo.
  rewrite (foldM_prepare_valid _ cells [] Hall). simpl.
  eexists. split; [done|].
  set (g1 := collection_reset _ _).
  assert (Hc : cellCollection g1 = unique_by_id ∅ (init_cell <$> cells)).
  { unfold g1, collection_reset, _restructureOnReset.
    by rewrite foldl_restructureOnAdd_cells. }
  split; [done|]. split.
  - apply index_ok_stopBatch, index_ok_collection_reset.
  - intros n. rewrite batch_count_stop by reflexivity.
    assert (Hb : batch_count g1 n = batch_count (startBatch "reset" g) n).
    { apply batch_count_batches_of, batches_collection_reset. }
    rewrite Hb, batch_count_start by reflexivity.
    destruct (decide ("reset" = n)); lia.
Qed.

Lemma resetCells_valid_witness :
  ∃ g',
    resetCells [Json (element_cell "c"); Json (link_cell "n" "c" "c")]
      graph_with_loop
    = (g', Ok tt)
    ∧ cellCollection g'
      = unique_by_id ∅
          (init_cell <$> [Json (element_cell "c"); Json (link_cell "n" "c" "c")])
    ∧ index_ok g'
    ∧ ∀ n, batch_count g' n = batch_count graph_with_loop n.
Proof.
  apply (resetCells_valid graph_with_loop
           [Json (element_cell "c"); Json (link_cell "n" "c" "c")]).
  intros c Hc. apply elem_of_cons in Hc as [->|Hc]; [reflexivity|].
  apply list_elem_of_singleton in Hc. subst c. reflexivity.
Defined.

(** X12.  [resetCells] with a cell whose [type] is not a string throws
    the [TypeError] before the collection is touched: the collection and
    the index are as they were, whatever the place of that cell among the
    others, and the ["reset"] batch that was opened is not closed. *)
Theorem resetCells_rejects_all (g : Graph) (cells : list CellInit)
    (bad : CellInit)
    (Hin : bad ∈ cells)
    (Hbad : isString (type_attr (init_cell bad)) = false) :
  ∃ g',
    resetCells cells g
    = (g', Throw (TypeError "dia.Graph: cell type must be a string."))
    ∧ cellCollection g' = cellCollection g
    ∧ index_of g' = index_of g
    ∧ batch_count g' "reset" = (batch_count g "reset" + 1)%Z.
Proof.
  exists (startBatch "reset" g). split.
  - unfold resetCells, mbindM, mdo.
    by rewrite (foldM_prepare_invalid _ cells bad [] Hin Hbad).
  - split; [done|]. split; [done|].
    rewrite batch_count_start by reflexivity. by rewrite decide_True.
Qed.

Lemma resetCells_rejects_all_witness :
  ∃ g',
    resetCells [Json (element_cell "c"); Json (mkCell "x" Element ∅)]
      graph_with_loop
    = (g', Throw (TypeError "dia.Graph: cell type must be a string."))
    ∧ cellCollection g' = cellCollection graph_with_loop
    ∧ index_of g' = index_of graph_with_loop
    ∧ batch_count g' "reset" = (batch_count graph_with_loop "reset" + 1)%Z.
Proof.
  apply (resetCells_rejects_all graph_with_loop
           [Json (element_cell "c"); Json (mkCell "x" Element ∅)]
           (Json (mkCell "x" Element ∅))).
  - right. left.
  - reflexivity.
Defined.
(** ** Roots, leafs and neighbors *)

Lemma isEmpty_nil (bucket : list string) :
  isEmpty bucket = true ↔ ∀ l, l ∉ bucket.
Proof.
  destruct bucket as [|a bucket]; simpl.
  - split; [intros _ l; apply not_elem_of_nil | done].
  - split; [done|]. intros H. destruct (H a). left.
Qed.

(** X13.  On a graph whose index matches, [isSource] holds of a cell
    exactly when no link of the collection has the id of that cell at its
    target, and [isSink] exactly when no link has it at its source. *)
Theorem isSource_isSink_links (g : Graph) (element : Cell)
    (Hok : index_ok g) :
  (isSource g element = true
   ↔ ∀ l, l ∈ cellCollection g → isLink l = true →
          truthy_id (target l) ≠ Some (cell_id element))
  ∧ (isSink g element = true
     ↔ ∀ l, l ∈ cellCollection g → isLink l = true →
            truthy_id (source l) ≠ Some (cell_id element)).
Proof.
  pose proof (im_ids _ _ Hok) as Hnd.
  assert (Hsrc : isSource g element
                 = isEmpty (getInboundEdges g (cell_id element))).
  { unfold isSource, getInboundEdges.
    by destruct (_in g !! cell_id element). }
  assert (Hsnk : isSink g element
                 = isEmpty (getOutboundEdges g (cell_id element))).
  { unfold isSink, getOutboundEdges.
    by destruct (_out g !! cell_id element). }
  rewrite Hsrc, Hsnk, !isEmpty_nil. split.
  - split.
    + intros Hno l Hl Hlink Ht. apply (Hno (cell_id l)).
      apply (im_in _ _ Hok). split; [set_solver|]. exists l.
      split; [by apply getCell_elem_of|done].
    + intros Hno l Hl. apply (im_in _ _ Hok) in Hl as (_ & c & Hc & Hlink & Ht).
      apply getCell_Some in Hc as [_ Hc]. by apply (Hno c).
  - split.
    + intros Hno l Hl Hlink Hs. apply (Hno (cell_id l)).
      apply (im_out _ _ Hok). split; [set_solver|]. exists l.
      split; [by apply getCell_elem_of|done].
    + intros Hno l Hl. apply (im_out _ _ Hok) in Hl as (_ & c & Hc & Hlink & Hs).
      apply getCell_Some in Hc as [_ Hc]. by apply (Hno c).
Qed.

Lemma isSource_isSink_links_witness :
  (isSource graph_with_loop (element_cell "b") = true
   ↔ ∀ l, l ∈ cellCollection graph_with_loop → isLink l = true →
          truthy_id (target l) ≠ Some "b")
  ∧ (isSink graph_with_loop (element_cell "b") = true
     ↔ ∀ l, l ∈ cellCollection graph_with_loop → isLink l = true →
            truthy_id (source l) ≠ Some "b").
Proof.
  apply (isSource_isSink_links graph_with_loop (element_cell "b")).
  apply reachable_index_ok, reachable_graph_with_loop.
Defined.

Lemma isNeighbor_fold (inb outb : bool) (A B : Cell → bool) (ls : list Cell) :
  ∀ found,
  foldM (λ (found : bool) (link : option Cell),
           match link with
           | None => Throw (TypeError "link is undefined")
           | Some l => Ok (found || (inb && A l) || (outb && B l))
           end) found (Some <$> ls)
  = Ok (found || existsb (λ l, (inb && A l) || (outb && B l)) ls).
Proof.
  induction ls as [|l ls IH]; intros found; csimpl.
  - by rewrite orb_false_r.
  - rewrite IH. f_equal. by rewrite <- !orb_assoc.
Qed.


(** ** Successors and predecessors *)

Lemma search_loop_inv {St} (iteratee : St → Cell → nat → St * bool) g opt push
    (I : St → Calls → Prop) :
  (∀ a cs c d, I a cs →
     I (iteratee a c d).1 (cs ++ [(c, d, (iteratee a c d).2)])) →
  ∀ fuel (s : Search) r,
    search_loop iteratee g opt push fuel s = Ok r →
    I (acc s) (calls s) → I r.1 r.2.
Proof.
  intros Hstep. induction fuel as [|fuel IH]; intros [q v dm a cs] r Hrun HI;
    [done|].
  simpl in *. destruct q as [|next rest].
  { by injection Hrun as <-. }
  destruct (decide (cell_id next ∈ v)); [by apply IH in Hrun|].
  specialize (Hstep a cs next (default 0%nat (dm !! cell_id next)) HI).
  destruct (iteratee a next (default 0%nat (dm !! cell_id next)))
    as [a' continue]. simpl in Hstep.
  destruct continue.
  - destruct (getNeighbors g next opt) as [ns|]; [|done].
    by apply IH in Hrun.
  - by apply IH in Hrun.
Qed.

Lemma reached_in_collection g opt element calls c :
  element ∈ cellCollection g →
  reached g opt element calls c → c ∈ cellCollection g.
Proof.
  intros Hin. induction 1 as [|c d ns n _ _ _ Hns Hn]; [done|].
  by eapply getNeighbors_in_collection.
Qed.

Lemma same_id_same_cell g c1 c2 :
  NoDup (cell_id <$> cellCollection g) →
  c1 ∈ cellCollection g → c2 ∈ cellCollection g →
  cell_id c1 = cell_id c2 → c1 = c2.
Proof.
  intros Hnd H1 H2 Hid.
  apply (getCell_elem_of _ _ Hnd) in H1. apply (getCell_elem_of _ _ Hnd) in H2.
  rewrite Hid in H1. congruence.
Qed.

(** what [getSuccessors] and [getPredecessors] come to, from the search
    they share *)
Lemma search_collects_chain g opt breadthFirst element :
  index_ok g → element ∈ cellCollection g →
  (∀ c, c ∈ cellCollection g → ∃ ns, getNeighbors g c opt = Ok ns) →
  ∃ res calls,
    search (push_other element) g opt breadthFirst element [] = Ok (res, calls)
    ∧ NoDup (cell_id <$> res)
    ∧ ∀ c, c ∈ res
           ↔ neighbor_chain g opt element c ∧ cell_id c ≠ cell_id element.
Proof.
  intros Hok Hin Hneighbors. pose proof (im_ids _ _ Hok) as Hnd.
  assert (Hneighbors' : ∀ c, c ∈ element :: cellCollection g →
                             ∃ ns, getNeighbors g c opt = Ok ns).
  { intros c [->|Hc]%elem_of_cons; by apply Hneighbors. }
  assert (Hrun : ∃ res calls,
    search (push_other element) g opt breadthFirst element [] = Ok (res, calls)
    ∧ search_visits g opt element calls
    ∧ res = filter (λ c, cell_id c ≠ cell_id element) calls.*1.*1
    ∧ ∀ call, call ∈ calls → call.2 = true).
  { set (I := λ (a : list Cell) (cs : Calls),
           a = filter (λ c, cell_id c ≠ cell_id element) cs.*1.*1
           ∧ ∀ call, call ∈ cs → call.2 = true).
    assert (HI : ∀ a cs c d, I a cs →
              I (push_other element a c d).1
                (cs ++ [(c, d, (push_other element a c d).2)])).
    { intros a cs c d [-> Hflags]. unfold push_other. simpl. split.
      - rewrite !fmap_app, filter_app. simpl. rewrite filter_cons, filter_nil.
        destruct (decide (cell_id c ≠ cell_id element)) as [Hc|Hc].
        + by rewrite bool_decide_eq_true_2.
        + rewrite bool_decide_eq_false_2 by done. by rewrite app_nil_r.
      - intros call [Hc|Hc]%elem_of_app; [by apply Hflags|].
        apply list_elem_of_singleton in Hc. by subst. }
    assert (HI0 : I [] []).
    { split; [done|]. by intros call ?%elem_of_nil. }
    unfold search. destruct breadthFirst.
    - destruct (search_loop_from_start (push_other element) g opt
                  (λ rest neighbors, rest ++ neighbors) element [])
        as (res & calls & Hr & _ & Hv); [done|done|].
      exists res, calls. split; [done|]. split; [done|].
      apply (search_loop_inv _ _ _ _ I HI _ _ _ Hr HI0).
    - destruct (search_loop_from_start (push_other element) g opt
                  (λ rest neighbors, neighbors ++ rest) element [])
        as (res & calls & Hr & _ & Hv);
        [intros; apply Permutation_app_comm|done|].
      exists res, calls. split; [done|]. split; [done|].
      apply (search_loop_inv _ _ _ _ I HI _ _ _ Hr HI0). }
  destruct Hrun as (res & calls & Hr & (Hndc & Hreached & Hcalled) & Hres & Hflags).
  exists res, calls. split; [done|].
  assert (Hids : called_ids calls = cell_id <$> calls.*1.*1).
  { unfold called_ids. clear.
    induction calls as [|[[c d] b] l IH]; [done|]. csimpl. by f_equal. }
  split.
  { rewrite Hres. rewrite Hids in Hndc.
    apply (sublist_NoDup _ (cell_id <$> calls.*1.*1));
      [exact Hndc | apply fmap_sublist, sublist_filter]. }
  assert (Hcall : ∀ c, reached g opt element calls c →
                       ∃ d, (c, d, true) ∈ calls).
  { intros c Hc. pose proof (Hcalled c Hc) as Hid.
    apply list_elem_of_fmap in Hid as ([[c' d] b] & Hid & Hcall). simpl in Hid.
    pose proof (Hflags _ Hcall) as Hb. simpl in Hb. subst b.
    assert (c' = c) as ->; [|eauto].
    apply (same_id_same_cell g); [done| | |done].
    - eapply reached_in_collection; [done|]. by eapply Hreached.
    - by eapply reached_in_collection. }
  assert (Hchain : ∀ c, neighbor_chain g opt element c
                        ↔ reached g opt element calls c).
  { intros c. split.
    - induction 1 as [|c ns n _ IH Hns Hn]; [constructor|].
      destruct (Hcall c IH) as [d Hd]. by econstructor.
    - induction 1 as [|c d ns n _ IH _ Hns Hn]; [constructor|].
      by econstructor. }
  intros c. rewrite Hres, list_elem_of_filter, Hchain. split.
  - intros [Hne Hc]. split; [|done].
    apply list_elem_of_fmap in Hc as ([c' d] & -> & Hc).
    apply list_elem_of_fmap in Hc as ([[c'' d'] b] & [= <- <-] & Hc).
    by eapply Hreached.
  - intros [Hc Hne]. split; [done|]. destruct (Hcall c Hc) as [d Hd].
    apply list_elem_of_fmap. exists (c, d). split; [done|].
    apply list_elem_of_fmap. by exists (c, d, true).
Qed.



Lemma neighbors_return_graph_with_loop opt :
  indirect opt = false → deep opt = false →
  ∀ c, c ∈ cellCollection graph_with_loop →
       ∃ ns, getNeighbors graph_with_loop c opt = Ok ns.
Proof.
  intros Hi Hd c Hc. destruct opt as [[[]|] [[]|] ind dp enc];
    simpl in Hi, Hd; subst ind dp;
    rewrite cells_graph_with_loop in Hc;
    repeat (apply elem_of_cons in Hc as [->|Hc]);
    try (by apply elem_of_nil in Hc);
    (eexists; vm_compute; reflexivity).
Qed.



(** what [isSuccessor] and [isPredecessor] come to, from the search they
    share *)
Lemma search_finds_chain g opt breadthFirst elementA elementB :
  index_ok g → elementA ∈ cellCollection g → elementB ∈ cellCollection g →
  (∀ c, c ∈ cellCollection g → ∃ ns, getNeighbors g c opt = Ok ns) →
  ∃ found calls,
    search (find_other elementA elementB) g opt breadthFirst elementA false
    = Ok (found, calls)
    ∧ (found = true
       ↔ neighbor_chain g opt elementA elementB
         ∧ cell_id elementB ≠ cell_id elementA).
Proof.
  intros Hok HA HB Hneighbors. pose proof (im_ids _ _ Hok) as Hnd.
  assert (Hneighbors' : ∀ c, c ∈ elementA :: cellCollection g →
                             ∃ ns, getNeighbors g c opt = Ok ns).
  { intros c [->|Hc]%elem_of_cons; by apply Hneighbors. }
  set (is_B := λ c : Cell,
         bool_decide (cell_id c = cell_id elementB)
         && bool_decide (cell_id c ≠ cell_id elementA)).
  set (I := λ (a : bool) (cs : Calls),
         (a = true ↔ ∃ call, call ∈ cs ∧ is_B call.1.1 = true)
         ∧ ∀ call, call ∈ cs → call.2 = negb (is_B call.1.1)).
  assert (HI : ∀ a cs c d, I a cs →
            I (find_other elementA elementB a c d).1
              (cs ++ [(c, d, (find_other elementA elementB a c d).2)])).
  { intros a cs c d [Hfound Hflags]. unfold find_other. fold (is_B c).
    destruct (is_B c) eqn:HisB; simpl; split.
    - split; [|done]. intros _. exists (c, d, false).
      split; [apply elem_of_app; right; left | done].
    - intros call [Hc|Hc]%elem_of_app; [by apply Hflags|].
      apply list_elem_of_singleton in Hc. subst. simpl. by rewrite HisB.
    - rewrite Hfound. split.
      + intros (call & Hc & Hb). exists call. split; [|done].
        apply elem_of_app. by left.
      + intros (call & [Hc|Hc]%elem_of_app & Hb); [by eauto|].
        apply list_elem_of_singleton in Hc. subst. simpl in Hb. congruence.
    - intros call [Hc|Hc]%elem_of_app; [by apply Hflags|].
      apply list_elem_of_singleton in Hc. subst. simpl. by rewrite HisB. }
  assert (HI0 : I false []).
  { split; [|by intros call ?%elem_of_nil].
    split; [done|]. by intros (call & ?%elem_of_nil & _). }
  assert (Hrun : ∃ found calls,
    search (find_other elementA elementB) g opt breadthFirst elementA false
    = Ok (found, calls)
    ∧ search_visits g opt elementA calls ∧ I found calls).
  { unfold search. destruct breadthFirst.
    - destruct (search_loop_from_start (find_other elementA elementB) g opt
                  (λ rest neighbors, rest ++ neighbors) elementA false)
        as (res & calls & Hr & _ & Hv); [done|done|].
      exists res, calls. split; [done|]. split; [done|].
      apply (search_loop_inv _ _ _ _ I HI _ _ _ Hr HI0).
    - destruct (search_loop_from_start (find_other elementA elementB) g opt
                  (λ rest neighbors, neighbors ++ rest) elementA false)
        as (res & calls & Hr & _ & Hv);
        [intros; apply Permutation_app_comm|done|].
      exists res, calls. split; [done|]. split; [done|].
      apply (search_loop_inv _ _ _ _ I HI _ _ _ Hr HI0). }
  destruct Hrun
    as (found & calls & Hr & (Hndc & Hreached & Hcalled) & Hfound & Hflags).
  exists found, calls. split; [done|].
  assert (Hcall : ∀ c, reached g opt elementA calls c →
                       ∃ d, (c, d, negb (is_B c)) ∈ calls).
  { intros c Hc. pose proof (Hcalled c Hc) as Hid.
    apply list_elem_of_fmap in Hid as ([[c' d] b] & Hid & Hcall). simpl in Hid.
    pose proof (Hflags _ Hcall) as Hb. simpl in Hb. subst b.
    assert (c' = c) as ->; [|eauto].
    apply (same_id_same_cell g); [done| | |done].
    - eapply reached_in_collection; [exact HA|]. by eapply Hreached.
    - eapply reached_in_collection; [exact HA|done]. }
  assert (Hto_chain : ∀ c, reached g opt elementA calls c →
                           neighbor_chain g opt elementA c).
  { induction 1 as [|c d ns n _ IH _ Hns Hn]; [constructor|].
    by econstructor. }
  rewrite Hfound. split.
  - intros ([[c d] fl] & Hc & HisB). simpl in HisB. unfold is_B in HisB.
    apply andb_true_iff in HisB as [Hb Ha].
    apply bool_decide_eq_true in Hb. apply bool_decide_eq_true in Ha.
    pose proof (Hreached _ _ _ Hc) as Hrc.
    assert (c = elementB) as ->.
    { apply (same_id_same_cell g); [done| |done|done].
      eapply reached_in_collection; [exact HA|done]. }
    split; [by apply Hto_chain | done].
  - intros [Hchain Hne].
    assert (Hor : ∀ c, neighbor_chain g opt elementA c →
              reached g opt elementA calls c
              ∨ ∃ call, call ∈ calls ∧ is_B call.1.1 = true).
    { induction 1 as [|c ns n _ IH Hns Hn]; [left; constructor|].
      destruct IH as [Hrc|?]; [|by right].
      destruct (Hcall c Hrc) as [d Hd].
      destruct (is_B c) eqn:HisB.
      - right. exists (c, d, negb true). done.
      - left. by econstructor. }
    destruct (Hor _ Hchain) as [Hrb|?]; [|done].
    destruct (Hcall _ Hrb) as [d Hd]. eexists. split; [exact Hd|].
    simpl. unfold is_B. apply andb_true_iff.
    split; by apply bool_decide_eq_true.
Qed.




(** ** A link end that names no cell *)

Lemma neighbors_fold_throws g model opt inb (links : list (option Cell)) l t :
  Some l ∈ links → ep_id (target l) = Some t → getCell g t = None →
  ∀ res, (∀ k c, (k, c) ∈ res → is_Some (getCell g k)) →
    ∃ msg,
      foldM (λ res (link : option Cell),
               match link with
               | None => Throw (TypeError "link is undefined")
               | Some l =>
                   loop ← hasLoop g (deep opt) l;
                   res1 ← add_neighbor g model opt inb loop (source l) res;
                   add_neighbor g model opt true loop (target l) res1
               end) res links = Throw (TypeError msg).
Proof.
  intros Hl Ht Hnone.
  assert (Hthrow : ∀ gate loop ep res,
    (∃ msg, add_neighbor g model opt gate loop ep res = Throw (TypeError msg))
    ∨ (∃ res', add_neighbor g model opt gate loop ep res = Ok res')).
  { intros gate loop ep res. unfold add_neighbor.
    destruct (ep_id ep) as [id|]; [|eauto].
    destruct (gate && negb (has_key id res)); [|eauto].
    destruct (getCell g id) as [el|]; [|eauto].
    destruct (isElement el); [|eauto].
    destruct (loop || _); eauto. }
  assert (Hkeep : ∀ gate loop ep res res',
    (∀ k c, (k, c) ∈ res → is_Some (getCell g k)) →
    add_neighbor g model opt gate loop ep res = Ok res' →
    ∀ k c, (k, c) ∈ res' → is_Some (getCell g k)).
  { intros gate loop ep res res' Hres Hadd.
    apply add_neighbor_added in Hadd
      as [->|(id & el & -> & _ & Hel & _)]; [done|].
    intros k c [Hin|Hin]%elem_of_app; [by eapply Hres|].
    apply list_elem_of_singleton in Hin. simplify_eq. eauto. }
  induction links as [|link links IH]; intros res Hres.
  { by apply elem_of_nil in Hl. }
  simpl. destruct link as [l0|]; [|eauto].
  assert (Hhas : (∃ msg, hasLoop g (deep opt) l0 = Throw (TypeError msg))
                 ∨ (∃ b, hasLoop g (deep opt) l0 = Ok b)).
  { unfold hasLoop.
    destruct (truthy_id (source l0)) as [s0|]; [|eauto].
    destruct (truthy_id (target l0)) as [t0|]; [|eauto].
    case_bool_decide; [eauto|]. destruct (deep opt); [|eauto].
    destruct (getCell g s0); [|eauto]. destruct (getCell g t0); eauto. }
  destruct Hhas as [[msg ->]|[b ->]]; [eauto|]. simpl.
  destruct (Hthrow inb b (source l0) res) as [[msg ->]|[res1 H1]];
    [eauto|].
  rewrite H1. simpl.
  pose proof (Hkeep _ _ _ _ _ Hres H1) as Hres1.
  apply elem_of_cons in Hl as [Heq|Hl].
  - injection Heq as <-. exists "element is undefined".
    unfold add_neighbor. rewrite Ht. simpl.
    unfold has_key. rewrite bool_decide_eq_false_2.
    + simpl. by rewrite Hnone.
    + intros Hk. apply list_elem_of_fmap in Hk as ([k c] & -> & Hkc).
      apply Hres1 in Hkc as [? Hsome]. simpl in *. congruence.
  - destruct (Hthrow true b (target l0) res1)
      as [[msg ->]|[res2 H2]]; [eauto|].
    rewrite H2. simpl. apply (IH Hl). by eapply Hkeep.
Qed.


(** ** The validation of double links *)

Lemma outbound_links_spec g model :
  index_ok g →
  ∃ links,
    getConnectedLinks g (mkQueryOpt None (Some true) false false false) model
    = Ok (Some <$> links)
    ∧ NoDup (cell_id <$> links)
    ∧ ∀ l, l ∈ links ↔ l ∈ cellCollection g ∧ isLink l = true
                       ∧ truthy_id (source l) = Some (cell_id model).
Proof.
  intros [Hids Hout Hin _ _ Hndo Hndi].
  set (es := getOutboundEdges g (cell_id model)).
  assert (Hsome : ∀ e, e ∈ es → is_Some (getCell g e)).
  { intros e (_ & c & -> & _)%Hout. eauto. }
  assert (Hidl : cell_id <$> omap (getCell g) es = es).
  { induction es as [|e es' IH]; [done|].
    destruct (Hsome e) as [c Hc]; [left|]. csimpl. rewrite Hc. csimpl.
    apply getCell_Some in Hc as [-> _]. f_equal. apply IH.
    intros x Hx. apply Hsome. by right. }
  exists (omap (getCell g) es). split; [|split].
  - rewrite getConnectedLinks_direct by (done || apply Hndo || apply Hndi).
    unfold direct_edges. simpl. rewrite app_nil_r.
    f_equal. by apply fmap_Some_omap.
  - rewrite Hidl. apply Hndo.
  - intros l. rewrite list_elem_of_omap, (elem_of_getCell g l Hids). split.
    + intros (e & He & Hg). pose proof (getCell_Some _ _ _ Hg) as [<- _].
      apply Hout in He as (_ & c & Hc & ? & ?). by simplify_eq.
    + intros (Hg & ? & ?). exists (cell_id l). split; [|done].
      apply Hout. split; [set_solver|]. eauto.
Qed.

Lemma foldM_filter (test : Cell → bool) (ls : list Cell) : ∀ same,
  foldM (λ (same : list Cell) (l : option Cell),
           match l with
           | None => Throw (TypeError "link is undefined")
           | Some x => if test x then Ok (same ++ [x]) else Ok same
           end) same (Some <$> ls)
  = Ok (same ++ filter (λ x, test x = true) ls).
Proof.
  induction ls as [|x ls IH]; intros same; csimpl.
  - by rewrite app_nil_r.
  - rewrite filter_cons. destruct (decide (test x = true)) as [Hx|Hx].
    + rewrite Hx. simpl. rewrite IH. by rewrite <- app_assoc.
    + apply not_true_is_false in Hx. rewrite Hx. simpl. by rewrite IH.
Qed.

Lemma more_than_one {A} (f : A → string) (l : list A) x :
  NoDup (f <$> l) → x ∈ l →
  (1 < length l)%nat ↔ ∃ y, y ∈ l ∧ f y ≠ f x.
Proof.
  intros Hnd Hx. apply list_elem_of_split in Hx as (pre & post & ->).
  rewrite fmap_app, fmap_cons in Hnd.
  apply NoDup_app in Hnd as (_ & Hpre & Hpost).
  apply NoDup_cons in Hpost as [Hpost _].
  rewrite length_app. simpl. split.
  - intros Hlen. destruct pre as [|y pre].
    + destruct post as [|y post]; [simpl in Hlen; lia|].
      exists y. split; [set_solver|]. intros Heq. apply Hpost.
      rewrite <- Heq. apply list_elem_of_fmap. exists y. split; [done|left].
    + exists y. split; [set_solver|]. intros Heq. apply (Hpre (f y)).
      * apply list_elem_of_fmap. exists y. split; [done|left].
      * rewrite Heq. left.
  - intros (y & Hy & Hne). apply elem_of_app in Hy as [Hy|Hy].
    + destruct pre; [by apply elem_of_nil in Hy|simpl; lia].
    + apply elem_of_cons in Hy as [->|Hy]; [done|].
      destruct post; [by apply elem_of_nil in Hy|simpl; lia].
Qed.


(** ** The index handlers, one after the other *)

Lemma jset_del_add k s : k ∉ s → jset_del k (jset_add k s) = s.
Proof.
  intros Hk. unfold jset_add, jset_del. rewrite decide_False by done.
  rewrite filter_app, filter_cons, decide_False, filter_nil, app_nil_r
    by (by intros ?).
  apply filter_all_elem_of. intros x Hx ->. done.
Qed.

Lemma bucket_del_add k id m s :
  id ∉ default [] (m !! k) →
  default [] (bucket_del k id (bucket_add k id m) !! s) = default [] (m !! s).
Proof.
  intros Hid. rewrite bucket_del_lookup.
  destruct (decide (k = s)) as [->|Hne].
  - rewrite bucket_add_lookup, decide_True by done. by apply jset_del_add.
  - rewrite bucket_add_lookup. by rewrite decide_False.
Qed.

Lemma bucket_del_add_key k id m :
  is_Some (bucket_del k id (bucket_add k id m) !! k).
Proof.
  unfold bucket_del, bucket_add. rewrite lookup_insert_eq.
  rewrite lookup_insert_eq. eauto.
Qed.

(** X21.  For a cell whose id is not in the collection of a graph whose
    index matches, [_restructureOnRemove] undoes [_restructureOnAdd]: every
    bucket lists what it listed, in the same order, and the nodes and the
    edges are the same.  The bucket of an end of a link that was made by
    the way is not deleted: it is left empty. *)
Theorem remove_undoes_add_in_index (g : Graph) (c : Cell)
    (Hok : index_ok g) (Hnew : getCell g (cell_id c) = None) :
  let g' := _restructureOnRemove c (_restructureOnAdd c g) in
  (∀ k, getOutboundEdges g' k = getOutboundEdges g k)
  ∧ (∀ k, getInboundEdges g' k = getInboundEdges g k)
  ∧ _nodes g' = _nodes g
  ∧ _edges g' = _edges g
  ∧ (isLink c = true →
     (∀ s, truthy_id (source c) = Some s → is_Some (_out g' !! s))
     ∧ (∀ t, truthy_id (target c) = Some t → is_Some (_in g' !! t))).
Proof.
  intros g'.
  assert (Hout : ∀ k, cell_id c ∉ getOutboundEdges g k).
  { intros k (_ & c0 & Hc0 & _)%(im_out _ _ Hok). congruence. }
  assert (Hin : ∀ k, cell_id c ∉ getInboundEdges g k).
  { intros k (_ & c0 & Hc0 & _)%(im_in _ _ Hok). congruence. }
  assert (Hn : cell_id c ∉ _nodes g).
  { intros (_ & c0 & Hc0 & _)%(im_nodes _ _ Hok). congruence. }
  assert (He : cell_id c ∉ _edges g).
  { intros (_ & c0 & Hc0 & _)%(im_edges _ _ Hok). congruence. }
  unfold g', _restructureOnRemove, _restructureOnAdd,
    getOutboundEdges, getInboundEdges in *.
  destruct (isLink c).
  - destruct (truthy_id (source c)) as [s|], (truthy_id (target c)) as [t|];
      simpl; repeat split;
      try (intros k; apply bucket_del_add; apply Hout || apply Hin);
      try done; try set_solver;
      try (intros ? [= <-]; apply bucket_del_add_key).
  - simpl. repeat split; try done. set_solver.
Qed.

Lemma remove_undoes_add_in_index_witness :
  let g' := _restructureOnRemove (link_cell "n" "b" "c")
              (_restructureOnAdd (link_cell "n" "b" "c") graph_with_loop) in
  (∀ k, getOutboundEdges g' k = getOutboundEdges graph_with_loop k)
  ∧ (∀ k, getInboundEdges g' k = getInboundEdges graph_with_loop k)
  ∧ _nodes g' = _nodes graph_with_loop
  ∧ _edges g' = _edges graph_with_loop
  ∧ (isLink (link_cell "n" "b" "c") = true →
     (∀ s, truthy_id (source (link_cell "n" "b" "c")) = Some s →
           is_Some (_out g' !! s))
     ∧ (∀ t, truthy_id (target (link_cell "n" "b" "c")) = Some t →
             is_Some (_in g' !! t))).
Proof.
  apply (remove_undoes_add_in_index graph_with_loop (link_cell "n" "b" "c")).
  - apply reachable_index_ok, reachable_graph_with_loop.
  - vm_compute. reflexivity.
Defined.
(** ** Replacing a cell *)

(** X22.  [_replaceCell] of a cell of the collection, by a cell of the
    same id whose merged attributes have a string [type], on a graph whose
    index matches: it ends without an exception, the index matches again,
    the replacement stands at the end of the collection, every other cell is
    the cell it was (the links attached to the replaced cell are neither
    removed nor disconnected), and every batch counter is back at its
    value. *)
Theorem replace_keeps_other_cells (g : Graph) (cur : Cell) (new : CellInit)
    (opt : Opt)
    (Hok : index_ok g)
    (Hcur : getCell g (cell_id cur) = Some cur)
    (Hid : cell_id (init_cell new) = cell_id cur)
    (Htype : isString (replacementCellAttributes cur new !! "type") = true) :
  ∃ g' c,
    _replaceCell cur new opt g = (g', Ok tt)
    ∧ index_ok g'
    ∧ cell_id c = cell_id cur
    ∧ cellCollection g'
      = filter (λ c0, cell_id c0 ≠ cell_id cur) (cellCollection g) ++ [c]
    ∧ (∀ id, id ≠ cell_id cur → getCell g' id = getCell g id)
    ∧ ∀ n, batch_count g' n = batch_count g n.
Proof.
  destruct (replaceCell_effect g cur new opt Hid Htype)
    as (c & Hrun & Hcid & _ & _).
  set (g0 := startBatch "replace-cell" g) in *.
  set (g1 := _restructureOnRemove cur g0) in *.
  set (g2 := collection_remove_silent cur g1) in *.
  assert (Hnone : getCell g2 (cell_id c) = None).
  { unfold g2. rewrite getCell_remove_silent, Hcid. by rewrite decide_True. }
  assert (Hok2 : index_ok g2).
  { unfold g2, index_ok.
    eapply (index_matches_eq ((({[cell_id cur]} ∪ ∅) ∖ {[cell_id cur]})));
      [set_solver|].
    apply index_matches_remove_silent; [|set_solver].
    apply index_matches_restructureOnRemove; [|done].
    by apply index_ok_startBatch. }
  eexists _, c. split; [exact Hrun|]. split; [|split; [done|split; [|split]]].
  - by apply index_ok_stopBatch, index_ok_collection_add.
  - simpl. unfold collection_add. rewrite Hnone.
    rewrite restructureOnAdd_cells. simpl. unfold g1.
    by rewrite restructureOnRemove_cells.
  - intros id Hne.
    assert (getCell (stopBatch "replace-cell" (collection_add c g2)) id
            = getCell (collection_add c g2) id) as -> by done.
    rewrite getCell_collection_add_new by done.
    rewrite decide_False by congruence.
    unfold g2. rewrite getCell_remove_silent, decide_False by done.
    unfold g1. by rewrite getCell_restructureOnRemove.
  - intros n. rewrite batch_count_stop by reflexivity.
    assert (Hb : batch_count (collection_add c g2) n = batch_count g0 n).
    { apply batch_count_batches_of. rewrite batches_collection_add.
      unfold g2, g1, _restructureOnRemove. simpl.
      destruct (isLink cur); [|done].
      destruct (truthy_id (source cur)), (truthy_id (target cur)); done. }
    rewrite Hb. unfold g0. rewrite batch_count_start by reflexivity.
    destruct (decide ("replace-cell" = n)); lia.
Qed.

Lemma replace_keeps_other_cells_witness :
  ∃ g' c,
    _replaceCell (element_cell "a")
      (Json (mkCell "a" Element {[ "type" := VStr "standard.Circle" ]}))
      no_option graph_with_loop
    = (g', Ok tt)
    ∧ index_ok g'
    ∧ cell_id c = "a"
    ∧ cellCollection g'
      = filter (λ c0, cell_id c0 ≠ "a") (cellCollection graph_with_loop) ++ [c]
    ∧ (∀ id, id ≠ "a" → getCell g' id = getCell graph_with_loop id)
    ∧ ∀ n, batch_count g' n = batch_count graph_with_loop n.
Proof.
  apply (replace_keeps_other_cells graph_with_loop (element_cell "a")
           (Json (mkCell "a" Element {[ "type" := VStr "standard.Circle" ]}))
           no_option).
  - apply reachable_index_ok, reachable_graph_with_loop.
  - vm_compute. reflexivity.
  - reflexivity.
  - vm_compute. reflexivity.
Defined.
(** ** Connected links, with [deep] *)

Lemma bucket_of_spec g d id e :
  index_ok g →
  e ∈ bucket_of g d id
  ↔ ∃ c, getCell g e = Some c ∧ isLink c = true ∧ end_of d c = Some id.
Proof.
  intros Hok. destruct d; simpl.
  - rewrite (im_in _ _ Hok). split; [by intros [_ ?]|].
    intros ?. split; [set_solver|done].
  - rewrite (im_out _ _ Hok). split; [by intros [_ ?]|].
    intros ?. split; [set_solver|done].
Qed.

Lemma add_deep_spec g opt E d cell :
  index_ok g →
  ∀ (ls : list Cell) (X : gset string),
    X = list_to_set (cell_id <$> ls) →
    NoDup (cell_id <$> ls) →
    (∀ l, l ∈ ls → getCell g (cell_id l) = Some l) →
    ∃ ls' X',
      add_deep g opt E d cell (Some <$> ls, X) = Ok (Some <$> ls', X')
      ∧ X' = list_to_set (cell_id <$> ls')
      ∧ NoDup (cell_id <$> ls')
      ∧ (∀ l, l ∈ ls' → getCell g (cell_id l) = Some l)
      ∧ ∀ l, l ∈ ls'
             ↔ l ∈ ls
               ∨ (getCell g (cell_id l) = Some l ∧ isLink l = true
                  ∧ end_of d l = Some (cell_id cell)
                  ∧ enclosed opt E l = false).
Proof.
  intros Hok. unfold add_deep.
  assert (Hgen : ∀ b : list string,
    (∀ e, e ∈ b → e ∈ bucket_of g d (cell_id cell)) →
    ∀ (ls : list Cell) (X : gset string),
      X = list_to_set (cell_id <$> ls) →
      NoDup (cell_id <$> ls) →
      (∀ l, l ∈ ls → getCell g (cell_id l) = Some l) →
      ∃ ls' X',
        foldM (λ (st : Links) (edge : string),
            if decide (edge ∈ st.2) then Ok st
            else
              match getCell g edge with
              | None => Throw (TypeError "edgeCell is undefined")
              | Some edgeCell =>
                  if negb (includeEnclosed opt)
                     && match truthy_id (source edgeCell) with
                        | Some s => bool_decide (s ∈ E)
                        | None => false
                        end
                     && match truthy_id (target edgeCell) with
                        | Some t => bool_decide (t ∈ E)
                        | None => false
                        end
                  then Ok st
                  else Ok (st.1 ++ [Some edgeCell], {[edge]} ∪ st.2)
              end) (Some <$> ls, X) b
        = Ok (Some <$> ls', X')
        ∧ X' = list_to_set (cell_id <$> ls')
        ∧ NoDup (cell_id <$> ls')
        ∧ (∀ l, l ∈ ls' → getCell g (cell_id l) = Some l)
        ∧ ∀ l, l ∈ ls'
               ↔ l ∈ ls
                 ∨ (cell_id l ∈ b ∧ getCell g (cell_id l) = Some l
                    ∧ enclosed opt E l = false)).
  { induction b as [|e b IH]; intros Hb ls X HX Hnd Hget.
    - exists ls, X. simpl. split; [done|]. split; [done|]. split; [done|].
      split; [done|]. intros l. rewrite elem_of_nil. tauto.
    - assert (Hb' : ∀ e0, e0 ∈ b → e0 ∈ bucket_of g d (cell_id cell))
        by (intros e0 He0; apply Hb; by right).
      simpl. destruct (decide (e ∈ X)) as [HeX|HeX].
      + destruct (IH Hb' ls X HX Hnd Hget)
          as (ls' & X' & Hrun & HX' & Hnd' & Hget' & Hmem').
        exists ls', X'. split; [done|]. split; [done|]. split; [done|].
        split; [done|]. intros l. rewrite Hmem', elem_of_cons. split.
        * intros [?|(? & ? & ?)]; [by left|right; tauto].
        * intros [?|([Heq|?] & Hg & ?)]; [by left| |right; tauto].
          left. subst X. apply elem_of_list_to_set in HeX.
          apply list_elem_of_fmap in HeX as (l0 & Hid0 & Hl0).
          pose proof (Hget _ Hl0) as Hg0. rewrite <- Hid0, <- Heq, Hg in Hg0.
          by simplify_eq.
      + destruct (proj1 (bucket_of_spec g d (cell_id cell) e Hok))
          as (edgeCell & Hedge & Hlink & Hend); [apply Hb; left|].
        rewrite Hedge. fold (enclosed opt E edgeCell).
        pose proof (getCell_Some _ _ _ Hedge) as [Heid _].
        destruct (enclosed opt E edgeCell) eqn:Henc.
        * destruct (IH Hb' ls X HX Hnd Hget)
            as (ls' & X' & Hrun & HX' & Hnd' & Hget' & Hmem').
          exists ls', X'. split; [done|]. split; [done|]. split; [done|].
          split; [done|]. intros l. rewrite Hmem', elem_of_cons. split.
          -- intros [?|(? & ? & ?)]; [by left|right; tauto].
          -- intros [?|([Heq|?] & Hg & Hne)]; [by left| |right; tauto].
             rewrite Heq, Hedge in Hg. simplify_eq. congruence.
        * destruct (IH Hb' (ls ++ [edgeCell]) ({[e]} ∪ X))
            as (ls' & X' & Hrun & HX' & Hnd' & Hget' & Hmem').
          { rewrite fmap_app, list_to_set_app_L, HX. simpl. set_solver. }
          { rewrite fmap_app. apply NoDup_app. split; [done|].
            split; [|apply NoDup_singleton].
            intros x Hx Hx'. simpl in Hx'. apply list_elem_of_singleton in Hx'.
            subst x. apply HeX. subst X. apply elem_of_list_to_set.
            by rewrite <- Heid. }
          { intros l [Hl|Hl]%elem_of_app; [by apply Hget|].
            apply list_elem_of_singleton in Hl. subst l. by rewrite Heid. }
          exists ls', X'. simpl. rewrite fmap_app in Hrun. simpl in Hrun.
          split; [done|]. split; [done|]. split; [done|]. split; [done|].
          intros l. rewrite Hmem', elem_of_app, list_elem_of_singleton,
            elem_of_cons. split.
          -- intros [[?| ->]|(? & ? & ?)]; [by left| |right; tauto].
             right. rewrite Heid. split; [by left|done].
          -- intros [?|([Heq|?] & Hg & Hne)]; [tauto| |right; tauto].
             left. right. rewrite Heq, Hedge in Hg. by simplify_eq. }
  intros ls X HX Hnd Hget.
  destruct (Hgen (bucket_of g d (cell_id cell)) (λ e He, He) ls X HX Hnd Hget)
    as (ls' & X' & Hrun & HX' & Hnd' & Hget' & Hmem').
  exists ls', X'. split; [done|]. split; [done|]. split; [done|].
  split; [done|]. intros l. rewrite Hmem'.
  rewrite (bucket_of_spec g d (cell_id cell) (cell_id l) Hok). split.
  - intros [?|((c & Hc & ? & ?) & Hg & ?)]; [by left|right].
    rewrite Hg in Hc. by simplify_eq.
  - intros [?|(Hg & ? & ? & ?)]; [by left|right]. eauto 10.
Qed.

Lemma deep_fold g opt E (cells : list Cell) :
  index_ok g →
  ∀ (ls : list Cell) (X : gset string),
    X = list_to_set (cell_id <$> ls) →
    NoDup (cell_id <$> ls) →
    (∀ l, l ∈ ls → getCell g (cell_id l) = Some l) →
    ∃ ls' X',
      foldM (λ st cell,
               if isLink cell then Ok st
               else
                 st' ← add_deep g opt E Outbound cell st;
                 add_deep g opt E Inbound cell st')
            (Some <$> ls, X) cells
      = Ok (Some <$> ls', X')
      ∧ NoDup (cell_id <$> ls')
      ∧ ∀ l, l ∈ ls'
             ↔ l ∈ ls
               ∨ (getCell g (cell_id l) = Some l ∧ isLink l = true
                  ∧ ∃ cell d, cell ∈ cells ∧ isLink cell = false
                              ∧ end_of d l = Some (cell_id cell)
                              ∧ enclosed opt E l = false).
Proof.
  intros Hok. induction cells as [|cell cells IH]; intros ls X HX Hnd Hget.
  - exists ls, X. split; [done|]. split; [done|]. intros l. split; [by left|].
    intros [?|(_ & _ & c & d & ?%elem_of_nil & _)]; done.
  - simpl. destruct (isLink cell) eqn:Hcell.
    + destruct (IH ls X HX Hnd Hget) as (ls' & X' & Hrun & Hnd' & Hmem').
      exists ls', X'. split; [done|]. split; [done|]. intros l.
      rewrite Hmem'. split.
      * intros [?|(? & ? & c & d & ? & ?)]; [by left|right].
        split; [done|]. split; [done|]. exists c, d. split; [by right|done].
      * intros [?|(? & ? & c & d & [->|?]%elem_of_cons & Hc & ?)];
          [by left|congruence|right].
        split; [done|]. split; [done|]. by exists c, d.
    + destruct (add_deep_spec g opt E Outbound cell Hok ls X HX Hnd Hget)
        as (ls1 & X1 & Hrun1 & HX1 & Hnd1 & Hget1 & Hmem1).
      destruct (add_deep_spec g opt E Inbound cell Hok ls1 X1 HX1 Hnd1 Hget1)
        as (ls2 & X2 & Hrun2 & HX2 & Hnd2 & Hget2 & Hmem2).
      destruct (IH ls2 X2 HX2 Hnd2 Hget2) as (ls' & X' & Hrun & Hnd' & Hmem').
      exists ls', X'. rewrite Hrun1. simpl. rewrite Hrun2.
      split; [done|]. split; [done|]. intros l.
      rewrite Hmem', Hmem2, Hmem1. split.
      * intros [[[?|(? & ? & ? & ?)]|(? & ? & ? & ?)]|(? & ? & c & d & ? & ?)].
        -- by left.
        -- right. split; [done|]. split; [done|]. exists cell, Outbound.
           split; [left|done].
        -- right. split; [done|]. split; [done|]. exists cell, Inbound.
           split; [left|done].
        -- right. split; [done|]. split; [done|]. exists c, d.
           split; [by right|done].
      * intros [?|(? & ? & c & d & [->|?]%elem_of_cons & Hc & ? & ?)].
        -- by left; left; left.
        -- left. destruct d; [right|left; right]; done.
        -- right. split; [done|]. split; [done|]. by exists c, d.
Qed.


Lemma reachable_graph_with_embedded : reachable graph_with_embedded.
Proof.
  unfold graph_with_embedded.
  by_operations.
Qed.

(** ** Moving the links of a cell to another cell *)

Lemma is_cell_resolve g e s :
  is_Some (getCell g (cell_id s)) →
  is_cell (resolve g e) s = bool_decide (truthy_id e = Some (cell_id s)).
Proof.
  intros [s' Hs]. unfold resolve. destruct (truthy_id e) as [id|]; [|done].
  destruct (getCell g id) as [c|] eqn:Hc; simpl.
  - apply getCell_Some in Hc as [-> _].
    apply bool_decide_ext. split; congruence.
  - symmetry. apply bool_decide_eq_false_2. intros [= ->]. congruence.
Qed.

Lemma transfer_link_spec P g s t l live :
  index_matches P g → cell_id l ∉ P →
  getCell g (cell_id l) = Some live → isLink live = true →
  is_Some (getCell g (cell_id s)) →
  index_matches P (transfer_link s t l g)
  ∧ ∀ id, getCell (transfer_link s t l g) id
          = if decide (id = cell_id l)
            then Some (transferred (cell_id s) (cell_id t) live)
            else getCell g id.
Proof.
  intros Hinv HP Hlive Hlink Hs. unfold transfer_link, transferred.
  rewrite Hlive. unfold getSourceCell, getTargetCell.
  rewrite (is_cell_resolve g _ s Hs).
  set (c1 := if bool_decide (truthy_id (source live) = Some (cell_id s))
             then patched live
                    {[ "source" := VEnd (with_end_id (source live) (cell_id t)) ]}
             else live).
  set (g1 := if bool_decide (truthy_id (source live) = Some (cell_id s))
             then cell_set (cell_id l)
                    {[ "source" := VEnd (with_end_id (source live) (cell_id t)) ]}
                    g
             else g).
  assert (H1 : index_matches P g1
               ∧ ∀ id, getCell g1 id
                       = if decide (id = cell_id l) then Some c1
                         else getCell g id).
  { unfold g1, c1. case_bool_decide.
    - split; [eapply index_matches_cell_set; eauto|].
      intros id. by rewrite (getCell_cell_set _ _ _ live).
    - split; [done|]. intros id. destruct (decide (id = cell_id l)); congruence. }
  destruct H1 as [Hinv1 Hget1].
  assert (Hlive1 : getCell g1 (cell_id l) = Some c1).
  { by rewrite Hget1, decide_True. }
  assert (Hlink1 : isLink c1 = true).
  { unfold c1. by case_bool_decide. }
  assert (Hs1 : is_Some (getCell g1 (cell_id s))).
  { rewrite Hget1. destruct (decide (cell_id s = cell_id l)); eauto. }
  rewrite Hlive1, (is_cell_resolve g1 _ s Hs1).
  case_bool_decide.
  - split; [eapply index_matches_cell_set; eauto|].
    intros id. rewrite (getCell_cell_set _ _ _ c1) by done.
    destruct (decide (id = cell_id l)); [done|]. rewrite Hget1.
    by rewrite decide_False.
  - split; [done|]. exact Hget1.
Qed.

Lemma transfer_loop P s t (ls : list Cell) : ∀ g,
  index_matches P g → NoDup (cell_id <$> ls) →
  (∀ l, l ∈ ls → (cell_id l ∉ P) ∧ getCell g (cell_id l) = Some l
                 ∧ isLink l = true) →
  is_Some (getCell g (cell_id s)) →
  index_matches P (foldl (λ g l, transfer_link s t l g) g ls)
  ∧ (∀ l, l ∈ ls →
          getCell (foldl (λ g l, transfer_link s t l g) g ls) (cell_id l)
          = Some (transferred (cell_id s) (cell_id t) l))
  ∧ (∀ id, id ∉ cell_id <$> ls →
           getCell (foldl (λ g l, transfer_link s t l g) g ls) id
           = getCell g id).
Proof.
  induction ls as [|l ls IH]; intros g Hinv Hnd Hls Hs.
  - split; [done|]. split; [by intros l ?%elem_of_nil | done].
  - rewrite fmap_cons in Hnd. apply NoDup_cons in Hnd as [Hl Hnd].
    destruct (Hls l) as (HP & Hlive & Hlink); [left|].
    destruct (transfer_link_spec P g s t l l Hinv HP Hlive Hlink Hs)
      as [Hinv1 Hget1].
    simpl. destruct (IH (transfer_link s t l g)) as (Hinv' & Hin' & Hout');
      [done|done| | |].
    + intros l' Hl'. destruct (Hls l') as (? & ? & ?); [by right|].
      split; [done|]. split; [|done]. rewrite Hget1, decide_False; [done|].
      intros Heq. apply Hl. rewrite <- Heq. apply list_elem_of_fmap. eauto.
    + rewrite Hget1. destruct (decide (cell_id s = cell_id l)); eauto.
    + split; [done|]. split.
      * intros l' [->|Hl']%elem_of_cons; [|by apply Hin'].
        rewrite Hout' by done. by rewrite Hget1, decide_True.
      * intros id Hid. try rewrite fmap_cons in Hid.
        apply not_elem_of_cons in Hid as [Hne Hid]. rewrite Hout' by done.
        by rewrite Hget1, decide_False.
Qed.


(** ** Subgraphs *)

Lemma foldM_inv_each {A S} (f : S → A → result S) (I : S → Prop)
    (Q : A → S → Prop) (l : list A) :
  (∀ st x st', x ∈ l → I st → f st x = Ok st' →
     I st' ∧ Q x st' ∧ ∀ y, Q y st → Q y st') →
  ∀ st st', I st → foldM f st l = Ok st' →
    I st' ∧ (∀ x, x ∈ l → Q x st') ∧ (∀ y, Q y st → Q y st').
Proof.
  induction l as [|a l IH]; intros Hstep st st' HI Hrun.
  - simpl in Hrun. injection Hrun as <-. split; [done|].
    split; [by intros x ?%elem_of_nil | done].
  - simpl in Hrun. destruct (f st a) as [st1|] eqn:Ha; [|done].
    simpl in Hrun.
    destruct (Hstep st a st1) as (HI1 & HQa & Hmono1); [left|done|done|].
    destruct (IH (λ st0 x st0' Hx, Hstep st0 x st0'
                    (proj2 (elem_of_cons _ _ _) (or_intror Hx)))
                st1 st' HI1 Hrun) as (HI' & HQ' & Hmono').
    split; [done|]. split; [|by eauto].
    intros x [->|Hx]%elem_of_cons; [by apply Hmono'|by apply HQ'].
Qed.

Lemma sub_ok_push c st :
  sub_ok st → cell_id c ∉ sub_map st →
  {[cell_id c]} ∪ sub_map st
  = list_to_set (cell_id <$> (sub_cells st ++ [c]))
  ∧ NoDup (cell_id <$> (sub_cells st ++ [c])).
Proof.
  intros [Hmap Hnd] Hnew. split.
  - rewrite fmap_app, list_to_set_app_L, <- Hmap. simpl. set_solver.
  - rewrite fmap_app. apply NoDup_app. split; [done|].
    split; [|apply NoDup_singleton].
    intros x Hx Hx'. simpl in Hx'. apply list_elem_of_singleton in Hx'.
    subst x. apply Hnew. rewrite Hmap. by apply elem_of_list_to_set.
Qed.

Lemma ends_in_mono l st st' :
  sub_map st ⊆ sub_map st' → ends_in l st → ends_in l st'.
Proof. intros Hsub Hl s Hs. apply Hsub. by apply Hl. Qed.

Lemma sub_take_spec c st :
  sub_ok st →
  sub_ok (sub_take c st)
  ∧ sub_map st ⊆ sub_map (sub_take c st)
  ∧ cell_id c ∈ sub_map (sub_take c st)
  ∧ (∀ x, x ∈ sub_cells (sub_take c st) ↔ x ∈ sub_cells st
         ∨ (x = c ∧ cell_id c ∉ sub_map st))
  ∧ (∀ x, x ∈ sub_links (sub_take c st) ↔ x ∈ sub_links st
         ∨ (x = c ∧ (cell_id c ∉ sub_map st) ∧ isLink c = true)).
Proof.
  intros Hok. unfold sub_take.
  destruct (decide (cell_id c ∈ sub_map st)) as [Hin|Hnew].
  - split; [done|]. split; [done|]. split; [done|].
    split; intros x; split; try tauto; intros [?|[_ ?]]; tauto.
  - split; [by apply sub_ok_push|]. simpl. split; [set_solver|].
    split; [set_solver|]. split.
    + intros x. rewrite elem_of_app, list_elem_of_singleton. tauto.
    + intros x. destruct (isLink c).
      * rewrite elem_of_app, list_elem_of_singleton. tauto.
      * split; [tauto|]. intros [?|(_ & _ & ?)]; [done|congruence].
Qed.

Lemma sub_end_spec g e st st' :
  sub_ok st → sub_end g e st = Ok st' →
  sub_ok st'
  ∧ sub_map st ⊆ sub_map st'
  ∧ (∀ s, truthy_id e = Some s → s ∈ sub_map st')
  ∧ (∀ x, x ∈ sub_cells st' →
          x ∈ sub_cells st
          ∨ ∃ s, truthy_id e = Some s ∧ getCell g s = Some x).
Proof.
  intros Hok. unfold sub_end.
  destruct (truthy_id e) as [id|].
  2: { intros [= <-]. split; [done|]. split; [done|]. split; [done|]. eauto. }
  destruct (decide (id ∈ sub_map st)) as [Hin|Hnew].
  { intros [= <-]. split; [done|]. split; [done|].
    split; [by intros s [= <-]|]. eauto. }
  destruct (getCell g id) as [el|] eqn:Hel; [|done].
  pose proof (getCell_Some _ _ _ Hel) as [Heid _].
  intros [= <-]. simpl. rewrite <- Heid in Hnew.
  split; [by apply sub_ok_push|]. split; [set_solver|].
  split; [intros s [= <-]; set_solver|].
  intros x [?| ->%list_elem_of_singleton]%elem_of_app; [by left|right].
  exists id. done.
Qed.

Lemma sub_link_spec link st st' :
  sub_ok st → sub_link link st = Ok st' →
  sub_ok st'
  ∧ sub_map st ⊆ sub_map st'
  ∧ (∀ x, x ∈ sub_cells st' → x ∈ sub_cells st ∨ ends_in x st).
Proof.
  intros Hok. unfold sub_link. destruct link as [l|]; [|done].
  destruct (negb _ && _ && _) eqn:Hcond; intros [= <-].
  2: { split; [done|]. split; [done|]. eauto. }
  apply andb_true_iff in Hcond as [Hcond Ht].
  apply andb_true_iff in Hcond as [Hnew Hs].
  apply negb_true_iff, bool_decide_eq_false in Hnew.
  simpl. split; [by apply sub_ok_push|]. split; [set_solver|].
  intros x [?| ->%list_elem_of_singleton]%elem_of_app; [by left|right].
  intros s [Hx|Hx].
  - unfold sub_has_end in Hs. rewrite Hx in Hs.
    by apply bool_decide_eq_true in Hs.
  - unfold sub_has_end in Ht. rewrite Hx in Ht.
    by apply bool_decide_eq_true in Ht.
Qed.

Lemma sub_first_loop (cells : list Cell) :
  let st1 := foldl (λ st cell, sub_take cell st) (mkSub [] ∅ [] []) cells in
  sub_ok st1
  ∧ (∀ c, c ∈ cells → cell_id c ∈ sub_map st1)
  ∧ (∀ x, x ∈ sub_cells st1 → x ∈ cells)
  ∧ (∀ x, x ∈ sub_links st1 ↔ x ∈ sub_cells st1 ∧ isLink x = true).
Proof.
  induction cells as [|c cells IH] using rev_ind.
  - simpl. split; [split; [done|apply NoDup_nil_2]|].
    split; [by intros c ?%elem_of_nil|]. split; [done|].
    intros x. simpl. rewrite elem_of_nil. tauto.
  - simpl. rewrite foldl_app. simpl. simpl in IH.
    destruct IH as (Hok & Hin & Hsub & Hlinks).
    destruct (sub_take_spec c _ Hok) as (Hok' & Hmono & Hc & Hcells & Hl').
    split; [done|]. split; [|split].
    + intros c' [Hc'| ->%list_elem_of_singleton]%elem_of_app; [|done].
      by apply Hmono, Hin.
    + intros x [Hx|[-> _]]%Hcells; apply elem_of_app; [left; by apply Hsub|].
      right. left.
    + intros x. rewrite Hl', Hcells, Hlinks. split.
      * intros [[? ?]|(-> & ? & ?)]; [by eauto|]. split; [by right|done].
      * intros [[?|[-> ?]] ?]; [by left|by right].
Qed.



Lemma foldM_returns {A S} (f : S → A → result S) (l : list A) :
  (∀ st x, x ∈ l → ∃ st', f st x = Ok st') →
  ∀ st, ∃ st', foldM f st l = Ok st'.
Proof.
  induction l as [|a l IH]; intros Hf st; [by eexists|].
  simpl. destruct (Hf st a) as [st1 ->]; [left|]. simpl.
  apply IH. intros st0 x Hx. apply Hf. by right.
Qed.

Lemma connected_links_return g opt model :
  index_ok g → indirect opt = false → deep opt = false →
  ∃ ls, getConnectedLinks g opt model = Ok (Some <$> ls).
Proof.
  intros Hok Hind Hdeep. pose proof Hok as [_ Hout Hin _ _ Hndo Hndi].
  rewrite getConnectedLinks_direct by (done || apply Hndo || apply Hndi).
  exists (omap (getCell g) (direct_edges g opt (cell_id model))).
  f_equal. apply fmap_Some_omap. intros e He. unfold direct_edges in He.
  apply elem_of_app in He as [He|He].
  - destruct (directions opt).2; [|by apply elem_of_nil in He].
    apply Hout in He as (_ & c & -> & _). eauto.
  - destruct (directions opt).1; [|by apply elem_of_nil in He].
    apply list_elem_of_filter in He as [_ He].
    apply Hin in He as (_ & c & -> & _). eauto.
Qed.

(** X26.  On a graph whose index matches, without [deep] and
    [indirect], [getSubgraph] returns whenever every end of a given link
    that carries an id names a cell of the collection. *)
Theorem subgraph_returns (g : Graph) (cells : list Cell) (opt : QueryOpt)
    (Hok : index_ok g)
    (Hind : indirect opt = false) (Hdeep : deep opt = false)
    (Hends : ∀ l s, l ∈ cells → isLink l = true →
       truthy_id (source l) = Some s ∨ truthy_id (target l) = Some s →
       is_Some (getCell g s)) :
  ∃ subgraph, getSubgraph g cells opt = Ok subgraph.
Proof.
  unfold getSubgraph. rewrite Hdeep.
  set (st1 := foldl (λ st cell, sub_take cell st) (mkSub [] ∅ [] []) cells).
  pose proof (sub_first_loop cells) as H1. cbv zeta in H1. fold st1 in H1.
  destruct H1 as (_ & _ & Hsub1 & Hlinks1).
  assert (Hend : ∀ e st, (∀ s, truthy_id e = Some s → is_Some (getCell g s)) →
                         ∃ st', sub_end g e st = Ok st').
  { intros e st He. unfold sub_end. destruct (truthy_id e) as [id|]; [|eauto].
    destruct (decide (id ∈ sub_map st)); [eauto|].
    destruct (He id eq_refl) as [el ->]. eauto. }
  destruct (foldM_returns
              (λ st link, st' ← sub_end g (source link) st;
                          sub_end g (target link) st')
              (sub_links st1)) with (st := st1) as [st2 Hloop2].
  { intros st l [Hl Hlink]%Hlinks1. apply Hsub1 in Hl.
    destruct (Hend (source l) st) as [sta ->]; [by eauto|]. simpl.
    apply Hend. eauto. }
  rewrite Hloop2. simpl.
  destruct (foldM_returns
              (λ st element,
                 links ← getConnectedLinks g opt element;
                 foldM (λ st link, sub_link link st) st links)
              (sub_elements st2)) with (st := st2) as [st3 Hloop3].
  { intros st el _.
    destruct (connected_links_return g opt el Hok Hind Hdeep) as [ls ->].
    simpl. apply foldM_returns. intros st0 link Hlink.
    apply list_elem_of_fmap in Hlink as (l & -> & _). unfold sub_link.
    destruct (negb _ && _ && _); eauto. }
  rewrite Hloop3. simpl. eauto.
Qed.

Lemma subgraph_returns_witness :
  ∃ subgraph,
    getSubgraph graph_with_loop [link_cell "m" "a" "b"] no_opt = Ok subgraph.
Proof.
  apply (subgraph_returns graph_with_loop [link_cell "m" "a" "b"] no_opt).
  - apply reachable_index_ok, reachable_graph_with_loop.
  - reflexivity.
  - reflexivity.
  - intros l s Hl _ Hs. apply list_elem_of_singleton in Hl. subst l.
    destruct Hs as [Hs|Hs]; injection Hs as <-; vm_compute; eauto.
Defined.
(** ** The common ancestor *)

Lemma insert_by_length_perm a l : insert_by_length a l ≡ₚ a :: l.
Proof.
  induction l as [|b l IH]; simpl; [done|].
  destruct (decide (length a ≤ length b)%nat); [done|].
  rewrite IH. apply Permutation_swap.
Qed.

Lemma sort_by_length_perm l : sort_by_length l ≡ₚ l.
Proof.
  induction l as [|a l IH]; simpl; [done|].
  by rewrite insert_by_length_perm, IH.
Qed.

Lemma ancestors_loop_resolved fuel : ∀ g parentId chain,
  ancestors_loop fuel g parentId = Ok chain →
  ∀ p, p ∈ chain → is_Some (getCell g p).
Proof.
  induction fuel as [|fuel IH]; intros g parentId chain Hrun p Hp; [done|].
  simpl in Hrun. destruct parentId as [q|].
  - destruct (getCell g q) as [pc|] eqn:Hq; [|done].
    destruct (ancestors_loop fuel g (truthy_parent pc)) as [rest|] eqn:Hrest;
      [|done].
    simpl in Hrun. injection Hrun as <-.
    apply elem_of_cons in Hp as [->|Hp]; [by rewrite Hq|].
    by eapply IH.
  - injection Hrun as <-. by apply elem_of_nil in Hp.
Qed.

Lemma foldM_ancestors g (cells : list Cell) : ∀ acc res,
  foldM (λ acc cell, a ← ancestors g cell; Ok (acc ++ [a])) acc cells = Ok res →
  ∃ chains, res = acc ++ chains
            ∧ Forall2 (λ c chain, ancestors g c = Ok chain) cells chains.
Proof.
  induction cells as [|c cells IH]; intros acc res Hrun.
  - simpl in Hrun. injection Hrun as <-. exists []. by rewrite app_nil_r.
  - simpl in Hrun. destruct (ancestors g c) as [a|] eqn:Ha; [|done].
    simpl in Hrun. apply IH in Hrun as (chains & -> & Hall).
    exists (a :: chains). rewrite <- app_assoc. split; [done|].
    by constructor.
Qed.

(** X27.  When [getCommonAncestor] returns a cell, that cell is in the
    collection and its id is among the ancestors of every given cell; when
    it returns [undefined], no cell was given or no id is among the
    ancestors of all the given cells. *)
Theorem common_ancestor_of_all (g : Graph) (cells : list Cell)
    (r : option Cell)
    (Hrun : getCommonAncestor g cells = Ok r) :
  match r with
  | Some a =>
      a ∈ cellCollection g
      ∧ ∀ c, c ∈ cells → ∃ chain, ancestors g c = Ok chain ∧ cell_id a ∈ chain
  | None =>
      cells = []
      ∨ ¬ ∃ id, ∀ c, c ∈ cells → ∃ chain, ancestors g c = Ok chain ∧ id ∈ chain
  end.
Proof.
  unfold getCommonAncestor in Hrun.
  destruct (foldM _ [] cells) as [chains|] eqn:Hfold; [|done].
  simpl in Hrun.
  apply foldM_ancestors in Hfold as (chains' & -> & Hall). simpl in Hrun.
  pose proof (sort_by_length_perm chains') as Hperm.
  assert (Hchain : ∀ c, c ∈ cells →
            ∃ chain, ancestors g c = Ok chain ∧ chain ∈ chains').
  { intros c Hc. apply list_elem_of_lookup in Hc as [i Hi].
    destruct (Forall2_lookup_l _ _ _ _ _ Hall Hi) as (chain & Hch & Ha).
    exists chain. split; [done|]. by eapply list_elem_of_lookup_2. }
  assert (Hback : ∀ chain, chain ∈ chains' →
            ∃ c, c ∈ cells ∧ ancestors g c = Ok chain).
  { intros chain Hch. apply list_elem_of_lookup in Hch as [i Hi].
    destruct (Forall2_lookup_r _ _ _ _ _ Hall Hi) as (c & Hc & Ha).
    exists c. split; [|done]. by eapply list_elem_of_lookup_2. }
  destruct (sort_by_length chains') as [|shortest others] eqn:Hsort.
  { injection Hrun as <-. left. apply Permutation_nil_l in Hperm. subst chains'.
    by apply Forall2_nil_inv_r in Hall. }
  assert (Hresolved : ∀ p, p ∈ shortest → is_Some (getCell g p)).
  { intros p Hp. destruct (Hback shortest) as (c & _ & Ha).
    { rewrite <- Hperm. left. }
    by eapply ancestors_loop_resolved. }
  destruct (find _ shortest) as [common|] eqn:Hfind.
  - apply find_some in Hfind as [Hin Hothers]. apply list_elem_of_In in Hin.
    injection Hrun as <-. destruct (Hresolved common Hin) as [a Ha].
    rewrite Ha. apply getCell_Some in Ha as [Hid Hcoll]. split; [done|].
    intros c Hc. destruct (Hchain c Hc) as (chain & Hanc & Hch).
    exists chain. split; [done|]. rewrite Hid.
    rewrite <- Hperm in Hch. apply elem_of_cons in Hch as [->|Hch]; [done|].
    rewrite forallb_forall in Hothers.
    apply list_elem_of_In, Hothers in Hch. by apply bool_decide_eq_true in Hch.
  - injection Hrun as <-. right. intros [id Hid].
    assert (Hevery : ∀ chain, chain ∈ shortest :: others → id ∈ chain).
    { intros chain Hch. rewrite Hperm in Hch.
      destruct (Hback chain Hch) as (c & Hc & Ha).
      destruct (Hid c Hc) as (chain' & Ha' & Hin). congruence. }
    assert (Hin : id ∈ shortest) by (apply Hevery; left).
    apply list_elem_of_In in Hin.
    pose proof (find_none _ _ Hfind id Hin) as Hno. simpl in Hno.
    apply not_true_iff_false in Hno. apply Hno.
    apply forallb_forall. intros chain Hch. apply bool_decide_eq_true.
    apply Hevery. right. by apply list_elem_of_In.
Qed.

Lemma common_ancestor_of_all_witness :
  element_cell "r" ∈ cellCollection graph_with_ancestors
  ∧ ∀ c, c ∈ [embedded_cell "j" "p"; embedded_cell "p" "r"] →
         ∃ chain, ancestors graph_with_ancestors c = Ok chain
                  ∧ cell_id (element_cell "r") ∈ chain.
Proof.
  apply (common_ancestor_of_all graph_with_ancestors
           [embedded_cell "j" "p"; embedded_cell "p" "r"]
           (Some (element_cell "r"))).
  vm_compute. reflexivity.
Defined.
